(** * Verification of the Jarvis voice agent (scripts/jarvis-voice.py)

    A shallow embedding of the sentence segmenter, the conversation memory
    and the streaming response pipeline of [scripts/jarvis-voice.py],
    followed by the properties proved about them.

    Conventions of the embedding.
    - A Python [str] is a [list ascii]; a character is its code point, so
      the model covers the strings whose code points are below 256.  The
      character classes used by [str.split], [str.strip], [str.isdigit],
      [str.lower] and the regular-expression classes [\s] and [\w] are
      Python's classes restricted to that range.
    - Mutable objects are threaded explicitly: a method of
      [ConversationMemory] or [StreamingPipeline] takes the object's state
      and returns the new one.
    - A [queue.Queue] is the list of its items, oldest first. *)

From Stdlib Require Import List String Ascii Bool Arith ZArith Lia.
Import ListNotations.

Set Implicit Arguments.

(* ================================================================== *)
(** * Python string primitives *)
(* ================================================================== *)

Definition str := list ascii.

(** A Python string literal. *)
Definition lit (s : string) : str := list_ascii_of_string s.

Definition ord (c : ascii) : nat := nat_of_ascii c.

Definition between (lo n hi : nat) : bool := (lo <=? n) && (n <=? hi).

(** [c.isspace()] for one character: TAB..CR, FS..US, SPACE, NEL, NBSP. *)
Definition isspace (c : ascii) : bool :=
  let n := ord c in
  between 9 n 13 || between 28 n 31 || (n =? 32) || (n =? 133) || (n =? 160).

(** [c.isdigit()] for one character: 0-9 and the superscripts 1, 2, 3. *)
Definition isdigit (c : ascii) : bool :=
  let n := ord c in
  between 48 n 57 || (n =? 178) || (n =? 179) || (n =? 185).

(** [c.isalnum()] for one character (letters, digits and numerics). *)
Definition isalnum (c : ascii) : bool :=
  let n := ord c in
  between 48 n 57 || between 65 n 90 || between 97 n 122
  || (n =? 170) || (n =? 178) || (n =? 179) || (n =? 181)
  || (n =? 185) || (n =? 186) || between 188 n 190
  || between 192 n 214 || between 216 n 246 || between 248 n 255.

(** The regular-expression class [\w]. *)
Definition isword (c : ascii) : bool := isalnum c || (ord c =? 95).

(** [c.lower()] for one character. *)
Definition lower_char (c : ascii) : ascii :=
  let n := ord c in
  if between 65 n 90 || between 192 n 214 || between 216 n 222
  then ascii_of_nat (n + 32) else c.

Definition str_eqb (a b : str) : bool :=
  if list_eq_dec ascii_dec a b then true else false.

Definition char_in (c : ascii) (chars : str) : bool :=
  existsb (Ascii.eqb c) chars.

(** [s.lower()] *)
Definition str_lower (s : str) : str := map lower_char s.

(** [s.isdigit()]: at least one character and all of them digits. *)
Definition str_isdigit (s : str) : bool :=
  match s with
  | [] => false
  | _ => forallb isdigit s
  end.

(** [s.lstrip()], [s.rstrip()], [s.strip()] *)
Fixpoint str_lstrip (s : str) : str :=
  match s with
  | [] => []
  | c :: s' => if isspace c then str_lstrip s' else s
  end.

Definition str_rstrip (s : str) : str := rev (str_lstrip (rev s)).

Definition str_strip (s : str) : str := str_rstrip (str_lstrip s).

(** [s.rstrip(chars)] *)
Fixpoint drop_in (chars : str) (s : str) : str :=
  match s with
  | [] => []
  | c :: s' => if char_in c chars then drop_in chars s' else s
  end.

Definition str_rstrip_chars (chars s : str) : str :=
  rev (drop_in chars (rev s)).

(** [s.split()]: the maximal runs of non-whitespace characters.  [cur] is
    the run being read. *)
Fixpoint split_from (cur : str) (s : str) : list str :=
  match s with
  | [] => match cur with [] => [] | _ => [cur] end
  | c :: s' =>
      if isspace c
      then match cur with
           | [] => split_from [] s'
           | _ => cur :: split_from [] s'
           end
      else split_from (cur ++ [c]) s'
  end.

Definition str_split (s : str) : list str := split_from [] s.

(** [sep.join(parts)] *)
Fixpoint str_join (sep : str) (parts : list str) : str :=
  match parts with
  | [] => []
  | [p] => p
  | p :: rest => p ++ sep ++ str_join sep rest
  end.

(** [s.startswith(p)] *)
Fixpoint startswith (p s : str) : bool :=
  match p, s with
  | [], _ => true
  | _ :: _, [] => false
  | a :: p', b :: s' => Ascii.eqb a b && startswith p' s'
  end.

(** [s.replace(old, new)]: the non-overlapping occurrences of [old], found
    from the left, are replaced.  [skip] counts the characters of an
    occurrence still to be passed over. *)
Fixpoint replace_from (old new : str) (skip : nat) (s : str) : str :=
  match s with
  | [] => []
  | c :: s' =>
      match skip with
      | S k => replace_from old new k s'
      | O =>
          if startswith old s
          then new ++ replace_from old new (List.length old - 1) s'
          else c :: replace_from old new 0 s'
      end
  end.

Definition str_replace (old new s : str) : str :=
  match old with
  | [] => new ++ flat_map (fun c => c :: new) s
  | _ => replace_from old new 0 s
  end.

(** [s[-1]] when [s] is not empty. *)
Definition last_char (s : str) : option ascii :=
  match rev s with
  | [] => None
  | c :: _ => Some c
  end.

Definition last_char_is (c : ascii) (s : str) : bool :=
  match last_char s with
  | Some d => Ascii.eqb d c
  | None => false
  end.

Definition nonempty {A : Type} (l : list A) : bool :=
  match l with [] => false | _ => true end.

(* ================================================================== *)
(** * Sentence splitter *)
(* ================================================================== *)

Definition ABBREVIATIONS : list str :=
  map lit
    [ "mr"; "mrs"; "ms"; "dr"; "prof"; "sr"; "jr"; "st"; "ave";
      "inc"; "ltd"; "corp"; "dept"; "est"; "approx"; "etc";
      "vs"; "fig"; "vol"; "no"; "jan"; "feb"; "mar"; "apr";
      "jun"; "jul"; "aug"; "sep"; "oct"; "nov"; "dec" ]%string.

Definition in_abbreviations (base : str) : bool :=
  existsb (str_eqb base) ABBREVIATIONS.

(** [word and word[-1] in ".!?"] *)
Definition ends_sentence (word : str) : bool :=
  match last_char word with
  | Some c => char_in c (lit ".!?")
  | None => false
  end.

(** [words[i + 1][:1].isdigit()], with [rest] the words after index [i];
    false when there is no next word. *)
Definition next_starts_with_digit (rest : list str) : bool :=
  match rest with
  | [] => false
  | next :: _ => str_isdigit (firstn 1 next)
  end.

(** [" ".join(current).strip()], appended when it is not empty. *)
Definition close_sentence (sentences : list str) (current : list str)
  : list str :=
  let sentence := str_strip (str_join (lit " ") current) in
  if nonempty sentence then sentences ++ [sentence] else sentences.

(** The [for i, word in enumerate(words)] loop of [split_into_sentences]
    and the code after it.  [words] are the words from index [i] on. *)
Fixpoint scan_words (words : list str) (sentences current : list str)
  : list str :=
  match words with
  | [] =>
      if nonempty current then close_sentence sentences current
      else sentences
  | word :: rest =>
      let current := current ++ [word] in
      if ends_sentence word then
        let base := str_lower (str_rstrip_chars (lit ".!?") word) in
        if in_abbreviations base then
          scan_words rest sentences current
        else if last_char_is "."%char word && next_starts_with_digit rest
        then scan_words rest sentences current
        else if last_char_is "."%char word
                && str_isdigit
                     (str_replace (lit ".") []
                        (str_replace (lit ",") [] base))
        then scan_words rest sentences current
        else scan_words rest (close_sentence sentences current) []
      else scan_words rest sentences current
  end.

Definition split_into_sentences (text : str) : list str :=
  if negb (nonempty (str_strip text)) then []
  else scan_words (str_split text) [] [].


(** [format_for_speech]: the two [re.sub] calls are written as scanners.

    [collapse_periods] is [re.sub(r"\.(\s*\.)+", ".", text)].  [pending] is
    [Some ws] when a period has been output and the whitespace [ws] has been
    read since: a further period extends the match (the whitespace and the
    period are dropped), any other character ends it. *)
Fixpoint collapse_periods (pending : option str) (s : str) : str :=
  match s with
  | [] => match pending with Some ws => ws | None => [] end
  | c :: s' =>
      match pending with
      | None =>
          if Ascii.eqb c "."%char
          then c :: collapse_periods (Some []) s'
          else c :: collapse_periods None s'
      | Some ws =>
          if Ascii.eqb c "."%char then collapse_periods (Some []) s'
          else if isspace c then collapse_periods (Some (ws ++ [c])) s'
          else ws ++ c :: collapse_periods None s'
      end
  end.

(** What a maximal whitespace run becomes under [re.sub(r"\s{2,}", " ", _)]. *)
Definition squeeze_run (run : str) : str :=
  match run with
  | [] => []
  | [c] => [c]
  | _ => lit " "
  end.

(** [re.sub(r"\s{2,}", " ", text)]; [run] is the whitespace run being read. *)
Fixpoint collapse_spaces (run : str) (s : str) : str :=
  match s with
  | [] => squeeze_run run
  | c :: s' =>
      if isspace c then collapse_spaces (run ++ [c]) s'
      else squeeze_run run ++ c :: collapse_spaces [] s'
  end.

Definition NL : str := ["010"%char].

Definition format_for_speech (text : str) : str :=
  if negb (nonempty text) then []
  else
    let text := str_replace (lit "#") []
                  (str_replace (lit "*") [] (str_replace (lit "**") [] text)) in
    let text := str_replace (lit "`") [] (str_replace (lit "```") [] text) in
    let text := str_replace NL (lit ". ")
                  (str_replace (NL ++ NL) (lit ". ") text) in
    let text := collapse_periods None text in
    let text := collapse_spaces [] text in
    str_strip text.

(* ================================================================== *)
(** * Conversation memory *)
(* ================================================================== *)

(** One entry of [ConversationMemory.turns]: [{"role": _, "content": _}]. *)
Record Turn : Type := mkTurn { role : str; content : str }.

Definition user_turn (text : str) : Turn := mkTurn (lit "user") text.
Definition assistant_turn (text : str) : Turn := mkTurn (lit "assistant") text.

(** The in-memory state of a [ConversationMemory].  [_save] rewrites the
    history file from [turns] and changes nothing in memory, so it does not
    appear in the state transformers below. *)
Record ConversationMemory : Type := mkMemory {
  max_turns : Z;
  turns : list Turn
}.

Definition len {A : Type} (l : list A) : Z := Z.of_nat (List.length l).

(** Python's [l[start:]] for any integer [start]. *)
Definition slice_from {A : Type} (start : Z) (l : list A) : list A :=
  let i := if (start <? 0)%Z then Z.max 0 (start + len l) else Z.min start (len l) in
  skipn (Z.to_nat i) l.

Definition _trim (m : ConversationMemory) : ConversationMemory :=
  let max_messages := (max_turns m * 2)%Z in
  if (len (turns m) >? max_messages)%Z
  then mkMemory (max_turns m) (slice_from (- max_messages)%Z (turns m))
  else m.

Definition append_turn (t : Turn) (m : ConversationMemory) : ConversationMemory :=
  mkMemory (max_turns m) (turns m ++ [t]).

Definition add_user (text : str) (m : ConversationMemory) : ConversationMemory :=
  _trim (append_turn (user_turn text) m).

Definition add_assistant (text : str) (m : ConversationMemory)
  : ConversationMemory :=
  _trim (append_turn (assistant_turn text) m).

Definition get_messages (SYSTEM_PROMPT : str) (m : ConversationMemory)
  : list Turn :=
  mkTurn (lit "system") SYSTEM_PROMPT :: turns m.

Definition clear (m : ConversationMemory) : ConversationMemory :=
  mkMemory (max_turns m) [].

(** [self.turns and self.turns[-1]["role"] == r] *)
Definition last_role_is (r : str) (ts : list Turn) : bool :=
  match rev ts with
  | [] => false
  | t :: _ => str_eqb (role t) r
  end.

(** [self.turns.pop()] on a non-empty list. *)
Definition pop (ts : list Turn) : list Turn := removelast ts.

Definition forget_last (m : ConversationMemory) : ConversationMemory :=
  let ts := turns m in
  let ts := if last_role_is (lit "assistant") ts then pop ts else ts in
  let ts := if last_role_is (lit "user") ts then pop ts else ts in
  mkMemory (max_turns m) ts.


(* ================================================================== *)
(** * Streaming pipeline: state, route detection, sentence emission *)
(* ================================================================== *)

(** An item of [audio_queue]: synthesized bytes (or the [b"__SKIP__"]
    marker), or the routing sentinel string forwarded by the synthesis
    thread. *)
Inductive audio_item : Type :=
| AudioBytes (data : str)
| AudioStr (s : str).

(** The fields of a [StreamingPipeline] that its threads share.  [None] in
    a queue is the end-of-stream marker. *)
Record StreamingPipeline : Type := mkPipeline {
  cancel : bool;
  sentence_queue : list (option str);
  audio_queue : list (option audio_item);
  full_response : str
}.

Definition put_sentence (x : option str) (p : StreamingPipeline)
  : StreamingPipeline :=
  mkPipeline (cancel p) (sentence_queue p ++ [x]) (audio_queue p)
    (full_response p).

Definition put_audio (x : option audio_item) (p : StreamingPipeline)
  : StreamingPipeline :=
  mkPipeline (cancel p) (sentence_queue p) (audio_queue p ++ [x])
    (full_response p).

Definition set_full_response (r : str) (p : StreamingPipeline)
  : StreamingPipeline :=
  mkPipeline (cancel p) (sentence_queue p) (audio_queue p) r.

Fixpoint take_while (f : ascii -> bool) (s : str) : str :=
  match s with
  | [] => []
  | c :: s' => if f c then c :: take_while f s' else []
  end.

Fixpoint drop_while (f : ascii -> bool) (s : str) : str :=
  match s with
  | [] => []
  | c :: s' => if f c then drop_while f s' else s
  end.

(** The class [[\w-]]. *)
Definition is_agent_char (c : ascii) : bool := isword c || Ascii.eqb c "-"%char.

(** [re.match] of the route pattern of [_handle_turn] under [re.DOTALL]:
    the literal [[ROUTE:], group 1 a non-empty run of [[\w-]], the literal
    []], a run of [\s], and group 2 the whole rest of the string.  The
    result is the pair of the groups.  Every quantifier is followed by a
    character outside its class, so the greedy match is the only one. *)
Definition match_route (s : str) : option (str * str) :=
  if startswith (lit "[ROUTE:") s then
    let s1 := skipn 7 s in
    let agent_id := take_while is_agent_char s1 in
    match agent_id, drop_while is_agent_char s1 with
    | _ :: _, c :: s2 =>
        if Ascii.eqb c "]"%char then Some (agent_id, str_lstrip s2) else None
    | _, _ => None
    end
  else None.

(** The same with the leading [\s*] of [_process_token_buffer]. *)
Definition match_route_ws (s : str) : option (str * str) :=
  match_route (str_lstrip s).

(** ** The provider streams

    What [httpx] hands to a streaming attempt.  Opening the request may raise;
    otherwise [raise_for_status] inspects the status and [iter_lines] yields
    the lines and then ends or raises. *)
Inductive httpx_error : Type :=
| ConnectError | TimeoutException | HTTPStatusError | OtherError.

Inductive response (L : Type) : Type :=
| RequestRaises (e : httpx_error)
| Streams (status_ok : bool) (lines : list L) (ending : option httpx_error).

Arguments RequestRaises {L} e.
Arguments Streams {L} status_ok lines ending.

(** A line of the local endpoint as the loop of [_try_ollama_stream] sees
    it: blank, not JSON, or a document with its [message.content] (empty
    when absent) and its [done] flag. *)
Inductive ollama_line : Type :=
| OBlank
| OMalformed
| OMessage (token : str) (done : bool).

(** A line of a cloud endpoint as the loop of [_try_cloud_stream] sees it,
    after the [data: ] prefix is removed: blank, [[DONE]], not JSON, a
    document without choices, or a delta with its [content] (empty when
    absent) and whether [finish_reason] is set. *)
Inductive cloud_line : Type :=
| CBlank
| CDone
| CMalformed
| CNoChoices
| CDelta (token : str) (finish_reason : bool).

(** How the [for line in response.iter_lines()] loop is left. *)
Inductive loop_exit : Type :=
| LoopReturn (p : StreamingPipeline)
| LoopEnd (p : StreamingPipeline) (token_buffer : str)
| LoopRaise (p : StreamingPipeline) (e : httpx_error).

(** An entry of [CLOUD_FALLBACKS]. *)
Record Provider : Type := mkProvider {
  pid : str;
  pname : str;
  endpoint : str;
  apiKey : str;
  compatible : str;
  model : str
}.

Section Pipeline.

(** [routing.routeDetectionChars] of the configuration (50 by default). *)
Variable ROUTE_DETECTION_CHARS : Z.

Definition route_sentinel (agent_id refined_query : str) : str :=
  lit "__ROUTE__:" ++ agent_id ++ lit ":" ++ refined_query.

Definition _process_token_buffer (p : StreamingPipeline) (token_buffer : str)
    (route_check_done : bool) : StreamingPipeline * bool :=
  if route_check_done then (p, false)
  else if (len token_buffer >? ROUTE_DETECTION_CHARS + 50)%Z then (p, false)
  else
    match match_route_ws token_buffer with
    | Some (agent_id, rest) =>
        let refined_query := str_strip rest in
        let p := set_full_response
                   (lit "[ROUTE:" ++ agent_id ++ lit "] " ++ refined_query) p in
        let p := put_sentence (Some (route_sentinel agent_id refined_query)) p in
        (put_sentence None p, true)
    | None => (p, false)
    end.

(** The [for sent in sentences[:-1]] loop of [_emit_sentences]. *)
Fixpoint emit_all (p : StreamingPipeline) (sents : list str)
  : StreamingPipeline :=
  match sents with
  | [] => p
  | sent :: rest =>
      if nonempty (str_strip sent) && negb (cancel p)
      then emit_all
             (set_full_response (full_response p ++ sent ++ lit " ")
                (put_sentence (Some sent) p))
             rest
      else emit_all p rest
  end.

Definition _emit_sentences (p : StreamingPipeline) (token_buffer : str)
  : StreamingPipeline * str :=
  let cleaned := format_for_speech token_buffer in
  let sentences := split_into_sentences cleaned in
  if (1 <? List.length sentences)%nat
  then (emit_all p (removelast sentences), last sentences [])
  else (p, token_buffer).

Definition _flush_buffer (p : StreamingPipeline) (token_buffer : str)
  : StreamingPipeline :=
  if nonempty (str_strip token_buffer) && negb (cancel p) then
    let cleaned := format_for_speech token_buffer in
    if nonempty cleaned
    then set_full_response (full_response p ++ cleaned)
           (put_sentence (Some cleaned) p)
    else p
  else p.

(** [if not route_check_done and len(token_buffer) > ROUTE_DETECTION_CHARS:
    route_check_done = True] *)
Definition update_route_check (token_buffer : str) (route_check_done : bool)
  : bool :=
  if negb route_check_done && (len token_buffer >? ROUTE_DETECTION_CHARS)%Z
  then true else route_check_done.

Fixpoint ollama_loop (p : StreamingPipeline) (token_buffer : str)
    (route_check_done : bool) (lines : list ollama_line)
    (ending : option httpx_error) : loop_exit :=
  match lines with
  | [] =>
      match ending with
      | Some e => LoopRaise p e
      | None => LoopEnd p token_buffer
      end
  | line :: rest =>
      if cancel p then LoopReturn p
      else
        match line with
        | OBlank | OMalformed =>
            ollama_loop p token_buffer route_check_done rest ending
        | OMessage token done =>
            if negb (nonempty token) then
              if done then LoopEnd p token_buffer
              else ollama_loop p token_buffer route_check_done rest ending
            else
              let token_buffer := token_buffer ++ token in
              let (p, found) :=
                _process_token_buffer p token_buffer route_check_done in
              if found then LoopReturn p
              else
                let route_check_done :=
                  update_route_check token_buffer route_check_done in
                let (p, token_buffer) := _emit_sentences p token_buffer in
                if done then LoopEnd p token_buffer
                else ollama_loop p token_buffer route_check_done rest ending
        end
  end.

(** The code after the loop: flush, end-of-stream marker, [return True];
    an exception is caught and gives [return False]. *)
Definition finish_stream (r : loop_exit) : StreamingPipeline * bool :=
  match r with
  | LoopReturn p => (p, true)
  | LoopEnd p token_buffer =>
      (put_sentence None (_flush_buffer p token_buffer), true)
  | LoopRaise p _ => (p, false)
  end.

Definition _try_ollama_stream (p : StreamingPipeline)
    (resp : response ollama_line) : StreamingPipeline * bool :=
  match resp with
  | RequestRaises _ => (p, false)
  | Streams status_ok lines ending =>
      if status_ok then finish_stream (ollama_loop p [] false lines ending)
      else (p, false)
  end.

Fixpoint cloud_loop (p : StreamingPipeline) (token_buffer : str)
    (route_check_done : bool) (lines : list cloud_line)
    (ending : option httpx_error) : loop_exit :=
  match lines with
  | [] =>
      match ending with
      | Some e => LoopRaise p e
      | None => LoopEnd p token_buffer
      end
  | line :: rest =>
      if cancel p then LoopReturn p
      else
        match line with
        | CBlank | CMalformed | CNoChoices =>
            cloud_loop p token_buffer route_check_done rest ending
        | CDone => LoopEnd p token_buffer
        | CDelta token finish_reason =>
            if negb (nonempty token) then
              if finish_reason then LoopEnd p token_buffer
              else cloud_loop p token_buffer route_check_done rest ending
            else
              let token_buffer := token_buffer ++ token in
              let (p, found) :=
                _process_token_buffer p token_buffer route_check_done in
              if found then LoopReturn p
              else
                let route_check_done :=
                  update_route_check token_buffer route_check_done in
                let (p, token_buffer) := _emit_sentences p token_buffer in
                cloud_loop p token_buffer route_check_done rest ending
        end
  end.

Definition _try_cloud_stream (p : StreamingPipeline) (provider : Provider)
    (resp : response cloud_line) : StreamingPipeline * bool :=
  if str_eqb (compatible provider) (lit "google") then (p, false)
  else
    match resp with
    | RequestRaises _ => (p, false)
    | Streams status_ok lines ending =>
        if status_ok then finish_stream (cloud_loop p [] false lines ending)
        else (p, false)
    end.

(** ** Thread 1: the fallback chain *)

(** The module-level [CLOUD_FALLBACKS], the answer of the local endpoint and
    the answer of each cloud endpoint to this request. *)
Variable CLOUD_FALLBACKS : list Provider.
Variable ollama : response ollama_line.
Variable cloud : Provider -> response cloud_line.

Definition APOLOGY : str :=
  lit "I can't reach any of my thinking engines right now.".

Definition ALL_UNREACHABLE : str := lit "[error: all providers unreachable]".

(** The [for provider in CLOUD_FALLBACKS] loop; the boolean tells whether a
    provider succeeded (the [return] inside the loop). *)
Fixpoint try_fallbacks (p : StreamingPipeline) (providers : list Provider)
  : StreamingPipeline * bool :=
  match providers with
  | [] => (p, false)
  | provider :: rest =>
      if cancel p then (p, false)
      else
        let (p, success) := _try_cloud_stream p provider (cloud provider) in
        if success then (p, true) else try_fallbacks p rest
  end.

Definition _stream_from_ollama (p : StreamingPipeline) : StreamingPipeline :=
  let (p, success) := _try_ollama_stream p ollama in
  if success then p
  else
    let (p, success) :=
      if nonempty CLOUD_FALLBACKS && negb (cancel p)
      then try_fallbacks p CLOUD_FALLBACKS
      else (p, false) in
    if success then p
    else if negb (cancel p) then
      let p := put_sentence (Some APOLOGY) p in
      let p := set_full_response ALL_UNREACHABLE p in
      put_sentence None p
    else p.

(** [StreamingPipeline.run]: the flag is cleared, the response and the
    queues are reset, the three threads run and [full_response] is returned.
    Only thread 1 writes [full_response], so the returned text is the one
    thread 1 leaves; [sentence_queue] of the result lists what thread 1
    emitted, in order. *)
Definition run (p : StreamingPipeline) : StreamingPipeline * str :=
  let p := mkPipeline false [] [] [] in
  let p := _stream_from_ollama p in
  (p, full_response p).

(** ** One conversation turn *)

Definition AGENT_NAMES : list (str * str) :=
  map (fun kv => (lit (fst kv), lit (snd kv)))
    [ ("deal-scanner", "Deal Scanner");
      ("newsletter-engine", "Newsletter Engine");
      ("reputation-monitor", "Reputation Monitor");
      ("compliance-engine", "Compliance Engine");
      ("outreach-agent", "Outreach Agent");
      ("overnight-deliverables", "Overnight Deliverables");
      ("content-studio", "Content Studio");
      ("system-guardian", "System Guardian");
      ("print-designer", "Print Designer");
      ("argument-simulator", "Argument Simulator");
      ("zombie-resurrector", "Zombie Resurrector");
      ("codebase-archaeologist", "Codebase Archaeologist");
      ("template-publisher", "Template Publisher");
      ("microtool-factory", "Microtool Factory");
      ("openclaw-core", "OpenClaw Core") ]%string.

(** [d.get(key, default)] on a dictionary given by its items. *)
Fixpoint dict_get (d : list (str * str)) (key default : str) : str :=
  match d with
  | [] => default
  | (k, v) :: d' => if str_eqb k key then v else dict_get d' key default
  end.

(** What [send_to_agent(agent_id, message)] returns. *)
Variable send_to_agent : str -> str -> option str.

(** The effect of [_handle_routing] on the memory. *)
Definition _handle_routing (m : ConversationMemory)
    (agent_id refined_query : str) : ConversationMemory :=
  match send_to_agent agent_id refined_query with
  | Some agent_response =>
      if nonempty agent_response then
        let spoken := format_for_speech agent_response in
        let words := str_split spoken in
        let spoken :=
          if (150 <? List.length words)%nat
          then str_join (lit " ") (firstn 150 words)
               ++ lit ". Full response sent to Telegram."
          else spoken in
        add_assistant
          (lit "[Routed to " ++ dict_get AGENT_NAMES agent_id agent_id
           ++ lit "] " ++ spoken) m
      else m
  | None => m
  end.

(** The effect of [_handle_turn] on the memory and the pipeline. *)
Definition _handle_turn (m : ConversationMemory) (p : StreamingPipeline)
    (text : str) : ConversationMemory * StreamingPipeline :=
  let m := add_user text m in
  let (p, response) := run p in
  match match_route response with
  | Some (agent_id, rest) =>
      let refined_query :=
        if nonempty (str_strip rest) then str_strip rest else text in
      (_handle_routing m agent_id refined_query, p)
  | None =>
      if nonempty response && negb (startswith (lit "[error:") response)
      then (add_assistant response m, p)
      else (m, p)
  end.

End Pipeline.

(** ** [load_llm_providers] *)

(** An entry of [providers] in llm-providers.json; [apiKeyEnv] is empty and
    [compatible] is [None] when the key is absent. *)
Record ProviderEntry : Type := mkEntry {
  entry_id : str;
  entry_name : str;
  entry_endpoint : str;
  entry_apiKeyEnv : str;
  entry_compatible : option str;
  entry_models : list str
}.

Record ProvidersFile : Type := mkProvidersFile {
  providers : list ProviderEntry;
  fallbackChain : option (list str);
  preferredModel : list (str * str)
}.

(** [providers_by_id[pid]]: in a dict comprehension the last entry with a
    given id wins. *)
Definition provider_by_id (entries : list ProviderEntry) (id : str)
  : option ProviderEntry :=
  find (fun e => str_eqb (entry_id e) id) (rev entries).

(** The [for pid in fallback_ids] loop.  [environ k] is
    [os.environ.get(k, "")]. *)
Fixpoint build_chain (data : ProvidersFile) (environ : str -> str)
    (fallback_ids : list str) : list Provider :=
  match fallback_ids with
  | [] => []
  | id :: rest =>
      match provider_by_id (providers data) id with
      | None => build_chain data environ rest
      | Some provider =>
          let api_key_env := entry_apiKeyEnv provider in
          let api_key := if nonempty api_key_env then environ api_key_env else [] in
          if negb (nonempty api_key) then build_chain data environ rest
          else
            mkProvider id (entry_name provider) (entry_endpoint provider) api_key
              (match entry_compatible provider with
               | Some c => c
               | None => lit "openai"
               end)
              (dict_get (preferredModel data) id (hd [] (entry_models provider)))
            :: build_chain data environ rest
      end
  end.

(** [voice_defaults.get("fallbackChain", ["groq", "cerebras", "sambanova"])] *)
Definition fallback_ids (data : ProvidersFile) : list str :=
  match fallbackChain data with
  | Some ids => ids
  | None => map lit ["groq"; "cerebras"; "sambanova"]%string
  end.

(** [file] is [None] when llm-providers.json does not exist. *)
Definition load_llm_providers (file : option ProvidersFile)
    (environ : str -> str) : list Provider :=
  match file with
  | None => []
  | Some data => build_chain data environ (fallback_ids data)
  end.

(* ================================================================== *)
(** * Cancellation and the playback thread *)
(* ================================================================== *)

(** [while not q.empty(): q.get_nowait()] *)
Fixpoint drain {A : Type} (q : list A) : list A :=
  match q with
  | [] => []
  | _ :: q' => drain q'
  end.

Definition interrupt (p : StreamingPipeline) : StreamingPipeline :=
  let p := mkPipeline true (sentence_queue p) (audio_queue p) (full_response p) in
  let p := mkPipeline (cancel p) (drain (sentence_queue p))
             (drain (audio_queue p)) (full_response p) in
  put_audio None (put_sentence None p).

(** The control points of [_play_audio_chunks].  Between two of them any
    other thread may run. *)
Inductive play_pc : Type :=
| AtWhile                              (* [while not self.cancel.is_set()] *)
| AtGet                                (* [self.audio_queue.get(timeout=1.0)] *)
| AtChecks (item : option audio_item)  (* the tests on the dequeued item *)
| AtPlay (data : str)                  (* the [try] block that plays *)
| Returned.

(** The playback thread: its control point and the buffers it has handed to
    the audio device, oldest first. *)
Record play_thread : Type := mkPlay {
  pc : play_pc;
  played : list str
}.

Definition SKIP : str := lit "__SKIP__".
Definition ROUTE_PREFIX : str := lit "__ROUTE__:".

(** One step of the playback thread.  [get] on an empty queue raises
    [queue.Empty] after its timeout and the loop continues.  A string that
    is not the sentinel cannot be played: the exception is logged. *)
Definition play_step (p : StreamingPipeline) (t : play_thread)
  : StreamingPipeline * play_thread :=
  match pc t with
  | AtWhile =>
      if cancel p then (p, mkPlay Returned (played t))
      else (p, mkPlay AtGet (played t))
  | AtGet =>
      match audio_queue p with
      | [] => (p, mkPlay AtWhile (played t))
      | item :: q =>
          (mkPipeline (cancel p) (sentence_queue p) q (full_response p),
           mkPlay (AtChecks item) (played t))
      end
  | AtChecks None => (p, mkPlay Returned (played t))
  | AtChecks (Some audio_data) =>
      if cancel p then (p, mkPlay Returned (played t))
      else
        match audio_data with
        | AudioStr s =>
            if startswith ROUTE_PREFIX s then (p, mkPlay Returned (played t))
            else (p, mkPlay AtWhile (played t))
        | AudioBytes data =>
            if str_eqb data SKIP then (p, mkPlay AtWhile (played t))
            else (p, mkPlay (AtPlay data) (played t))
        end
  | AtPlay data => (p, mkPlay AtWhile (played t ++ [data]))
  | Returned => (p, t)
  end.

(** What can happen next in a run: the playback thread takes a step, the
    hotkey listener calls [interrupt], or a producer puts an item on a
    queue. *)
Inductive action : Type :=
| PlayStep
| Interrupt
| PutSentence (x : option str)
| PutAudio (x : option audio_item).

Definition perform (a : action) (c : StreamingPipeline * play_thread)
  : StreamingPipeline * play_thread :=
  let (p, t) := c in
  match a with
  | PlayStep => play_step p t
  | Interrupt => (interrupt p, t)
  | PutSentence x => (put_sentence x p, t)
  | PutAudio x => (put_audio x p, t)
  end.

(** A schedule is run from left to right. *)
Fixpoint execute (schedule : list action) (c : StreamingPipeline * play_thread)
  : StreamingPipeline * play_thread :=
  match schedule with
  | [] => c
  | a :: rest => execute rest (perform a c)
  end.

Definition in_flight (t : play_thread) : bool :=
  match pc t with AtPlay _ => true | _ => false end.

(* ================================================================== *)
(** * Vocabulary of the properties *)
(* ================================================================== *)

(** A word as [str.split] produces it: not empty, no whitespace inside. *)
Definition plain_word (w : str) : Prop :=
  w <> [] /\ Forall (fun c => isspace c = false) w.

(** The turns of a sequence of user/assistant exchanges. *)
Definition turns_of (pairs : list (str * str)) : list Turn :=
  flat_map (fun ua => [user_turn (fst ua); assistant_turn (snd ua)]) pairs.

(** [add_user] then [add_assistant] for each exchange, in order. *)
Definition add_pairs (m : ConversationMemory) (pairs : list (str * str))
  : ConversationMemory :=
  fold_left (fun m ua => add_assistant (snd ua) (add_user (fst ua) m)) pairs m.

Definition within_bound (m : ConversationMemory) : Prop :=
  (len (turns m) <= 2 * max_turns m)%Z.

(** The state a run starts from: [cancel.clear()], an empty response and
    two new queues. *)
Definition fresh : StreamingPipeline := mkPipeline false [] [] [].

Definition exit_pipeline (r : loop_exit) : StreamingPipeline :=
  match r with
  | LoopReturn p => p
  | LoopEnd p _ => p
  | LoopRaise p _ => p
  end.

(** No provider of the fallback chain has a credential: its [apiKeyEnv] is
    absent, or the variable it names is unset or empty. *)
Definition no_credentials (file : option ProvidersFile) (environ : str -> str)
  : Prop :=
  match file with
  | None => True
  | Some data =>
      forall id e,
        In id (fallback_ids data) ->
        provider_by_id (providers data) id = Some e ->
        entry_apiKeyEnv e = [] \/ environ (entry_apiKeyEnv e) = []
  end.

Definition REPLY : str := lit "[ROUTE:deal-scanner] find me a laundromat".
Definition AGENT : str := lit "deal-scanner".
Definition QUERY : str := lit "find me a laundromat".

(** The marker [[ROUTE:deal-scanner]] is complete once this many characters
    of [REPLY] have arrived. *)
Definition MARKER_END : nat := 20.

(** Token fragments as lines of the local endpoint, none of them final. *)
Definition as_lines (tokens : list str) : list ollama_line :=
  map (fun token => OMessage token false) tokens.

(** The buffer when it first holds at least [n] characters: [buf] extended
    by the fragments one at a time. *)
Fixpoint first_reaching (n : nat) (buf : str) (tokens : list str) : str :=
  match tokens with
  | [] => buf
  | token :: rest =>
      if n <=? List.length (buf ++ token) then buf ++ token
      else first_reaching n (buf ++ token) rest
  end.

(** What [_process_token_buffer] leaves when it finds the route in
    [token_buffer], a prefix of [REPLY] that holds the marker. *)
Definition route_found (p : StreamingPipeline) (token_buffer : str)
  : StreamingPipeline :=
  let refined_query := str_strip (skipn MARKER_END token_buffer) in
  put_sentence None
    (put_sentence (Some (route_sentinel AGENT refined_query))
       (set_full_response (lit "[ROUTE:" ++ AGENT ++ lit "] " ++ refined_query)
          p)).

(** The facts about a prefix of [REPLY] of length [n] that the proof needs,
    as one test: before the marker is complete there is no match and at
    most one sentence; from then on the match gives the agent and the text
    that follows the marker. *)
Definition prefix_behaves (n : nat) : bool :=
  let b := firstn n REPLY in
  if n <? MARKER_END then
    match match_route_ws b with
    | None => negb (1 <? List.length (split_into_sentences (format_for_speech b)))
    | Some _ => false
    end
  else
    match match_route_ws b with
    | Some (agent_id, rest) =>
        str_eqb agent_id AGENT
        && str_eqb (str_strip rest) (str_strip (skipn MARKER_END b))
    | None => false
    end.

(** The loop of an attempt in the spec's words for a reply past the window,
    "treated as ordinary text": sentences are segmented and emitted, no
    route is looked for.  It is compared below with the loop of the
    source. *)
Fixpoint ollama_text_only (p : StreamingPipeline) (token_buffer : str)
    (lines : list ollama_line) (ending : option httpx_error) : loop_exit :=
  match lines with
  | [] =>
      match ending with
      | Some e => LoopRaise p e
      | None => LoopEnd p token_buffer
      end
  | line :: rest =>
      if cancel p then LoopReturn p
      else
        match line with
        | OBlank | OMalformed => ollama_text_only p token_buffer rest ending
        | OMessage token done =>
            if negb (nonempty token) then
              if done then LoopEnd p token_buffer
              else ollama_text_only p token_buffer rest ending
            else
              let (p, token_buffer) :=
                _emit_sentences p (token_buffer ++ token) in
              if done then LoopEnd p token_buffer
              else ollama_text_only p token_buffer rest ending
        end
  end.

Fixpoint cloud_text_only (p : StreamingPipeline) (token_buffer : str)
    (lines : list cloud_line) (ending : option httpx_error) : loop_exit :=
  match lines with
  | [] =>
      match ending with
      | Some e => LoopRaise p e
      | None => LoopEnd p token_buffer
      end
  | line :: rest =>
      if cancel p then LoopReturn p
      else
        match line with
        | CBlank | CMalformed | CNoChoices =>
            cloud_text_only p token_buffer rest ending
        | CDone => LoopEnd p token_buffer
        | CDelta token finish_reason =>
            if negb (nonempty token) then
              if finish_reason then LoopEnd p token_buffer
              else cloud_text_only p token_buffer rest ending
            else
              let (p, token_buffer) :=
                _emit_sentences p (token_buffer ++ token) in
              cloud_text_only p token_buffer rest ending
        end
  end.

(** The opening of a reply: 58 characters without a marker. *)
Definition LONG_OPENING : str :=
  lit "Sure, I can help you with that request right away, sir. Ok".

Definition GROQ : Provider :=
  mkProvider (lit "groq") (lit "Groq") (lit "https://api.groq.com/openai/v1")
    (lit "key") (lit "openai") (lit "llama-3.3-70b-versatile").

(* ================================================================== *)
(** * The synthesis thread *)
(* ================================================================== *)

Section Synthesis.

(** [self.tts_enabled], and what [_synthesize_one] returns for a sentence:
    the audio bytes, or [None] when both engines fail. *)
Variable tts_enabled : bool.
Variable _synthesize_one : str -> option str.

(** What one sentence that is not the routing sentinel makes the thread
    put on the audio queue: the skip marker without TTS, the audio when the
    engine returns some, nothing when it fails or returns no bytes. *)
Definition synthesized (sentence : str) : list (option audio_item) :=
  if negb tts_enabled then [Some (AudioBytes SKIP)]
  else
    match _synthesize_one sentence with
    | Some audio_data =>
        if nonempty audio_data then [Some (AudioBytes audio_data)] else []
    | None => []
    end.

Definition put_audio_all (items : list (option audio_item))
    (p : StreamingPipeline) : StreamingPipeline :=
  mkPipeline (cancel p) (sentence_queue p) (audio_queue p ++ items)
    (full_response p).

(** One pass through the [while not self.cancel.is_set()] loop of
    [_synthesize_sentences], taken as one step: the flag is read once.
    [returned] tells whether the thread has returned; a pass on an empty
    queue is the [get] that times out. *)
Definition synthesize_turn (p : StreamingPipeline) (returned : bool)
  : StreamingPipeline * bool :=
  if returned then (p, true)
  else if cancel p then (put_audio None p, true)
  else
    match sentence_queue p with
    | [] => (p, false)
    | item :: rest =>
        let p := mkPipeline (cancel p) rest (audio_queue p) (full_response p) in
        match item with
        | None => (put_audio None p, true)
        | Some sentence =>
            if startswith ROUTE_PREFIX sentence
            then (put_audio None (put_audio (Some (AudioStr sentence)) p), true)
            else (put_audio_all (synthesized sentence) p, false)
        end
    end.

(** The three threads of a run that is not interrupted: thread 1 emits an
    item, the synthesis thread makes a pass, the playback thread takes a
    step. *)
Inductive stage_action : Type :=
| Emit (item : option str)
| SynthTurn
| PlayTurn.

Record stages : Type := mkStages {
  pipeline : StreamingPipeline;
  synth_returned : bool;
  player : play_thread
}.

Definition stage_step (a : stage_action) (s : stages) : stages :=
  match a with
  | Emit item =>
      mkStages (put_sentence item (pipeline s)) (synth_returned s) (player s)
  | SynthTurn =>
      let (p, returned) := synthesize_turn (pipeline s) (synth_returned s) in
      mkStages p returned (player s)
  | PlayTurn =>
      let (p, t) := play_step (pipeline s) (player s) in
      mkStages p (synth_returned s) t
  end.

Fixpoint run_stages (schedule : list stage_action) (s : stages) : stages :=
  match schedule with
  | [] => s
  | a :: rest => run_stages rest (stage_step a s)
  end.

(** The items thread 1 emits in a schedule, in order. *)
Fixpoint emitted (schedule : list stage_action) : list (option str) :=
  match schedule with
  | [] => []
  | Emit item :: rest => item :: emitted rest
  | _ :: rest => emitted rest
  end.

(** What a listener hears of one sentence: its audio, unless there is none
    or it is the skip marker. *)
Definition heard (sentence : str) : list str :=
  if negb tts_enabled then []
  else
    match _synthesize_one sentence with
    | Some audio_data =>
        if nonempty audio_data && negb (str_eqb audio_data SKIP)
        then [audio_data] else []
    | None => []
    end.

(** What is to be heard of the emitted items: the audio of the sentences,
    in order, up to the end-of-stream marker or the routing sentinel. *)
Fixpoint to_be_heard (items : list (option str)) : list str :=
  match items with
  | [] => []
  | None :: _ => []
  | Some sentence :: rest =>
      if startswith ROUTE_PREFIX sentence then []
      else heard sentence ++ to_be_heard rest
  end.

End Synthesis.

(* ================================================================== *)
(** * Voice-activity capture *)
(* ================================================================== *)

Section Capture.

(** A frame of samples; [read i] is what the [i]-th [stream.read] returns,
    [is_speech] is [_is_speech(frame, self.vad)], and [stopped i] tells
    whether, at iteration [i], [self.running] is false or the cancel event
    is set.  [max_frames] and [silence_limit] are the two bounds computed
    from the configuration. *)
Variable frame : Type.
Variable read : nat -> frame.
Variable is_speech : frame -> bool.
Variable stopped : nat -> bool.
Variable max_frames silence_limit : nat.

(** The [for _ in range(max_frames)] loop with [n] iterations left at
    iteration [i].  [None] is the [return None] inside the loop; otherwise
    the result is [frames] and [speech_detected] when the loop is left. *)
Fixpoint capture_loop (n i : nat) (frames : list frame) (silent_frames : nat)
    (speech_detected : bool) : option (list frame * bool) :=
  match n with
  | O => Some (frames, speech_detected)
  | S n' =>
      if stopped i then None
      else
        let f := read i in
        if is_speech f then capture_loop n' (S i) (frames ++ [f]) 0 true
        else if speech_detected then
          let silent_frames := S silent_frames in
          let frames := frames ++ [f] in
          if silence_limit <=? silent_frames then Some (frames, speech_detected)
          else capture_loop n' (S i) frames silent_frames speech_detected
        else capture_loop n' (S i) frames silent_frames speech_detected
  end.

(** [listen_for_speech] when the microphone raises no error, before the
    frames are concatenated. *)
Definition captured_frames : option (list frame) :=
  match capture_loop max_frames 0 [] 0 false with
  | None => None
  | Some (frames, speech_detected) =>
      if negb speech_detected || (List.length frames <? 5) then None
      else Some frames
  end.

End Capture.

(** [listen_for_speech]: the frames are arrays of samples and the result is
    [np.concatenate(frames)]. *)
Definition listen_for_speech (read : nat -> list Z)
    (is_speech : list Z -> bool) (stopped : nat -> bool)
    (max_frames silence_limit : nat) : option (list Z) :=
  option_map (@List.concat Z)
    (captured_frames read is_speech stopped max_frames silence_limit).

(* ================================================================== *)
(** * The environment file *)
(* ================================================================== *)

(** [os.environ]: the value of each variable that is set. *)
Definition environment := str -> option str.

(** [os.environ[key] = value] *)
Definition setenv (key value : str) (env : environment) : environment :=
  fun k => if str_eqb k key then Some value else env k.

(** [line.partition("=")] for a line that contains ["="]: what is before
    the first ["="] and what is after it. *)
Fixpoint partition_eq (line : str) : str * str :=
  match line with
  | [] => ([], [])
  | c :: rest =>
      if Ascii.eqb c "="%char then ([], rest)
      else let (key, value) := partition_eq rest in (c :: key, value)
  end.

(** The body of the [for line in ...splitlines()] loop. *)
Definition load_env_line (line : str) (env : environment) : environment :=
  let line := str_strip line in
  if negb (nonempty line) || startswith (lit "#") line then env
  else if char_in "="%char line then
    let (key, value) := partition_eq line in
    let key := str_strip key in
    let value := str_strip value in
    if nonempty key && nonempty value
       && match env key with Some _ => false | None => true end
    then setenv key value env
    else env
  else env.

(** [load_env_file]; [file] is [None] when [~/.jarvis/.env] does not exist,
    otherwise its lines. *)
Definition load_env_file (file : option (list str)) (env : environment)
  : environment :=
  match file with
  | None => env
  | Some lines => fold_left (fun env line => load_env_line line env) lines env
  end.

(* ================================================================== *)
(** * Voice commands *)
(* ================================================================== *)

(** [needle in haystack] for strings. *)
Fixpoint contains (needle haystack : str) : bool :=
  startswith needle haystack
  || match haystack with
     | [] => false
     | _ :: rest => contains needle rest
     end.

(** The defaults of [conversation.voiceCommands]. *)
Definition DEFAULT_CMD_CLEAR : list str :=
  map lit ["new conversation"; "start over"; "clear history"; "reset"]%string.

Definition DEFAULT_CMD_FORGET : list str :=
  map lit ["forget that"; "undo that"; "never mind"; "scratch that"]%string.

Section VoiceCommands.

Variable VOICE_CMD_CLEAR VOICE_CMD_FORGET : list str.

Definition _check_voice_command (text : str) : option str :=
  let text_lower := str_strip (str_lower text) in
  if existsb (fun phrase => contains phrase text_lower) VOICE_CMD_CLEAR
  then Some (lit "clear")
  else if existsb (fun phrase => contains phrase text_lower) VOICE_CMD_FORGET
  then Some (lit "forget")
  else if contains (lit "what did i just ask") text_lower
          || contains (lit "what did i say") text_lower
  then Some (lit "repeat_user")
  else if contains (lit "say that again") text_lower
          || contains (lit "repeat that") text_lower
  then Some (lit "repeat_assistant")
  else None.

End VoiceCommands.

(** [for turn in reversed(self.memory.turns): if turn["role"] == r: ...]:
    the content of the most recent turn of role [r]. *)
Definition last_content (r : str) (ts : list Turn) : option str :=
  option_map content (find (fun t => str_eqb (role t) r) (rev ts)).

(** [_handle_voice_command]: the memory it leaves and the phrase handed to
    [speak_simple], if any. *)
Definition _handle_voice_command (command : str) (m : ConversationMemory)
  : ConversationMemory * option str :=
  if str_eqb command (lit "clear") then
    (clear m, Some (lit "Starting fresh. What's on your mind?"))
  else if str_eqb command (lit "forget") then
    (forget_last m, Some (lit "Done. That exchange is forgotten."))
  else if str_eqb command (lit "repeat_user") then
    match last_content (lit "user") (turns m) with
    | Some c => (m, Some (lit "You asked: " ++ c))
    | None => (m, Some (lit "I don't have any previous questions."))
    end
  else if str_eqb command (lit "repeat_assistant") then
    match last_content (lit "assistant") (turns m) with
    | Some c => (m, Some c)
    | None => (m, Some (lit "I haven't said anything yet."))
    end
  else (m, None).

(* ================================================================== *)
(** * Vocabulary of the ordering property *)
(* ================================================================== *)

Section Streams.

Variable tts_enabled : bool.
Variable _synthesize_one : str -> option str.

(** An emitted item after which the synthesis thread returns. *)
Definition closes_sentences (item : option str) : bool :=
  match item with
  | None => true
  | Some sentence => startswith ROUTE_PREFIX sentence
  end.

(** An audio item at which the playback thread returns. *)
Definition closes_audio (item : option audio_item) : bool :=
  match item with
  | None => true
  | Some (AudioStr s) => startswith ROUTE_PREFIX s
  | Some (AudioBytes _) => false
  end.

(** Everything the synthesis thread puts on the audio queue when it reads
    [items] from the start. *)
Fixpoint audio_stream (items : list (option str)) : list (option audio_item) :=
  match items with
  | [] => []
  | None :: _ => [None]
  | Some sentence :: rest =>
      if startswith ROUTE_PREFIX sentence
      then [Some (AudioStr sentence); None]
      else synthesized tts_enabled _synthesize_one sentence ++ audio_stream rest
  end.

(** Everything the playback thread plays when it reads [items] from the
    start. *)
Fixpoint playable (items : list (option audio_item)) : list str :=
  match items with
  | [] => []
  | None :: _ => []
  | Some (AudioStr s) :: rest =>
      if startswith ROUTE_PREFIX s then [] else playable rest
  | Some (AudioBytes data) :: rest =>
      if str_eqb data SKIP then playable rest else data :: playable rest
  end.

(** The audio item the playback thread holds at a control point. *)
Definition in_hand (k : play_pc) : list (option audio_item) :=
  match k with
  | AtChecks item => [item]
  | AtPlay data => [Some (AudioBytes data)]
  | _ => []
  end.

Definition has_returned (k : play_pc) : bool :=
  match k with Returned => true | _ => false end.

(** The three threads agree with the items [history] emitted so far: the
    synthesis thread has read [read_b] of them, the playback thread is
    done with [read_c] of the audio made from those. *)
Definition stages_agree (history : list (option str)) (s : stages) : Prop :=
  cancel (pipeline s) = false
  /\ exists read_b read_c,
       history = read_b ++ sentence_queue (pipeline s)
       /\ synth_returned s = existsb closes_sentences read_b
       /\ audio_stream read_b
          = read_c ++ in_hand (pc (player s)) ++ audio_queue (pipeline s)
       /\ played (player s) = playable read_c
       /\ existsb closes_audio read_c = has_returned (pc (player s))
       /\ (forall data, pc (player s) = AtPlay data -> str_eqb data SKIP = false).

(** The state of the threads when a run starts. *)
Definition stages_start : stages :=
  mkStages fresh false (mkPlay AtWhile []).

End Streams.

Section CaptureVocabulary.

Variable frame : Type.
Variable read : nat -> frame.
Variable is_speech : frame -> bool.
Variable silence_limit : nat.

(** The frames of the stream from index [start] up to [stop], excluded. *)
Definition stream_between (start stop : nat) : list frame :=
  map read (seq start (stop - start)).

(** No frame of the stream from [from] up to [to], excluded, is speech. *)
Definition silent_between (from to : nat) : Prop :=
  forall j, from <= j < to -> is_speech (read j) = false.

(** What the loop of [listen_for_speech] has built when it is about to
    read frame [i]: nothing before the first speech frame; from then on
    the frames since that one, the last [silent_frames] of them silence
    that follows a speech frame and is still short of the limit. *)
Definition capture_invariant (i : nat) (frames : list frame)
    (silent_frames : nat) (speech_detected : bool) : Prop :=
  if speech_detected then
    exists start,
      start < i
      /\ frames = stream_between start i
      /\ is_speech (read start) = true
      /\ silent_between 0 start
      /\ silent_frames < i - start
      /\ silent_between (i - silent_frames) i
      /\ is_speech (read (i - silent_frames - 1)) = true
      /\ (silent_frames = 0 \/ silent_frames < silence_limit)
  else frames = [] /\ silent_between 0 i.

(** An utterance cut out of the stream: it starts at the first speech
    frame and stops either at [max_frames] or right after a silence of
    [max 1 silence_limit] frames that follows a speech frame. *)
Definition utterance (max_frames : nat) (frames : list frame) : Prop :=
  exists start stop,
    frames = stream_between start stop
    /\ start < stop <= max_frames
    /\ is_speech (read start) = true
    /\ silent_between 0 start
    /\ (stop = max_frames
        \/ (Nat.max 1 silence_limit < stop - start
            /\ silent_between (stop - Nat.max 1 silence_limit) stop
            /\ is_speech (read (stop - Nat.max 1 silence_limit - 1)) = true)).

End CaptureVocabulary.

(** [p'] is [p] after thread 1 has emitted the sentences [sents], none of
    them empty, and then, if [closed], the end-of-stream marker; nothing
    else but the response has changed. *)
Definition emits (p p' : StreamingPipeline) (sents : list str) (closed : bool)
  : Prop :=
  cancel p' = cancel p
  /\ audio_queue p' = audio_queue p
  /\ sentence_queue p'
     = sentence_queue p ++ map Some sents ++ (if closed then [None] else [])
  /\ Forall (fun sentence => sentence <> []) sents.

(** How a loop exit relates to what was emitted: a [return] inside the
    loop of a run that is not cancelled is a route, which closes the
    channel; the other exits leave it open. *)
Definition exit_emits (p : StreamingPipeline) (r : loop_exit) : Prop :=
  exists out,
    match r with
    | LoopReturn p' => emits p p' out true
    | LoopEnd p' _ => emits p p' out false
    | LoopRaise p' _ => emits p p' out false
    end.

(** The decision [split_into_sentences] takes at a word, given the words
    that follow it: whether a sentence ends there. *)
Definition is_boundary (word : str) (rest : list str) : bool :=
  ends_sentence word
  && negb (in_abbreviations (str_lower (str_rstrip_chars (lit ".!?") word)))
  && negb (last_char_is "."%char word && next_starts_with_digit rest)
  && negb (last_char_is "."%char word
           && str_isdigit
                (str_replace (lit ".") []
                   (str_replace (lit ",") []
                      (str_lower (str_rstrip_chars (lit ".!?") word))))).

(** No word of the group but the last ends a sentence, given the word that
    follows it in the group. *)
Fixpoint quiet (group : list str) : bool :=
  match group with
  | word :: ((next :: _) as rest) => negb (is_boundary word [next]) && quiet rest
  | _ => true
  end.

(** No two whitespace characters stand next to each other. *)
Fixpoint single_spaced (s : str) : bool :=
  match s with
  | a :: ((b :: _) as rest) => negb (isspace a && isspace b) && single_spaced rest
  | _ => true
  end.

(** The text the response gains when [sents] are emitted by
    [_emit_sentences]: each sentence followed by a space. *)
Definition spoken_text (sents : list str) : str :=
  flat_map (fun sentence => sentence ++ lit " ") sents.

(** From [p] to [p'] the sentences [out] were emitted and recorded. *)
Definition says (p p' : StreamingPipeline) (out : list str) : Prop :=
  sentence_queue p' = sentence_queue p ++ map Some out
  /\ full_response p' = full_response p ++ spoken_text out
  /\ cancel p' = cancel p.

(** From [p] to [p'] a route was detected, after the sentences [before]:
    the channel ends with the sentinel and the end-of-stream marker, and
    the response is the marker alone. *)
Definition routed (p p' : StreamingPipeline) : Prop :=
  exists before agent_id refined_query,
    sentence_queue p'
    = sentence_queue p ++ map Some before
      ++ [Some (route_sentinel agent_id refined_query); None]
    /\ full_response p'
       = lit "[ROUTE:" ++ agent_id ++ lit "] " ++ refined_query.

(** From [p] to [p'] a stream was read to its end: the sentences [out],
    then what was left in the buffer ([tail], at most one text), then the
    end-of-stream marker; the response is all of it in order. *)
Definition finished (p p' : StreamingPipeline) (out tail : list str) : Prop :=
  sentence_queue p' = sentence_queue p ++ map Some (out ++ tail) ++ [None]
  /\ full_response p' = full_response p ++ spoken_text out ++ List.concat tail
  /\ List.length tail <= 1.

Definition exit_says (p : StreamingPipeline) (r : loop_exit) : Prop :=
  match r with
  | LoopReturn p' => routed p p'
  | LoopEnd p' _ => exists out, says p p' out
  | LoopRaise p' _ => exists out, says p p' out
  end.

(** What an attempt that returns [ok] has done. *)
Definition attempt_says (p p' : StreamingPipeline) (ok : bool) : Prop :=
  if ok then routed p p' \/ exists out tail, finished p p' out tail
  else exists out, says p p' out.

(* ================================================================== *)
(** * Push-to-talk *)
(* ================================================================== *)

Inductive State : Type := IDLE | RECORDING | PROCESSING | SPEAKING.

(** The fields of [JarvisVoice] that the hotkey handler reads or writes:
    the state, the push-to-talk event and the pipeline. *)
Record JarvisVoice : Type := mkJarvis {
  state : State;
  _ptt_event : bool;
  voice_pipeline : StreamingPipeline
}.

(** [_on_ptt_pressed]; [sd.stop()] acts on the audio device only. *)
Definition _on_ptt_pressed (j : JarvisVoice) : JarvisVoice :=
  match state j with
  | SPEAKING => mkJarvis (state j) true (interrupt (voice_pipeline j))
  | IDLE => mkJarvis (state j) true (voice_pipeline j)
  | _ => j
  end.

(* ================================================================== *)
(** * Properties of the string primitives *)
(* ================================================================== *)

Lemma lstrip_nil_iff (s : str) :
  str_lstrip s = [] <-> forallb isspace s = true.
Proof.
  induction s as [|c s IH]; simpl.
  - tauto.
  - destruct (isspace c); simpl; [exact IH|].
    split; discriminate.
Qed.

Lemma forallb_isspace_rev (s : str) :
  forallb isspace (rev s) = true -> forallb isspace s = true.
Proof.
  rewrite !forallb_forall. intros H c Hc. apply H. now apply in_rev in Hc.
Qed.

Lemma lstrip_suffix (s : str) :
  exists pre, s = pre ++ str_lstrip s /\ forallb isspace pre = true.
Proof.
  induction s as [|c s [pre [E F]]]; simpl.
  - now exists [].
  - destruct (isspace c) eqn:Hc.
    + exists (c :: pre). simpl. rewrite Hc, F. now rewrite <- E.
    + now exists [].
Qed.

Lemma strip_nil_iff (s : str) :
  str_strip s = [] <-> forallb isspace s = true.
Proof.
  unfold str_strip, str_rstrip. split.
  - intros H.
    assert (H1 : str_lstrip (rev (str_lstrip s)) = []).
    { destruct (str_lstrip (rev (str_lstrip s))); [reflexivity|].
      apply (f_equal (@List.length _)) in H.
      rewrite length_rev in H. discriminate. }
    apply lstrip_nil_iff, forallb_isspace_rev in H1.
    destruct (lstrip_suffix s) as [pre [E F]].
    rewrite E, forallb_app, F, H1. reflexivity.
  - intros H. apply lstrip_nil_iff in H. rewrite H. reflexivity.
Qed.

Lemma split_from_whitespace (s : str) :
  forallb isspace s = true -> split_from [] s = [].
Proof.
  induction s as [|c s IH]; simpl; [reflexivity|].
  destruct (isspace c); simpl; [exact IH | discriminate].
Qed.

Lemma split_from_words (s cur : str) :
  Forall (fun c => isspace c = false) cur ->
  Forall plain_word (split_from cur s).
Proof.
  revert cur. induction s as [|c s IH]; intros cur Hcur; simpl.
  - destruct cur; constructor; [|constructor].
    split; [discriminate | assumption].
  - destruct (isspace c) eqn:Hc.
    + destruct cur.
      * apply IH. constructor.
      * constructor; [split; [discriminate | assumption]|].
        apply IH. constructor.
    + apply IH. apply Forall_app. split; [assumption|].
      constructor; [assumption | constructor].
Qed.

Lemma split_words (s : str) : Forall plain_word (str_split s).
Proof. apply split_from_words. constructor. Qed.

Lemma split_from_nonempty (s cur : str) :
  cur <> [] -> split_from cur s <> [].
Proof.
  revert cur. induction s as [|c s IH]; intros cur Hcur; simpl.
  - destruct cur; [contradiction | discriminate].
  - destruct (isspace c).
    + destruct cur; [contradiction | discriminate].
    + apply IH. destruct cur; discriminate.
Qed.

Lemma split_nil_iff (s : str) :
  str_split s = [] <-> forallb isspace s = true.
Proof.
  split; [|apply split_from_whitespace].
  unfold str_split. induction s as [|c s IH]; simpl; [reflexivity|].
  destruct (isspace c) eqn:Hc; simpl; [exact IH|].
  intros H. exfalso. revert H. apply split_from_nonempty. discriminate.
Qed.

Lemma join_cons (sep w : str) (ws : list str) :
  ws <> [] -> str_join sep (w :: ws) = w ++ sep ++ str_join sep ws.
Proof. destruct ws; [contradiction | reflexivity]. Qed.

Lemma join_app (sep : str) (l1 l2 : list str) :
  l1 <> [] -> l2 <> [] ->
  str_join sep (l1 ++ l2) = str_join sep l1 ++ sep ++ str_join sep l2.
Proof.
  intros H1 H2. induction l1 as [|w l1 IH]; [contradiction|].
  destruct l1 as [|w' l1].
  - simpl app. now rewrite join_cons.
  - change ((w :: w' :: l1) ++ l2) with (w :: ((w' :: l1) ++ l2)).
    rewrite join_cons by discriminate.
    rewrite IH by discriminate.
    rewrite (join_cons sep w (ws := w' :: l1)) by discriminate.
    now rewrite <- !app_assoc.
Qed.

Lemma join_snoc (sep w : str) (ws : list str) :
  ws <> [] -> str_join sep (ws ++ [w]) = str_join sep ws ++ sep ++ w.
Proof. intros H. now rewrite join_app by (assumption || discriminate). Qed.

Lemma lstrip_word_prefix (w s : str) :
  plain_word w -> str_lstrip (w ++ s) = w ++ s.
Proof.
  intros [Hne Hw]. destruct w as [|c w]; [contradiction|].
  inversion Hw as [|? ? Hc _]; subst. simpl. now rewrite Hc.
Qed.

Lemma rstrip_word_suffix (w s : str) :
  plain_word w -> str_rstrip (s ++ w) = s ++ w.
Proof.
  intros [Hne Hw]. unfold str_rstrip.
  destruct (exists_last Hne) as [w' [c E]]. subst w.
  apply Forall_app in Hw. destruct Hw as [_ Hc].
  inversion Hc as [|? ? Hc' _]; subst.
  rewrite app_assoc, rev_app_distr. simpl. rewrite Hc'.
  change (c :: rev (s ++ w')) with (rev [c] ++ rev (s ++ w')).
  now rewrite <- rev_app_distr, rev_involutive.
Qed.

(** A non-empty list of words joined by spaces starts and ends with a
    character of a word, so [strip] leaves it as it is. *)
Lemma strip_join_words (ws : list str) :
  ws <> [] -> Forall plain_word ws ->
  str_strip (str_join (lit " ") ws) = str_join (lit " ") ws
  /\ str_join (lit " ") ws <> [].
Proof.
  intros Hne Hws. unfold str_strip.
  assert (Hl : str_lstrip (str_join (lit " ") ws) = str_join (lit " ") ws).
  { destruct ws as [|w ws]; [contradiction|].
    inversion Hws; subst.
    destruct ws.
    - simpl. rewrite <- (app_nil_r w). now apply lstrip_word_prefix.
    - rewrite join_cons by discriminate. now apply lstrip_word_prefix. }
  rewrite Hl.
  destruct (exists_last Hne) as [ws' [w E]]. subst ws.
  apply Forall_app in Hws. destruct Hws as [_ Hw].
  inversion Hw as [|? ? Hw' _]; subst.
  destruct ws' as [|w0 ws'].
  - simpl. split.
    + change w with ([] ++ w). now apply rstrip_word_suffix.
    + apply Hw'.
  - rewrite join_snoc by discriminate. split.
    + rewrite app_assoc. now apply rstrip_word_suffix.
    + destruct Hw' as [Hne' _]. intros E.
      apply app_eq_nil in E. destruct E as [_ E].
      apply app_eq_nil in E. destruct E as [E _]. discriminate.
Qed.

(* ================================================================== *)
(** * The sentence splitter *)
(* ================================================================== *)

Lemma close_sentence_words (sentences current : list str) :
  current <> [] -> Forall plain_word current ->
  close_sentence sentences current
  = sentences ++ [str_join (lit " ") current].
Proof.
  intros Hne Hws. unfold close_sentence.
  destruct (strip_join_words Hne Hws) as [E N]. rewrite E.
  destruct (str_join (lit " ") current); [contradiction | reflexivity].
Qed.

(** The loop cuts [current ++ words] into non-empty groups of consecutive
    words and appends one sentence per group. *)
Lemma scan_words_groups (words sentences current : list str) :
  Forall plain_word words -> Forall plain_word current ->
  exists groups,
    scan_words words sentences current
    = sentences ++ map (str_join (lit " ")) groups
    /\ List.concat groups = current ++ words
    /\ Forall (fun g => g <> []) groups.
Proof.
  revert sentences current.
  induction words as [|word rest IH]; intros sentences current Hws Hcur.
  - simpl. destruct current as [|w current].
    + exists []. simpl. now rewrite app_nil_r.
    + exists [w :: current]. simpl nonempty. cbv iota.
      rewrite close_sentence_words by (assumption || discriminate).
      simpl. rewrite !app_nil_r. repeat split.
      constructor; [discriminate | constructor].
  - inversion Hws as [|? ? Hw Hrest]; subst.
    assert (Hcur' : Forall plain_word (current ++ [word])).
    { apply Forall_app. split; [assumption|]. now constructor. }
    assert (Keep : exists groups,
               scan_words rest sentences (current ++ [word])
               = sentences ++ map (str_join (lit " ")) groups
               /\ List.concat groups = current ++ word :: rest
               /\ Forall (fun g => g <> []) groups).
    { destruct (IH sentences (current ++ [word]) Hrest Hcur')
        as [groups [E [C N]]].
      exists groups. rewrite <- app_assoc in C. now repeat split. }
    assert (Cut : exists groups,
               scan_words rest (close_sentence sentences (current ++ [word])) []
               = sentences ++ map (str_join (lit " ")) groups
               /\ List.concat groups = current ++ word :: rest
               /\ Forall (fun g => g <> []) groups).
    { destruct (IH (close_sentence sentences (current ++ [word])) []
                  Hrest (Forall_nil _)) as [groups [E [C N]]].
      exists ((current ++ [word]) :: groups).
      rewrite E, close_sentence_words
        by (assumption || (destruct current; discriminate)).
      simpl in C. simpl. rewrite C, <- !app_assoc. repeat split.
      constructor; [destruct current; discriminate | assumption]. }
    simpl.
    destruct (ends_sentence word); [|exact Keep].
    destruct (in_abbreviations _); [exact Keep|].
    destruct (last_char_is "." word && next_starts_with_digit rest);
      [exact Keep|].
    destruct (last_char_is "." word && str_isdigit _); [exact Keep|].
    exact Cut.
Qed.

Lemma join_groups (groups : list (list str)) :
  Forall (fun g => g <> []) groups ->
  str_join (lit " ") (map (str_join (lit " ")) groups)
  = str_join (lit " ") (List.concat groups).
Proof.
  induction 1 as [|g groups Hg Hgs IH]; [reflexivity|].
  destruct groups as [|g' groups].
  - simpl. now rewrite app_nil_r.
  - change (map (str_join (lit " ")) (g :: g' :: groups))
      with (str_join (lit " ") g :: map (str_join (lit " ")) (g' :: groups)).
    rewrite join_cons by discriminate. rewrite IH.
    change (List.concat (g :: g' :: groups)) with (g ++ List.concat (g' :: groups)).
    rewrite join_app; [reflexivity | assumption |].
    inversion Hgs; subst. simpl. destruct g'; [contradiction | discriminate].
Qed.

(** C1 (as the code behaves): the token [12.] is a number followed by a
    period, which the numeric guard does not treat as a boundary, so the
    text stays one sentence. *)
Theorem split_total_is_12_one_sentence :
  split_into_sentences (lit "The total is 12. It increased.")
  = [lit "The total is 12. It increased."].
Proof. vm_compute. reflexivity. Qed.

(** C1 as stated fails: the splitter does not return the two sentences
    [The total is 12.] and [It increased.] for this input. *)
Lemma split_total_is_12_not_two_sentences :
  split_into_sentences (lit "The total is 12. It increased.")
  <> [lit "The total is 12."; lit "It increased."].
Proof. vm_compute. discriminate. Qed.

(** C9: [Dr. Smith arrived at 3.5pm. He left.] is split into exactly the two
    sentences [Dr. Smith arrived at 3.5pm.] and [He left.]: neither the
    abbreviation nor the token with a decimal point ends a sentence early. *)
Theorem split_dr_smith :
  split_into_sentences (lit "Dr. Smith arrived at 3.5pm. He left.")
  = [lit "Dr. Smith arrived at 3.5pm."; lit "He left."].
Proof. vm_compute. reflexivity. Qed.

(** C10: for every input the splitter returns no empty sentence, the
    sentences joined by single spaces are the whitespace-normalized input
    [" ".join(text.split())], and the result is the empty list exactly when
    the input is empty or all whitespace. *)
Theorem split_into_sentences_keeps_text (text : str) :
  Forall (fun sentence => sentence <> []) (split_into_sentences text)
  /\ str_join (lit " ") (split_into_sentences text)
     = str_join (lit " ") (str_split text)
  /\ (split_into_sentences text = [] <-> forallb isspace text = true).
Proof.
  unfold split_into_sentences.
  destruct (nonempty (str_strip text)) eqn:Hs; simpl negb; cbv iota.
  - destruct (scan_words_groups [] (split_words text) (Forall_nil _))
      as [groups [E [C N]]].
    simpl in E, C. rewrite E.
    assert (W : Forall (fun g => g <> [] /\ Forall plain_word g) groups).
    { assert (A : Forall plain_word (List.concat groups))
        by (rewrite C; apply split_words).
      clear - A N. induction N as [|g groups Hg _ IH]; constructor.
      - simpl in A. apply Forall_app in A. tauto.
      - apply IH. simpl in A. apply Forall_app in A. tauto. }
    split; [|split].
    + apply Forall_map. eapply Forall_impl; [|exact W].
      intros g [Hne Hg]. now apply strip_join_words.
    + now rewrite join_groups, C.
    + split.
      * intros Hnil. apply split_nil_iff. rewrite <- C.
        destruct groups; [reflexivity | discriminate].
      * intros Hsp. apply strip_nil_iff in Hsp. rewrite Hsp in Hs.
        discriminate.
  - assert (Hsp : forallb isspace text = true).
    { apply strip_nil_iff. destruct (str_strip text); [reflexivity|discriminate]. }
    split; [constructor | split].
    + apply split_nil_iff in Hsp. now rewrite Hsp.
    + tauto.
Qed.

(* ================================================================== *)
(** * The conversation memory *)
(* ================================================================== *)

Lemma max_turns_trim (m : ConversationMemory) :
  max_turns (_trim m) = max_turns m.
Proof. unfold _trim. now destruct (len (turns m) >? max_turns m * 2)%Z. Qed.

(** With a positive [max_turns], [_trim] keeps the last [2 * max_turns]
    turns. *)
Lemma trim_positive (m : ConversationMemory) :
  (0 < max_turns m)%Z ->
  turns (_trim m)
  = skipn (List.length (turns m) - 2 * Z.to_nat (max_turns m)) (turns m).
Proof.
  intros Hpos. unfold _trim, slice_from, len.
  destruct (Z.gtb_spec (Z.of_nat (List.length (turns m))) (max_turns m * 2)) as [H|H];
    simpl turns.
  - destruct (Z.ltb_spec (- (max_turns m * 2)) 0) as [_|H']; [|lia].
    f_equal. lia.
  - replace (List.length (turns m) - 2 * Z.to_nat (max_turns m)) with 0 by lia.
    reflexivity.
Qed.

Lemma trim_within_bound (m : ConversationMemory) :
  (0 < max_turns m)%Z -> within_bound (_trim m).
Proof.
  intros Hpos. unfold within_bound, len.
  rewrite trim_positive, max_turns_trim, length_skipn by assumption. lia.
Qed.

Lemma length_pop (ts : list Turn) : List.length (pop ts) <= List.length ts.
Proof.
  unfold pop. destruct ts as [|t ts]; [simpl; lia|].
  destruct (exists_last (l := t :: ts)) as [ts' [t' E]]; [discriminate|].
  rewrite E, removelast_last, length_app. simpl. lia.
Qed.

Lemma forget_last_shrinks (m : ConversationMemory) :
  List.length (turns (forget_last m)) <= List.length (turns m).
Proof.
  unfold forget_last. cbn [turns].
  destruct (last_role_is (lit "assistant") (turns m)).
  - pose proof (length_pop (turns m)).
    destruct (last_role_is (lit "user") (pop (turns m))); [|lia].
    pose proof (length_pop (pop (turns m))). lia.
  - destruct (last_role_is (lit "user") (turns m)); [apply length_pop | lia].
Qed.

(** For a positive [max_turns] every mutation keeps the memory within
    [2 * max_turns] turns. *)
Lemma within_bound_preserved (m : ConversationMemory) (text : str) :
  (0 < max_turns m)%Z -> within_bound m ->
  within_bound (add_user text m) /\ within_bound (add_assistant text m)
  /\ within_bound (clear m) /\ within_bound (forget_last m).
Proof.
  intros Hpos Hm. repeat split.
  - now apply trim_within_bound.
  - now apply trim_within_bound.
  - unfold within_bound, len, clear. cbn [turns max_turns List.length].
    unfold within_bound in Hm. lia.
  - unfold within_bound, len in *.
    pose proof (forget_last_shrinks m).
    change (max_turns (forget_last m)) with (max_turns m). lia.
Qed.

Lemma turns_of_app (ps qs : list (str * str)) :
  turns_of (ps ++ qs) = turns_of ps ++ turns_of qs.
Proof. apply flat_map_app. Qed.

Lemma length_turns_of (ps : list (str * str)) :
  List.length (turns_of ps) = 2 * List.length ps.
Proof. induction ps as [|ua ps IH]; simpl; lia. Qed.

Lemma append_trim_positive (mx : Z) (ts : list Turn) (t : Turn) :
  (0 < mx)%Z ->
  _trim (append_turn t (mkMemory mx ts))
  = mkMemory mx (skipn (List.length ts + 1 - 2 * Z.to_nat mx) (ts ++ [t])).
Proof.
  intros Hpos.
  pose proof (trim_positive (append_turn t (mkMemory mx ts)) Hpos) as E.
  pose proof (max_turns_trim (append_turn t (mkMemory mx ts))) as M.
  destruct (_trim (append_turn t (mkMemory mx ts))) as [mx' ts'].
  cbn [turns max_turns append_turn] in E, M.
  rewrite length_app in E. cbn [List.length] in E. now subst.
Qed.

(** One exchange added to a memory that holds whole exchanges: the oldest
    exchange leaves when the memory is full. *)
Lemma add_pair_turns (mx : Z) (ps : list (str * str)) (u a : str) :
  (0 < mx)%Z -> (Z.of_nat (List.length ps) <= mx)%Z ->
  add_assistant a (add_user u (mkMemory mx (turns_of ps)))
  = mkMemory mx
      (turns_of (skipn (S (List.length ps) - Z.to_nat mx) (ps ++ [(u, a)]))).
Proof.
  intros Hpos Hlen.
  unfold add_assistant, add_user.
  rewrite append_trim_positive by assumption.
  rewrite append_trim_positive by assumption.
  f_equal.
  rewrite length_skipn, length_app, length_turns_of. cbn [List.length].
  destruct (Z.eq_dec (Z.of_nat (List.length ps)) mx) as [E|N].
  - destruct ps as [|[u0 a0] ps]; [simpl in E; lia|].
    cbn [List.length] in *.
    replace (S (S (List.length ps)) - Z.to_nat mx) with 1 by lia.
    replace (2 * S (List.length ps) + 1 - 2 * Z.to_nat mx) with 1 by lia.
    replace (2 * S (List.length ps) + 1 - 1 + 1 - 2 * Z.to_nat mx) with 1
      by lia.
    cbn. rewrite turns_of_app, <- app_assoc. reflexivity.
  - replace (S (List.length ps) - Z.to_nat mx) with 0 by lia.
    replace (2 * List.length ps + 1 - 2 * Z.to_nat mx) with 0 by lia.
    replace (2 * List.length ps + 1 - 0 + 1 - 2 * Z.to_nat mx) with 0 by lia.
    cbn [skipn]. rewrite turns_of_app, <- app_assoc. reflexivity.
Qed.

(** From a memory of whole exchanges, adding exchanges leaves the last
    [max_turns] of them. *)
Lemma add_pairs_keeps_last (mx : Z) (ps qs : list (str * str)) :
  (0 < mx)%Z -> (Z.of_nat (List.length qs) <= mx)%Z ->
  add_pairs (mkMemory mx (turns_of qs)) ps
  = mkMemory mx
      (turns_of (skipn (List.length (qs ++ ps) - Z.to_nat mx) (qs ++ ps))).
Proof.
  intros Hpos. revert qs.
  induction ps as [|[u a] ps IH]; intros qs Hlen.
  - cbn [add_pairs fold_left]. rewrite app_nil_r.
    replace (List.length qs - Z.to_nat mx) with 0 by lia. reflexivity.
  - cbn [add_pairs fold_left fst snd].
    rewrite add_pair_turns by assumption.
    fold (add_pairs
            (mkMemory mx
               (turns_of
                  (skipn (S (List.length qs) - Z.to_nat mx) (qs ++ [(u, a)]))))
            ps).
    assert (Hk : S (List.length qs) - Z.to_nat mx
                 <= List.length (qs ++ [(u, a)]))
      by (rewrite length_app; cbn [List.length]; lia).
    rewrite IH
      by (rewrite length_skipn, length_app; cbn [List.length]; lia).
    f_equal. f_equal.
    replace (qs ++ (u, a) :: ps) with ((qs ++ [(u, a)]) ++ ps)
      by now rewrite <- app_assoc.
    set (l := qs ++ [(u, a)]) in *.
    set (k := S (List.length qs) - Z.to_nat mx) in *.
    assert (E : skipn k l ++ ps = skipn k (l ++ ps)).
    { rewrite skipn_app. replace (k - List.length l) with 0 by lia.
      reflexivity. }
    rewrite E, skipn_skipn. f_equal.
    rewrite length_skipn, !length_app.
    assert (List.length l = S (List.length qs))
      by (unfold l; rewrite length_app; cbn [List.length]; lia).
    lia.
Qed.

(** For a positive [max_turns]: after [max_turns] exchanges and one more,
    the memory holds the exchanges but the first, that is [2 * max_turns]
    turns. *)
Lemma full_memory_evicts_oldest_pair (mx : Z) (first : str * str)
    (others : list (str * str)) :
  (0 < mx)%Z -> Z.of_nat (List.length others) = mx ->
  add_pairs (mkMemory mx []) (first :: others) = mkMemory mx (turns_of others)
  /\ len (turns_of others) = (2 * mx)%Z.
Proof.
  intros Hpos Hlen. split.
  - change (@nil Turn) with (turns_of []).
    rewrite add_pairs_keeps_last by (simpl; lia).
    cbn [app List.length].
    replace (S (List.length others) - Z.to_nat mx) with 1 by lia.
    reflexivity.
  - unfold len. rewrite length_turns_of. lia.
Qed.

Lemma trim_zero (ts : list Turn) : _trim (mkMemory 0 ts) = mkMemory 0 ts.
Proof.
  unfold _trim, slice_from. cbn [max_turns turns].
  destruct (len ts >? 0 * 2)%Z; [|reflexivity].
  change (- (0 * 2) <? 0)%Z with false. cbv iota.
  assert (E : Z.to_nat (Z.min (- (0 * 2)) (len ts)) = 0) by (unfold len; lia).
  now rewrite E.
Qed.

(** C3 at [max_turns = 0]: after zero exchanges and one more the memory
    should hold no turn, but [turns[-0:]] is the whole list and the exchange
    stays. *)
Theorem zero_max_turns_keeps_the_pair (u a : str) :
  add_pairs (mkMemory 0 []) [(u, a)]
  = mkMemory 0 [user_turn u; assistant_turn a].
Proof.
  cbn [add_pairs fold_left fst snd]. unfold add_assistant, add_user.
  unfold append_turn at 2. cbn [turns max_turns app]. rewrite trim_zero.
  unfold append_turn. cbn [turns max_turns app]. now rewrite trim_zero.
Qed.

(** C8 at [max_turns = 0]: the empty memory is within the bound and
    [add_user] takes it out of the bound. *)
Theorem zero_max_turns_breaks_bound (text : str) :
  within_bound (mkMemory 0 [])
  /\ ~ within_bound (add_user text (mkMemory 0 [])).
Proof.
  split.
  - unfold within_bound, len. simpl. lia.
  - unfold add_user, append_turn. cbn [turns max_turns app].
    rewrite trim_zero. unfold within_bound, len. simpl. lia.
Qed.

(** C6: [forget_last] makes two independent tests in order, first for a
    trailing assistant turn, then for a trailing user turn.
    A trailing user/assistant exchange is removed whole; a trailing user
    turn alone is removed and nothing else; a trailing assistant turn not
    preceded by a user turn is removed and nothing else; a trailing turn of
    another role and the empty history are left as they are. *)
Theorem forget_last_two_checks (mx : Z) (ts : list Turn) (x y : str) :
  let forget l := turns (forget_last (mkMemory mx l)) in
  forget (ts ++ [user_turn x; assistant_turn y]) = ts
  /\ forget (ts ++ [user_turn x]) = ts
  /\ forget (ts ++ [assistant_turn x; assistant_turn y])
     = ts ++ [assistant_turn x]
  /\ forget [assistant_turn y] = []
  /\ forget (ts ++ [mkTurn (lit "system") x]) = ts ++ [mkTurn (lit "system") x]
  /\ forget [] = [].
Proof.
  assert (Last : forall r l t, last_role_is r (l ++ [t]) = str_eqb (role t) r).
  { intros r l t. unfold last_role_is. now rewrite rev_app_distr. }
  assert (Pop : forall l t, pop (l ++ [t]) = l).
  { intros l t. apply removelast_last. }
  cbv zeta. unfold forget_last. cbn [turns].
  repeat split.
  - replace (ts ++ [user_turn x; assistant_turn y])
      with ((ts ++ [user_turn x]) ++ [assistant_turn y])
      by now rewrite <- app_assoc.
    rewrite Last. cbn [role assistant_turn].
    change (str_eqb (lit "assistant") (lit "assistant")) with true. cbv iota.
    rewrite Pop, Last. cbn [role user_turn].
    change (str_eqb (lit "user") (lit "user")) with true. cbv iota.
    apply Pop.
  - rewrite Last. cbn [role user_turn].
    change (str_eqb (lit "user") (lit "assistant")) with false. cbv iota.
    rewrite Last. cbn [role user_turn].
    change (str_eqb (lit "user") (lit "user")) with true. cbv iota.
    apply Pop.
  - replace (ts ++ [assistant_turn x; assistant_turn y])
      with ((ts ++ [assistant_turn x]) ++ [assistant_turn y])
      by now rewrite <- app_assoc.
    rewrite Last. cbn [role assistant_turn].
    change (str_eqb (lit "assistant") (lit "assistant")) with true. cbv iota.
    rewrite Pop, Last. cbn [role assistant_turn].
    change (str_eqb (lit "assistant") (lit "user")) with false. reflexivity.
  - rewrite !Last. cbn [role].
    change (str_eqb (lit "system") (lit "assistant")) with false. cbv iota.
    rewrite Last. reflexivity.
Qed.

(* ================================================================== *)
(** * The streaming pipeline *)
(* ================================================================== *)

(** ** Thread 1 never touches the cancellation flag *)

Section CancelUntouched.

Variable W : Z.

Lemma cancel_process (p : StreamingPipeline) (buf : str) (rcd : bool) :
  cancel (fst (_process_token_buffer W p buf rcd)) = cancel p.
Proof.
  unfold _process_token_buffer.
  destruct rcd; [reflexivity|].
  destruct (len buf >? W + 50)%Z; [reflexivity|].
  destruct (match_route_ws buf) as [[agent_id rest]|]; reflexivity.
Qed.

Lemma cancel_emit_all (sents : list str) (p : StreamingPipeline) :
  cancel (emit_all p sents) = cancel p.
Proof.
  revert p. induction sents as [|sent sents IH]; intros p; simpl.
  - reflexivity.
  - destruct (nonempty (str_strip sent) && negb (cancel p));
      rewrite IH; reflexivity.
Qed.

Lemma cancel_emit (p : StreamingPipeline) (buf : str) :
  cancel (fst (_emit_sentences p buf)) = cancel p.
Proof.
  unfold _emit_sentences.
  destruct (1 <? List.length (split_into_sentences (format_for_speech buf)));
    [apply cancel_emit_all | reflexivity].
Qed.

Lemma cancel_flush (p : StreamingPipeline) (buf : str) :
  cancel (_flush_buffer p buf) = cancel p.
Proof.
  unfold _flush_buffer.
  destruct (nonempty (str_strip buf) && negb (cancel p)); [|reflexivity].
  destruct (nonempty (format_for_speech buf)); reflexivity.
Qed.

Lemma cancel_ollama_loop (lines : list ollama_line)
    (ending : option httpx_error) (p : StreamingPipeline) (buf : str)
    (rcd : bool) :
  cancel (exit_pipeline (ollama_loop W p buf rcd lines ending)) = cancel p.
Proof.
  revert p buf rcd.
  induction lines as [|line rest IH]; intros p buf rcd; simpl.
  - destruct ending; reflexivity.
  - destruct (cancel p) eqn:Hc; [exact Hc|].
    destruct line as [| |token done]; try (rewrite IH; exact Hc).
    destruct (nonempty token); simpl negb; cbv iota.
    + pose proof (cancel_process p (buf ++ token) rcd) as Hp.
      destruct (_process_token_buffer W p (buf ++ token) rcd) as [p1 found].
      simpl in Hp. destruct found; [simpl; congruence|].
      pose proof (cancel_emit p1 (buf ++ token)) as He.
      destruct (_emit_sentences p1 (buf ++ token)) as [p2 buf2].
      simpl in He. destruct done; [simpl | rewrite IH]; congruence.
    + destruct done; [exact Hc | rewrite IH; exact Hc].
Qed.

Lemma cancel_try_ollama (p : StreamingPipeline) (resp : response ollama_line) :
  cancel (fst (_try_ollama_stream W p resp)) = cancel p.
Proof.
  unfold _try_ollama_stream.
  destruct resp as [e|status_ok lines ending]; [reflexivity|].
  destruct status_ok; [|reflexivity].
  pose proof (cancel_ollama_loop lines ending p [] false) as H.
  destruct (ollama_loop W p [] false lines ending); simpl in *;
    try assumption.
  unfold put_sentence. simpl. now rewrite cancel_flush.
Qed.

End CancelUntouched.

(** ** The fallback chain without credentials *)

Lemma build_chain_no_credentials (data : ProvidersFile) (environ : str -> str)
    (ids : list str) :
  (forall id e,
      In id ids -> provider_by_id (providers data) id = Some e ->
      entry_apiKeyEnv e = [] \/ environ (entry_apiKeyEnv e) = []) ->
  build_chain data environ ids = [].
Proof.
  induction ids as [|id ids IH]; intros H; simpl; [reflexivity|].
  assert (IH' : build_chain data environ ids = [])
    by (apply IH; intros id' e' Hin; apply H; now right).
  destruct (provider_by_id (providers data) id) as [e|] eqn:Hf; [|exact IH'].
  destruct (H id e (or_introl eq_refl) Hf) as [E|E].
  - rewrite E. simpl. exact IH'.
  - destruct (nonempty (entry_apiKeyEnv e)); [rewrite E|]; simpl; exact IH'.
Qed.

Lemma load_no_credentials (file : option ProvidersFile) (environ : str -> str) :
  no_credentials file environ -> load_llm_providers file environ = [].
Proof.
  destruct file as [data|]; [|reflexivity].
  intros H. now apply build_chain_no_credentials.
Qed.

(** ** Exhausted providers *)

(** C2: when no provider of the fallback chain holds a credential the chain
    is empty; if then the attempt on the local provider fails, thread 1
    adds to what that attempt had emitted exactly the apology followed by
    the end-of-stream marker, the response of the run is the error marker,
    and the turn leaves in memory the user's turn only.  After a failure to
    connect (the request itself raises [e]) the sentences channel carries
    the apology and the end-of-stream marker and nothing else. *)
Theorem exhausted_providers_apologize
    (W : Z) (file : option ProvidersFile) (environ : str -> str)
    (ollama : response ollama_line) (cloud : Provider -> response cloud_line)
    (send_to_agent : str -> str -> option str)
    (m : ConversationMemory) (p : StreamingPipeline) (text : str)
    (e : httpx_error) :
  no_credentials file environ ->
  snd (_try_ollama_stream W fresh ollama) = false ->
  let chain := load_llm_providers file environ in
  let attempt := fst (_try_ollama_stream W fresh ollama) in
  let after := fst (run W chain ollama cloud p) in
  chain = []
  /\ sentence_queue after = sentence_queue attempt ++ [Some APOLOGY; None]
  /\ full_response after = ALL_UNREACHABLE
  /\ snd (run W chain ollama cloud p) = ALL_UNREACHABLE
  /\ startswith (lit "[error:") ALL_UNREACHABLE = true
  /\ sentence_queue (fst (run W chain (RequestRaises e) cloud p))
     = [Some APOLOGY; None]
  /\ _handle_turn W chain ollama cloud send_to_agent m p text
     = (add_user text m, after).
Proof.
  intros Hcred Hfail. cbv zeta.
  rewrite (load_no_credentials _ _ Hcred).
  assert (Hrun : run W [] ollama cloud p
                 = (put_sentence None
                      (set_full_response ALL_UNREACHABLE
                         (put_sentence (Some APOLOGY)
                            (fst (_try_ollama_stream W fresh ollama)))),
                    ALL_UNREACHABLE)).
  { unfold run, _stream_from_ollama. fold fresh.
    pose proof (cancel_try_ollama W fresh ollama) as Hc.
    destruct (_try_ollama_stream W fresh ollama) as [p1 ok].
    simpl in Hfail, Hc. subst ok. cbn [nonempty andb fst].
    rewrite Hc. reflexivity. }
  repeat split.
  - rewrite Hrun. cbn [fst put_sentence set_full_response sentence_queue].
    now rewrite <- app_assoc.
  - rewrite Hrun. reflexivity.
  - rewrite Hrun. reflexivity.
  - unfold _handle_turn. rewrite Hrun. reflexivity.
Qed.

Lemma exhausted_providers_apologize_witness :
  let file :=
    Some (mkProvidersFile
            [mkEntry (lit "groq") (lit "Groq") (lit "https://api.groq.com")
               (lit "GROQ_API_KEY") None [lit "llama"]]
            None []) in
  let ollama : response ollama_line := RequestRaises ConnectError in
  let cloud : Provider -> response cloud_line :=
    fun _ => RequestRaises ConnectError in
  let after := fst (run 50 (load_llm_providers file (fun _ => [])) ollama cloud fresh) in
  sentence_queue after = [Some APOLOGY; None]
  /\ full_response after = ALL_UNREACHABLE
  /\ _handle_turn 50 (load_llm_providers file (fun _ => [])) ollama cloud
       (fun _ _ => None) (mkMemory 20 []) fresh (lit "hello")
     = (mkMemory 20 [user_turn (lit "hello")], after).
Proof.
  cbv zeta.
  destruct (@exhausted_providers_apologize 50
              (Some (mkProvidersFile
                       [mkEntry (lit "groq") (lit "Groq")
                          (lit "https://api.groq.com")
                          (lit "GROQ_API_KEY") None [lit "llama"]]
                       None []))
              (fun _ => []) (RequestRaises ConnectError)
              (fun _ => RequestRaises ConnectError) (fun _ _ => None)
              (mkMemory 20 []) fresh (lit "hello") ConnectError)
    as [_ [Hq [Hr [_ [_ [_ Ht]]]]]].
  - intros id entry _ _. right. reflexivity.
  - reflexivity.
  - split; [exact Hq | split; [exact Hr | exact Ht]].
Defined.

(** ** Cancellation *)

Lemma drain_nil {A : Type} (q : list A) : drain q = [].
Proof. induction q; [reflexivity | assumption]. Qed.

Lemma interrupt_state (p : StreamingPipeline) :
  interrupt p = mkPipeline true [None] [None] (full_response p).
Proof.
  unfold interrupt, put_audio, put_sentence. simpl. now rewrite !drain_nil.
Qed.

Lemma cancel_play_step (p : StreamingPipeline) (t : play_thread) :
  cancel (fst (play_step p t)) = cancel p.
Proof.
  destruct p as [c sq aq fr]. unfold play_step. cbn [cancel audio_queue].
  destruct (pc t) as [| |[[data|s]|]|data|]; try reflexivity.
  - destruct c; reflexivity.
  - destruct aq; reflexivity.
  - destruct c; [reflexivity|].
    destruct (str_eqb data SKIP); reflexivity.
  - destruct c; [reflexivity|].
    destruct (startswith ROUTE_PREFIX s); reflexivity.
Qed.

Lemma cancel_perform (a : action) (p : StreamingPipeline) (t : play_thread) :
  cancel p = true -> cancel (fst (perform a (p, t))) = true.
Proof.
  intros Hc. destruct a; cbn [perform fst].
  - now rewrite cancel_play_step.
  - now rewrite interrupt_state.
  - exact Hc.
  - exact Hc.
Qed.

(** With the flag set, a step of the playback thread that is not in the
    middle of playing a buffer plays nothing and does not start to play. *)
Lemma play_step_cancelled (p : StreamingPipeline) (t : play_thread) :
  cancel p = true -> in_flight t = false ->
  played (snd (play_step p t)) = played t
  /\ in_flight (snd (play_step p t)) = false.
Proof.
  destruct t as [k pl]. unfold play_step, in_flight. cbn [pc played].
  intros Hc Hf.
  destruct k as [| |[[data|s]|]|data|]; rewrite ?Hc;
    try discriminate; try (split; reflexivity).
  destruct (audio_queue p); split; reflexivity.
Qed.

Lemma execute_cancelled (schedule : list action) (p : StreamingPipeline)
    (t : play_thread) :
  cancel p = true -> in_flight t = false ->
  played (snd (execute schedule (p, t))) = played t.
Proof.
  revert p t.
  induction schedule as [|a rest IH]; intros p t Hc Hf; [reflexivity|].
  cbn [execute].
  pose proof (cancel_perform a p t Hc) as Hc'.
  assert (Hs : played (snd (perform a (p, t))) = played t
               /\ in_flight (snd (perform a (p, t))) = false).
  { destruct a; cbn [perform snd];
      try (split; [reflexivity | assumption]).
    now apply play_step_cancelled. }
  destruct (perform a (p, t)) as [p' t']. simpl in Hc', Hs.
  destruct Hs as [Hp Hf']. rewrite IH by assumption. exact Hp.
Qed.

(** A buffer that had passed the tests before the flag was set may still be
    handed to the device; nothing after it is. *)
Lemma execute_cancelled_in_flight (schedule : list action)
    (p : StreamingPipeline) (t : play_thread) (data : str) :
  cancel p = true -> pc t = AtPlay data ->
  played (snd (execute schedule (p, t))) = played t
  \/ played (snd (execute schedule (p, t))) = played t ++ [data].
Proof.
  revert p t.
  induction schedule as [|a rest IH]; intros p t Hc Hpc; [now left|].
  cbn [execute].
  pose proof (cancel_perform a p t Hc) as Hc'.
  destruct a; cbn [perform] in *;
    try (apply IH; [rewrite ?interrupt_state; assumption || reflexivity
                   | assumption]).
  unfold play_step in *. rewrite Hpc in *. right.
  now rewrite execute_cancelled.
Qed.

(** C5: after [interrupt] the flag is set and each queue holds the
    end-of-stream marker only; a second [interrupt] changes nothing; and
    from then on, whatever is queued or put later and however the threads
    interleave, the playback thread hands no further buffer to the device,
    unless it was already past its tests and playing one. *)
Theorem interrupt_silences_playback (schedule : list action)
    (p : StreamingPipeline) (t : play_thread) :
  in_flight t = false ->
  played (snd (execute schedule (interrupt p, t))) = played t
  /\ interrupt (interrupt p) = interrupt p
  /\ cancel (interrupt p) = true
  /\ sentence_queue (interrupt p) = [None]
  /\ audio_queue (interrupt p) = [None].
Proof.
  intros Hf. split; [|rewrite !interrupt_state; repeat split].
  apply execute_cancelled; [|assumption].
  now rewrite interrupt_state.
Qed.

Lemma interrupt_silences_playback_witness :
  let p := mkPipeline false [Some (lit "Next sentence.")]
             [Some (AudioBytes (lit "pcm-1")); Some (AudioBytes (lit "pcm-2"))]
             (lit "First. ") in
  let t := mkPlay AtGet [lit "pcm-0"] in
  played (snd (execute
                 [PlayStep; PutAudio (Some (AudioBytes (lit "pcm-3")));
                  PlayStep; PlayStep; Interrupt; PlayStep; PlayStep]
                 (interrupt p, t)))
  = [lit "pcm-0"].
Proof.
  cbv zeta.
  refine (proj1 (@interrupt_silences_playback _ _ _ _)).
  reflexivity.
Defined.

(** ** Route detection on a streamed reply *)

Lemma prefixes_behave : forallb prefix_behaves (seq 0 42) = true.
Proof. vm_compute. reflexivity. Qed.

Lemma str_eqb_eq (a b : str) : str_eqb a b = true -> a = b.
Proof. unfold str_eqb. destruct (list_eq_dec ascii_dec a b); congruence. Qed.

Lemma prefix_of_reply (buf rest : str) :
  buf ++ rest = REPLY ->
  buf = firstn (List.length buf) REPLY /\ List.length buf <= 41.
Proof.
  intros E. split.
  - rewrite <- E, firstn_app, Nat.sub_diag, firstn_all. simpl.
    now rewrite app_nil_r.
  - apply (f_equal (@List.length _)) in E. rewrite length_app in E.
    change (List.length REPLY) with 41 in E. lia.
Qed.

Lemma prefix_behaves_at (buf rest : str) :
  buf ++ rest = REPLY -> prefix_behaves (List.length buf) = true.
Proof.
  intros E. destruct (prefix_of_reply _ _ E) as [_ Hle].
  pose proof prefixes_behave as T. rewrite forallb_forall in T.
  apply T, in_seq. lia.
Qed.

(** Before the marker is complete a fragment changes nothing but the
    buffer. *)
Lemma short_prefix_step (p : StreamingPipeline) (buf rest : str) :
  buf ++ rest = REPLY -> List.length buf < MARKER_END ->
  _process_token_buffer 50 p buf false = (p, false)
  /\ update_route_check 50 buf false = false
  /\ _emit_sentences p buf = (p, buf).
Proof.
  intros E Hlt.
  pose proof (prefix_behaves_at _ _ E) as B.
  destruct (prefix_of_reply _ _ E) as [Hb Hle].
  unfold prefix_behaves in B. rewrite <- Hb in B.
  apply Nat.ltb_lt in Hlt. rewrite Hlt in B. apply Nat.ltb_lt in Hlt.
  unfold MARKER_END in Hlt.
  destruct (match_route_ws buf) eqn:M; [discriminate|].
  repeat split.
  - unfold _process_token_buffer. rewrite M.
    destruct (Z.gtb_spec (len buf) (50 + 50)) as [H|H]; [|reflexivity].
    unfold len in H. lia.
  - unfold update_route_check.
    destruct (Z.gtb_spec (len buf) 50) as [H|H]; [|reflexivity].
    unfold len in H. lia.
  - unfold _emit_sentences.
    destruct (1 <? List.length
                     (split_into_sentences (format_for_speech buf)));
      [discriminate | reflexivity].
Qed.

(** Once the marker is complete the route is found. *)
Lemma marker_prefix_step (p : StreamingPipeline) (buf rest : str) :
  buf ++ rest = REPLY -> MARKER_END <= List.length buf ->
  _process_token_buffer 50 p buf false = (route_found p buf, true).
Proof.
  intros E Hge.
  pose proof (prefix_behaves_at _ _ E) as B.
  destruct (prefix_of_reply _ _ E) as [Hb Hle].
  unfold prefix_behaves in B. rewrite <- Hb in B.
  destruct (Nat.ltb_spec (List.length buf) MARKER_END) as [H|_]; [lia|].
  unfold _process_token_buffer.
  destruct (Z.gtb_spec (len buf) (50 + 50)) as [H|_];
    [unfold len in H; lia|].
  destruct (match_route_ws buf) as [[agent_id rest']|]; [|discriminate].
  apply andb_prop in B. destruct B as [Ba Br].
  apply str_eqb_eq in Ba, Br. subst agent_id. rewrite Br. reflexivity.
Qed.

Lemma reply_route_loop (rest : list ollama_line) (ending : option httpx_error)
    (tokens : list str) (p : StreamingPipeline) (buf : str) :
  cancel p = false ->
  buf ++ List.concat tokens = REPLY -> List.length buf < MARKER_END ->
  ollama_loop 50 p buf false (as_lines tokens ++ rest) ending
  = LoopReturn (route_found p (first_reaching MARKER_END buf tokens)).
Proof.
  intros Hc. revert buf.
  induction tokens as [|token tokens IH]; intros buf E Hlt.
  - simpl in E. rewrite app_nil_r in E. subst buf.
    unfold MARKER_END in Hlt. change (List.length REPLY) with 41 in Hlt. lia.
  - cbn [as_lines map app ollama_loop first_reaching]. rewrite Hc.
    cbn [List.concat] in E. rewrite app_assoc in E.
    destruct token as [|c token].
    + cbn [nonempty negb]. rewrite app_nil_r in *.
      destruct (Nat.leb_spec MARKER_END (List.length buf)) as [H|_]; [lia|].
      now apply IH.
    + cbn [nonempty negb].
      destruct (Nat.leb_spec MARKER_END (List.length (buf ++ c :: token)))
        as [Hge|Hlt'].
      * now rewrite (marker_prefix_step p _ _ E Hge).
      * destruct (short_prefix_step p _ _ E Hlt') as [P [U S]].
        rewrite P, U, S. now apply IH.
Qed.

(** C4 (as the code behaves): however the reply
    [[ROUTE:deal-scanner] find me a laundromat] is cut into fragments, the
    route is detected at the fragment that completes the marker: the agent
    is [deal-scanner], the refined query is what has arrived after the
    marker by then, stripped; the sentences channel receives the routing
    sentinel and the end-of-stream marker and no sentence before them; the
    lines that follow are not read.  When the reply arrives in one fragment
    the refined query is [find me a laundromat]. *)
Theorem streamed_route_reply (tokens : list str) (rest : list ollama_line)
    (ending : option httpx_error) (done : bool) :
  List.concat tokens = REPLY ->
  let refined_query :=
    str_strip (skipn MARKER_END (first_reaching MARKER_END [] tokens)) in
  _try_ollama_stream 50 fresh (Streams true (as_lines tokens ++ rest) ending)
  = (mkPipeline false [Some (route_sentinel AGENT refined_query); None] []
       (lit "[ROUTE:" ++ AGENT ++ lit "] " ++ refined_query),
     true)
  /\ _try_ollama_stream 50 fresh (Streams true (OMessage REPLY done :: rest) ending)
     = (mkPipeline false [Some (route_sentinel AGENT QUERY); None] [] REPLY,
        true)
  /\ match_route_ws REPLY = Some (AGENT, QUERY).
Proof.
  intros E. cbv zeta. split; [|split].
  - unfold _try_ollama_stream.
    rewrite (@reply_route_loop rest ending tokens fresh []);
      [reflexivity | reflexivity | exact E | unfold MARKER_END; simpl; lia].
  - unfold _try_ollama_stream.
    cbn [ollama_loop fresh cancel]. change (nonempty REPLY) with true.
    cbn [negb app].
    rewrite (@marker_prefix_step _ REPLY []);
      [reflexivity | apply app_nil_r | unfold MARKER_END; simpl; lia].
  - vm_compute. reflexivity.
Qed.

Lemma streamed_route_reply_witness :
  _try_ollama_stream 50 fresh
    (Streams true
       (as_lines [lit "[ROUTE:deal"; lit "-scanner] find"; lit " me a laundromat"]
        ++ [OMessage (lit " Goodbye.") true])
       None)
  = (mkPipeline false [Some (route_sentinel AGENT (lit "find")); None] []
       (lit "[ROUTE:deal-scanner] find"),
     true).
Proof.
  refine (proj1 (@streamed_route_reply
                   [lit "[ROUTE:deal"; lit "-scanner] find"; lit " me a laundromat"]
                   [OMessage (lit " Goodbye.") true] None false _)).
  reflexivity.
Defined.

(** C4 as stated fails: when the marker and the query arrive in two
    fragments the route is detected at the first one and the sentinel
    carries an empty refined query, not [find me a laundromat]. *)
Lemma split_reply_loses_refined_query :
  let tokens := [lit "[ROUTE:deal-scanner]"; lit " find me a laundromat"] in
  List.concat tokens = REPLY
  /\ sentence_queue
       (fst (_try_ollama_stream 50 fresh (Streams true (as_lines tokens) None)))
     = [Some (route_sentinel AGENT []); None]
  /\ route_sentinel AGENT [] <> route_sentinel AGENT QUERY.
Proof.
  cbv zeta. split; [reflexivity | split].
  - vm_compute. reflexivity.
  - vm_compute. discriminate.
Qed.

(** ** The route-detection window *)

Section RouteWindow.

Variable W : Z.

Lemma process_when_done (p : StreamingPipeline) (buf : str) :
  _process_token_buffer W p buf true = (p, false).
Proof. reflexivity. Qed.

Lemma process_past_margin (p : StreamingPipeline) (buf : str) (rcd : bool) :
  (len buf > W + 50)%Z -> _process_token_buffer W p buf rcd = (p, false).
Proof.
  intros H. unfold _process_token_buffer. destruct rcd; [reflexivity|].
  destruct (Z.gtb_spec (len buf) (W + 50)) as [_|H']; [reflexivity | lia].
Qed.

(** A call that finds no route leaves the pipeline as it was. *)
Lemma process_no_match (p : StreamingPipeline) (buf : str) (rcd : bool) :
  snd (_process_token_buffer W p buf rcd) = false ->
  _process_token_buffer W p buf rcd = (p, false).
Proof.
  unfold _process_token_buffer. destruct rcd; [reflexivity|].
  destruct (len buf >? W + 50)%Z; [reflexivity|].
  destruct (match_route_ws buf) as [[agent_id rest]|];
    [discriminate | reflexivity].
Qed.

Lemma update_when_done (buf : str) : update_route_check W buf true = true.
Proof. reflexivity. Qed.

Lemma update_past_window (buf : str) (rcd : bool) :
  (len buf > W)%Z -> update_route_check W buf rcd = true.
Proof.
  intros H. unfold update_route_check. destruct rcd; [reflexivity|].
  destruct (Z.gtb_spec (len buf) W) as [_|H']; [reflexivity | lia].
Qed.

(** Once [route_check_done] is set it stays set and the loop only segments
    sentences. *)
Lemma ollama_loop_done (lines : list ollama_line)
    (ending : option httpx_error) (p : StreamingPipeline) (buf : str) :
  ollama_loop W p buf true lines ending = ollama_text_only p buf lines ending.
Proof.
  revert p buf. induction lines as [|line rest IH]; intros p buf.
  - reflexivity.
  - cbn [ollama_loop ollama_text_only].
    destruct (cancel p); [reflexivity|].
    destruct line as [| |token done]; try apply IH.
    destruct (nonempty token); cbn [negb].
    + rewrite process_when_done, update_when_done.
      destruct (_emit_sentences p (buf ++ token)) as [p' buf'].
      destruct done; [reflexivity | apply IH].
    + destruct done; [reflexivity | apply IH].
Qed.

Lemma cloud_loop_done (lines : list cloud_line)
    (ending : option httpx_error) (p : StreamingPipeline) (buf : str) :
  cloud_loop W p buf true lines ending = cloud_text_only p buf lines ending.
Proof.
  revert p buf. induction lines as [|line rest IH]; intros p buf.
  - reflexivity.
  - cbn [cloud_loop cloud_text_only].
    destruct (cancel p); [reflexivity|].
    destruct line as [| | | |token fin]; try apply IH; try reflexivity.
    destruct (nonempty token); cbn [negb].
    + rewrite process_when_done, update_when_done.
      destruct (_emit_sentences p (buf ++ token)) as [p' buf'].
      apply IH.
    + destruct fin; [reflexivity | apply IH].
Qed.

End RouteWindow.

(** C7 (as the code behaves): the route is looked for only while
    [route_check_done] is unset and the buffer holds at most
    [ROUTE_DETECTION_CHARS + 50] characters.  When a fragment leaves the
    buffer longer than [ROUTE_DETECTION_CHARS] and no route is found, the
    flag is set, and from this fragment to the end of this provider's
    stream the loop, for the local and for a cloud provider alike, is the
    one that only segments sentences: a marker in later text of the stream
    is emitted as sentence text, never as a routing sentinel. *)
Theorem route_detection_window (W : Z) (p : StreamingPipeline)
    (buf token : str) (rcd done finish_reason : bool)
    (rest : list ollama_line) (crest : list cloud_line)
    (ending : option httpx_error) :
  token <> [] ->
  (len (buf ++ token) > W)%Z ->
  snd (_process_token_buffer W p (buf ++ token) rcd) = false ->
  ollama_loop W p buf rcd (OMessage token done :: rest) ending
  = ollama_text_only p buf (OMessage token done :: rest) ending
  /\ cloud_loop W p buf rcd (CDelta token finish_reason :: crest) ending
     = cloud_text_only p buf (CDelta token finish_reason :: crest) ending
  /\ update_route_check W (buf ++ token) rcd = true
  /\ (forall p' buf', _process_token_buffer W p' buf' true = (p', false))
  /\ (forall p' buf' rcd',
         (len buf' > W + 50)%Z ->
         _process_token_buffer W p' buf' rcd' = (p', false)).
Proof.
  intros Htok Hlen Hno.
  pose proof (@process_no_match W p (buf ++ token) rcd Hno) as Hp.
  pose proof (@update_past_window W (buf ++ token) rcd Hlen) as Hu.
  assert (Hne : nonempty token = true)
    by (destruct token; [contradiction | reflexivity]).
  split; [|split; [|split; [exact Hu | split]]].
  - cbn [ollama_loop ollama_text_only].
    destruct (cancel p); [reflexivity|].
    rewrite Hne. cbn [negb]. rewrite Hp, Hu.
    destruct (_emit_sentences p (buf ++ token)) as [p' buf'].
    destruct done; [reflexivity | apply ollama_loop_done].
  - cbn [cloud_loop cloud_text_only].
    destruct (cancel p); [reflexivity|].
    rewrite Hne. cbn [negb]. rewrite Hp, Hu.
    destruct (_emit_sentences p (buf ++ token)) as [p' buf'].
    apply cloud_loop_done.
  - intros p' buf'. apply process_when_done.
  - intros p' buf' rcd'. apply process_past_margin.
Qed.

Lemma route_detection_window_witness :
  let lines := [OMessage (lit "ay. [ROUTE:deal-scanner] find") false;
                OMessage (lit " me. Bye") true] in
  ollama_loop 50 fresh [] false (OMessage LONG_OPENING false :: lines) None
  = ollama_text_only fresh [] (OMessage LONG_OPENING false :: lines) None.
Proof.
  cbv zeta.
  refine (proj1 (@route_detection_window 50 fresh [] LONG_OPENING false false
                   false _ [] None _ _ _)).
  - discriminate.
  - reflexivity.
  - reflexivity.
Defined.

(** In one stream, a marker that arrives after the window was exceeded is
    spoken as a sentence. *)
Example late_marker_is_a_sentence :
  sentence_queue
    (fst (_try_ollama_stream 50 fresh
            (Streams true
               [OMessage LONG_OPENING false;
                OMessage (lit "ay. [ROUTE:deal-scanner] find") false;
                OMessage (lit " me. Bye") true]
               None)))
  = [Some (lit "Sure, I can help you with that request right away, sir.");
     Some (lit "Okay."); Some (lit "[ROUTE:deal-scanner] find me.");
     Some (lit "Bye"); None].
Proof. vm_compute. reflexivity. Qed.

(** C7 as stated fails: [route_check_done] belongs to one provider's
    stream.  Here the local stream exceeds the window without a match and
    then times out; the run goes on with the fallback provider, whose
    stream starts with a marker, and the run emits a routing sentinel
    after the window had been exceeded. *)
Lemma failover_restarts_route_detection :
  let ollama := Streams true [OMessage LONG_OPENING false] (Some TimeoutException) in
  let cloud := fun _ : Provider =>
    Streams true [CDelta (lit "[ROUTE:deal-scanner] hi") false] None in
  (len LONG_OPENING > 50)%Z
  /\ _process_token_buffer 50 fresh LONG_OPENING false = (fresh, false)
  /\ update_route_check 50 LONG_OPENING false = true
  /\ sentence_queue (fst (run 50 [GROQ] ollama cloud fresh))
     = [Some (lit "Sure, I can help you with that request right away, sir.");
        Some (route_sentinel AGENT (lit "hi")); None].
Proof.
  cbv zeta. split; [reflexivity | split; [|split]]; vm_compute; reflexivity.
Qed.

(* ================================================================== *)
(** * Further properties of the conversation memory *)
(* ================================================================== *)

Lemma last_role_is_snoc (r : str) (ts : list Turn) (t : Turn) :
  last_role_is r (ts ++ [t]) = str_eqb (role t) r.
Proof. unfold last_role_is. now rewrite rev_app_distr. Qed.

Lemma pop_snoc (ts : list Turn) (t : Turn) : pop (ts ++ [t]) = ts.
Proof. apply removelast_last. Qed.

Lemma forget_last_exchange (mx : Z) (ts : list Turn) (u a : str) :
  forget_last (mkMemory mx (ts ++ [user_turn u] ++ [assistant_turn a]))
  = mkMemory mx ts.
Proof.
  unfold forget_last. cbn [turns max_turns]. rewrite app_assoc.
  rewrite last_role_is_snoc. cbn [role assistant_turn].
  change (str_eqb (lit "assistant") (lit "assistant")) with true. cbv iota.
  rewrite pop_snoc, last_role_is_snoc. cbn [role user_turn].
  change (str_eqb (lit "user") (lit "user")) with true. cbv iota.
  now rewrite pop_snoc.
Qed.

Lemma trim_nothing_at_zero (m : ConversationMemory) :
  max_turns m = 0%Z -> _trim m = m.
Proof. destruct m as [mx ts]. simpl. intros ->. apply trim_zero. Qed.

(** With [max_turns >= 0], the turn just added is the last turn of the
    memory, for [add_user] and for [add_assistant]: trimming never removes
    it, so the request built by [get_messages] ends with the utterance. *)
Theorem added_turn_is_last (m : ConversationMemory) (text prompt : str) :
  (0 <= max_turns m)%Z ->
  last (turns (add_user text m)) (user_turn []) = user_turn text
  /\ last (turns (add_assistant text m)) (user_turn []) = assistant_turn text
  /\ last (get_messages prompt (add_user text m)) (user_turn [])
     = user_turn text
  /\ hd (user_turn []) (get_messages prompt (add_user text m))
     = mkTurn (lit "system") prompt.
Proof.
  intros Hmx.
  assert (K : forall t, exists pre,
               turns (_trim (append_turn t m)) = pre ++ [t]).
  { intros t. destruct m as [mx ts]. cbn [max_turns] in Hmx.
    destruct (Z.eq_dec mx 0) as [->|Hne].
    - exists ts. unfold append_turn. cbn [turns max_turns].
      now rewrite trim_zero.
    - rewrite append_trim_positive by lia. cbn [turns].
      exists (skipn (List.length ts + 1 - 2 * Z.to_nat mx) ts).
      rewrite skipn_app.
      replace (List.length ts + 1 - 2 * Z.to_nat mx - List.length ts)
        with 0 by lia.
      reflexivity. }
  unfold add_user, add_assistant, get_messages.
  destruct (K (user_turn text)) as [pre Eu].
  destruct (K (assistant_turn text)) as [pre' Ea].
  rewrite Eu, Ea. repeat split; try apply last_last.
  change (mkTurn (lit "system") prompt :: pre ++ [user_turn text])
    with ((mkTurn (lit "system") prompt :: pre) ++ [user_turn text]).
  apply last_last.
Qed.

Lemma added_turn_is_last_witness :
  last (turns (add_user (lit "and then?")
                 (mkMemory 1 [user_turn (lit "hi"); assistant_turn (lit "Hello.")])))
    (user_turn [])
  = user_turn (lit "and then?").
Proof.
  refine (proj1 (@added_turn_is_last _ _ [] _)). simpl. lia.
Defined.

(** While two turns still fit ([max_turns] positive), [forget_last] undoes
    an exchange: after [add_user] and [add_assistant] it gives back the
    memory as it was. *)
Theorem forget_last_undoes_exchange (m : ConversationMemory) (u a : str) :
  (0 < max_turns m)%Z ->
  (len (turns m) + 2 <= 2 * max_turns m)%Z ->
  forget_last (add_assistant a (add_user u m)) = m.
Proof.
  destruct m as [mx ts]. cbn [max_turns turns]. unfold len. intros Hpos Hfit.
  unfold add_assistant, add_user.
  rewrite append_trim_positive by assumption.
  replace (List.length ts + 1 - 2 * Z.to_nat mx) with 0 by lia.
  cbn [skipn].
  rewrite append_trim_positive by assumption.
  rewrite length_app. cbn [List.length].
  replace (List.length ts + 1 + 1 - 2 * Z.to_nat mx) with 0 by lia.
  cbn [skipn]. rewrite <- app_assoc. apply forget_last_exchange.
Qed.

Lemma forget_last_undoes_exchange_witness :
  forget_last
    (add_assistant (lit "Four.")
       (add_user (lit "Two plus two?")
          (mkMemory 2 [user_turn (lit "hi"); assistant_turn (lit "Hello.")])))
  = mkMemory 2 [user_turn (lit "hi"); assistant_turn (lit "Hello.")].
Proof.
  apply forget_last_undoes_exchange; unfold len; simpl; lia.
Defined.

(** On a full memory ([2 * max_turns] turns) the exchange that is added
    pushes out the two oldest turns, and [forget_last] does not bring them
    back: what is left is the old memory without its two oldest turns. *)
Theorem forget_last_after_eviction (m : ConversationMemory) (u a : str) :
  (0 < max_turns m)%Z ->
  len (turns m) = (2 * max_turns m)%Z ->
  forget_last (add_assistant a (add_user u m))
  = mkMemory (max_turns m) (skipn 2 (turns m)).
Proof.
  destruct m as [mx ts]. cbn [max_turns turns]. unfold len. intros Hpos Hfull.
  unfold add_assistant, add_user.
  rewrite append_trim_positive by assumption.
  replace (List.length ts + 1 - 2 * Z.to_nat mx) with 1 by lia.
  destruct ts as [|t0 ts]; [cbn [List.length] in Hfull; lia|].
  destruct ts as [|t1 ts]; [cbn [List.length] in Hfull; lia|].
  cbn [skipn app].
  rewrite append_trim_positive by assumption.
  cbn [List.length] in *. rewrite length_app. cbn [List.length].
  replace (S (List.length ts + 1) + 1 - 2 * Z.to_nat mx) with 1 by lia.
  cbn [skipn app]. rewrite <- app_assoc. apply forget_last_exchange.
Qed.

Lemma forget_last_after_eviction_witness :
  forget_last
    (add_assistant (lit "Four.")
       (add_user (lit "Two plus two?")
          (mkMemory 1 [user_turn (lit "hi"); assistant_turn (lit "Hello.")])))
  = mkMemory 1 [].
Proof.
  refine (@forget_last_after_eviction
            (mkMemory 1 [user_turn (lit "hi"); assistant_turn (lit "Hello.")])
            _ _ _ _); unfold len; simpl; lia.
Defined.

(* ================================================================== *)
(** * Voice commands *)
(* ================================================================== *)

Lemma lower_char_idempotent (c : ascii) :
  lower_char (lower_char c) = lower_char c.
Proof. destruct c as [[] [] [] [] [] [] [] []]; vm_compute; reflexivity. Qed.

Lemma isspace_lower_char (c : ascii) : isspace (lower_char c) = isspace c.
Proof. destruct c as [[] [] [] [] [] [] [] []]; vm_compute; reflexivity. Qed.

Lemma lower_idempotent (s : str) : str_lower (str_lower s) = str_lower s.
Proof.
  unfold str_lower. rewrite map_map. apply map_ext. apply lower_char_idempotent.
Qed.

Lemma lstrip_lower (s : str) :
  str_lstrip (str_lower s) = str_lower (str_lstrip s).
Proof.
  induction s as [|c s IH]; [reflexivity|].
  simpl. rewrite isspace_lower_char. destruct (isspace c); [exact IH|reflexivity].
Qed.

Lemma rev_lower (s : str) : rev (str_lower s) = str_lower (rev s).
Proof. unfold str_lower. symmetry. apply map_rev. Qed.

Lemma strip_lower (s : str) : str_strip (str_lower s) = str_lower (str_strip s).
Proof.
  unfold str_strip, str_rstrip.
  now rewrite lstrip_lower, rev_lower, lstrip_lower, rev_lower.
Qed.

Lemma lstrip_idempotent (s : str) : str_lstrip (str_lstrip s) = str_lstrip s.
Proof.
  induction s as [|c s IH]; [reflexivity|].
  simpl. destruct (isspace c) eqn:Hc; [exact IH|]. simpl. now rewrite Hc.
Qed.

(** A string is its [rstrip] followed by whitespace. *)
Lemma rstrip_prefix (s : str) :
  exists trail, s = str_rstrip s ++ trail /\ forallb isspace trail = true.
Proof.
  unfold str_rstrip. destruct (lstrip_suffix (rev s)) as [pre [E F]].
  exists (rev pre). split.
  - rewrite <- rev_app_distr, <- E. now rewrite rev_involutive.
  - rewrite forallb_forall in *. intros c Hc. apply F. now apply in_rev.
Qed.

Lemma lstrip_rstrip (s : str) :
  str_lstrip s = s -> str_lstrip (str_rstrip s) = str_rstrip s.
Proof.
  intros H. destruct (rstrip_prefix s) as [trail [E F]].
  destruct (str_rstrip s) as [|d r] eqn:R; [reflexivity|].
  rewrite E in H. simpl in H. simpl.
  destruct (isspace d) eqn:Hd; [|reflexivity].
  exfalso.
  assert (L : List.length (str_lstrip (r ++ trail))
              <= List.length (r ++ trail)).
  { destruct (lstrip_suffix (r ++ trail)) as [pre [E' _]].
    rewrite E' at 2. rewrite length_app. lia. }
  rewrite H in L. simpl in L. lia.
Qed.

Lemma strip_idempotent (s : str) : str_strip (str_strip s) = str_strip s.
Proof.
  unfold str_strip.
  rewrite (lstrip_rstrip (lstrip_idempotent s)).
  unfold str_rstrip. now rewrite rev_involutive, lstrip_idempotent.
Qed.

(** The command found in a transcript does not depend on the case of its
    letters nor on whitespace around it, whatever phrases are configured. *)
Theorem voice_command_ignores_case_and_margin
    (clear_phrases forget_phrases : list str) (text : str) :
  _check_voice_command clear_phrases forget_phrases (str_lower text)
  = _check_voice_command clear_phrases forget_phrases text
  /\ _check_voice_command clear_phrases forget_phrases (str_strip text)
     = _check_voice_command clear_phrases forget_phrases text.
Proof.
  unfold _check_voice_command. split.
  - now rewrite lower_idempotent.
  - now rewrite <- strip_lower, strip_idempotent.
Qed.

Lemma last_content_none (r : str) (ts : list Turn) :
  Forall (fun t => role t <> r) ts -> last_content r ts = None.
Proof.
  intros H. unfold last_content.
  destruct (find (fun t => str_eqb (role t) r) (rev ts)) as [t|] eqn:F;
    [|reflexivity].
  apply find_some in F. destruct F as [Hin Hr]. apply in_rev in Hin.
  rewrite Forall_forall in H. apply str_eqb_eq in Hr.
  now destruct (H t Hin).
Qed.

Lemma str_eqb_refl (s : str) : str_eqb s s = true.
Proof. unfold str_eqb. destruct (list_eq_dec ascii_dec s s); congruence. Qed.

Lemma last_content_latest (r : str) (pre post : list Turn) (t : Turn) :
  role t = r -> Forall (fun t' => role t' <> r) post ->
  last_content r (pre ++ t :: post) = Some (content t).
Proof.
  intros Hr H. unfold last_content.
  rewrite rev_app_distr. simpl rev. rewrite <- app_assoc. simpl app.
  assert (G : forall l k,
             Forall (fun t' => role t' <> r) l ->
             find (fun t' => str_eqb (role t') r) (rev l ++ k)
             = find (fun t' => str_eqb (role t') r) k).
  { intros l. induction l as [|x l IH]; intros k Hl; [reflexivity|].
    inversion Hl; subst. simpl rev. rewrite <- app_assoc. rewrite IH by assumption.
    simpl. destruct (str_eqb (role x) (role t)) eqn:E; [|reflexivity].
    apply str_eqb_eq in E. contradiction. }
  rewrite G by assumption. simpl. subst r. now rewrite str_eqb_refl.
Qed.


(** [repeat_user] speaks the most recent user turn after [You asked: ],
    however many turns of other roles follow it; when the memory holds no
    user turn it speaks its fixed excuse. *)
Theorem repeat_speaks_most_recent (mx : Z) (pre post : list Turn)
    (x : str) :
  Forall (fun t => role t <> lit "user") post ->
  snd (_handle_voice_command (lit "repeat_user")
         (mkMemory mx (pre ++ user_turn x :: post)))
  = Some (lit "You asked: " ++ x)
  /\ snd (_handle_voice_command (lit "repeat_user") (mkMemory mx post))
     = Some (lit "I don't have any previous questions.").
Proof.
  intros H. unfold _handle_voice_command.
  change (str_eqb (lit "repeat_user") (lit "clear")) with false.
  change (str_eqb (lit "repeat_user") (lit "forget")) with false.
  change (str_eqb (lit "repeat_user") (lit "repeat_user")) with true.
  cbv iota. cbn [turns]. split.
  - now rewrite (@last_content_latest (lit "user") pre post (user_turn x)).
  - now rewrite last_content_none.
Qed.

Lemma repeat_speaks_most_recent_witness :
  snd (_handle_voice_command (lit "repeat_user")
         (mkMemory 20
            [user_turn (lit "first?"); assistant_turn (lit "One.");
             user_turn (lit "second?"); assistant_turn (lit "Two.")]))
  = Some (lit "You asked: second?").
Proof.
  refine (proj1 (@repeat_speaks_most_recent 20
                   [user_turn (lit "first?"); assistant_turn (lit "One.")]
                   [assistant_turn (lit "Two.")] (lit "second?") _)).
  constructor; [discriminate | constructor].
Defined.

(* ================================================================== *)
(** * The environment file and the provider chain *)
(* ================================================================== *)

Lemma load_env_line_keeps (line : str) (env : environment) (k v : str) :
  env k = Some v -> load_env_line line env k = Some v.
Proof.
  intros H. unfold load_env_line.
  destruct (negb (nonempty (str_strip line))
            || startswith (lit "#") (str_strip line)); [exact H|].
  destruct (char_in "=" (str_strip line)); [|exact H].
  destruct (partition_eq (str_strip line)) as [key value].
  destruct (nonempty (str_strip key)); [|exact H].
  destruct (nonempty (str_strip value)); [|exact H].
  destruct (env (str_strip key)) as [old|] eqn:E; [exact H|].
  simpl. unfold setenv.
  destruct (str_eqb k (str_strip key)) eqn:K; [|exact H].
  apply str_eqb_eq in K. subst k. congruence.
Qed.

Lemma load_env_line_sets (line : str) (env : environment) (k v : str) :
  env k = None -> load_env_line line env k = Some v -> k <> [] /\ v <> [].
Proof.
  intros Hn. unfold load_env_line.
  destruct (negb (nonempty (str_strip line))
            || startswith (lit "#") (str_strip line)); [congruence|].
  destruct (char_in "=" (str_strip line)); [|congruence].
  destruct (partition_eq (str_strip line)) as [key value].
  destruct (nonempty (str_strip key)) eqn:Nk; [|simpl; congruence].
  destruct (nonempty (str_strip value)) eqn:Nv; [|simpl; congruence].
  destruct (env (str_strip key)) as [old|] eqn:E; [simpl; congruence|].
  simpl. unfold setenv.
  destruct (str_eqb k (str_strip key)) eqn:K; [|congruence].
  apply str_eqb_eq in K. subst k. intros S. inversion S; subst.
  split; intros Z0; [rewrite Z0 in Nk | rewrite Z0 in Nv]; discriminate.
Qed.

Lemma load_env_file_keeps_and_sets (file : option (list str))
    (env : environment) (k : str) :
  (forall v, env k = Some v -> load_env_file file env k = Some v)
  /\ (forall v, env k = None -> load_env_file file env k = Some v ->
                k <> [] /\ v <> []).
Proof.
  destruct file as [lines|];
    [|split; [auto | simpl; intros v H1 H2; congruence]].
  unfold load_env_file. revert env.
  induction lines as [|line lines IH]; intros env; simpl.
  - split; [auto | intros v H1 H2; congruence].
  - destruct (IH (load_env_line line env)) as [Keep Sets]. split.
    + intros v H. apply Keep. now apply load_env_line_keeps.
    + intros v Hn H.
      destruct (load_env_line line env k) as [v0|] eqn:E.
      * assert (v0 = v).
        { pose proof (Keep v0 eq_refl) as K. congruence. }
        subst v0. now apply (@load_env_line_sets line env k v).
      * now apply Sets.
Qed.

(** [load_env_file] never changes a variable that is already set, and a
    variable it sets has a non-empty name and a non-empty value. *)
Theorem env_file_never_overrides (file : option (list str))
    (env : environment) (k : str) :
  (forall v, env k = Some v -> load_env_file file env k = Some v)
  /\ (forall v, env k = None -> load_env_file file env k = Some v ->
                k <> [] /\ v <> []).
Proof. apply load_env_file_keeps_and_sets. Qed.

(** Of two lines of the file that assign the same variable, the first one
    counts: what a line sets is still set when the rest of the file has
    been read. *)
Theorem env_file_first_assignment_wins (lines : list str) (line : str)
    (env : environment) (k v : str) :
  load_env_line line env k = Some v ->
  load_env_file (Some (line :: lines)) env k = Some v.
Proof.
  intros H.
  exact (proj1 (load_env_file_keeps_and_sets (Some lines)
                  (load_env_line line env) k) v H).
Qed.

Lemma env_file_first_assignment_wins_witness :
  load_env_file
    (Some [lit "# keys"; lit " GROQ_API_KEY = abc "; lit "GROQ_API_KEY=xyz"])
    (load_env_line (lit "# keys") (fun _ => None)) (lit "GROQ_API_KEY")
  = Some (lit "abc")
  /\ load_env_file (Some [lit " GROQ_API_KEY = abc "; lit "GROQ_API_KEY=xyz"])
       (fun _ => None) (lit "GROQ_API_KEY")
     = Some (lit "abc").
Proof.
  split; [reflexivity|].
  apply env_file_first_assignment_wins. reflexivity.
Defined.

(** The credential [build_chain] finds for a provider id. *)
Lemma build_chain_keys (data : ProvidersFile) (environ : str -> str)
    (ids : list str) :
  Forall (fun p => apiKey p <> []
                   /\ In (pid p) ids
                   /\ exists e, provider_by_id (providers data) (pid p) = Some e
                                /\ apiKey p = environ (entry_apiKeyEnv e)
                                /\ pname p = entry_name e
                                /\ endpoint p = entry_endpoint e)
    (build_chain data environ ids).
Proof.
  induction ids as [|id ids IH]; simpl; [constructor|].
  assert (IH' : Forall (fun p => apiKey p <> []
                   /\ In (pid p) (id :: ids)
                   /\ exists e, provider_by_id (providers data) (pid p) = Some e
                                /\ apiKey p = environ (entry_apiKeyEnv e)
                                /\ pname p = entry_name e
                                /\ endpoint p = entry_endpoint e)
                 (build_chain data environ ids)).
  { eapply Forall_impl; [|exact IH].
    intros p [H1 [H2 H3]]. repeat split; [assumption | now right | assumption]. }
  destruct (provider_by_id (providers data) id) as [e|] eqn:F; [|exact IH'].
  destruct (nonempty (entry_apiKeyEnv e)) eqn:N; [|exact IH'].
  destruct (environ (entry_apiKeyEnv e)) as [|c key] eqn:K; [exact IH'|].
  simpl. constructor; [|exact IH'].
  simpl. repeat split; [discriminate | now left |].
  exists e. rewrite K. repeat split. assumption.
Qed.

Lemma build_chain_length (data : ProvidersFile) (environ : str -> str)
    (ids : list str) :
  List.length (build_chain data environ ids) <= List.length ids.
Proof.
  induction ids as [|id ids IH]; simpl; [lia|].
  destruct (provider_by_id (providers data) id) as [e|]; [|lia].
  destruct (nonempty (entry_apiKeyEnv e)); simpl; [|lia].
  destruct (environ (entry_apiKeyEnv e)); simpl; lia.
Qed.

(** Every provider of the chain [load_llm_providers] builds is one of the
    ids of the fallback chain, is described in the file, and carries the
    non-empty credential found in the environment variable its entry names;
    the chain is never longer than the list of fallback ids, and it is
    empty when the file is missing. *)
Theorem loaded_providers_hold_credentials (data : ProvidersFile)
    (environ : str -> str) :
  Forall (fun p => apiKey p <> []
                   /\ In (pid p) (fallback_ids data)
                   /\ exists e, provider_by_id (providers data) (pid p) = Some e
                                /\ apiKey p = environ (entry_apiKeyEnv e)
                                /\ pname p = entry_name e
                                /\ endpoint p = entry_endpoint e)
    (load_llm_providers (Some data) environ)
  /\ List.length (load_llm_providers (Some data) environ)
     <= List.length (fallback_ids data)
  /\ load_llm_providers None environ = [].
Proof.
  split; [apply build_chain_keys | split; [apply build_chain_length | reflexivity]].
Qed.

(* ================================================================== *)
(** * Sentences are heard in the order they are emitted *)
(* ================================================================== *)

Section Ordering.

Variable tts : bool.
Variable synth : str -> option str.

Local Arguments startswith : simpl never.
Local Arguments str_eqb : simpl never.

Lemma synthesized_open (sentence : str) :
  existsb closes_audio (synthesized tts synth sentence) = false.
Proof.
  unfold synthesized. destruct (negb tts); [reflexivity|].
  destruct (synth sentence) as [d|]; [|reflexivity].
  destruct (nonempty d); reflexivity.
Qed.

Lemma playable_app (a b : list (option audio_item)) :
  playable (a ++ b)
  = playable a ++ (if existsb closes_audio a then [] else playable b).
Proof.
  induction a as [|x a IH]; [reflexivity|].
  destruct x as [[d|s]|]; simpl.
  - destruct (str_eqb d SKIP); rewrite IH; reflexivity.
  - destruct (startswith ROUTE_PREFIX s); [reflexivity | exact IH].
  - reflexivity.
Qed.

Lemma audio_stream_app (a b : list (option str)) :
  audio_stream tts synth (a ++ b)
  = audio_stream tts synth a ++ (if existsb closes_sentences a then [] else audio_stream tts synth b).
Proof.
  induction a as [|x a IH]; [reflexivity|].
  destruct x as [sentence|]; simpl; [|reflexivity].
  destruct (startswith ROUTE_PREFIX sentence); [reflexivity|].
  simpl. now rewrite IH, <- app_assoc.
Qed.

Lemma closes_audio_stream (a : list (option str)) :
  existsb closes_audio (audio_stream tts synth a) = existsb closes_sentences a.
Proof.
  induction a as [|x a IH]; [reflexivity|].
  destruct x as [sentence|]; simpl; [|reflexivity].
  destruct (startswith ROUTE_PREFIX sentence) eqn:R; simpl.
  - now rewrite R.
  - now rewrite existsb_app, synthesized_open, IH.
Qed.

Lemma playable_synthesized (sentence : str) :
  playable (synthesized tts synth sentence) = heard tts synth sentence.
Proof.
  unfold synthesized, heard. destruct (negb tts); [reflexivity|].
  destruct (synth sentence) as [d|]; [|reflexivity].
  destruct (nonempty d); [|reflexivity].
  simpl. destruct (str_eqb d SKIP); reflexivity.
Qed.

Lemma to_be_heard_stream (items : list (option str)) :
  to_be_heard tts synth items = playable (audio_stream tts synth items).
Proof.
  induction items as [|x items IH]; [reflexivity|].
  destruct x as [sentence|]; simpl; [|reflexivity].
  destruct (startswith ROUTE_PREFIX sentence) eqn:R; simpl.
  - now rewrite R.
  - now rewrite playable_app, synthesized_open, playable_synthesized, IH.
Qed.

Lemma agree_start : stages_agree tts synth [] stages_start.
Proof.
  split; [reflexivity|]. exists [], []. simpl.
  repeat split; discriminate.
Qed.

Lemma agree_emit (history : list (option str)) (s : stages)
    (item : option str) :
  stages_agree tts synth history s ->
  stages_agree tts synth (history ++ [item]) (stage_step tts synth (Emit item) s).
Proof.
  intros [Hc [rb [rc [H1 [H2 [H3 [H4 [H5 H6]]]]]]]].
  split; [first [exact Hc | reflexivity]|]. exists rb, rc. simpl.
  repeat split; try assumption.
  now rewrite H1, <- app_assoc.
Qed.

Lemma agree_synth (history : list (option str)) (s : stages) :
  stages_agree tts synth history s ->
  stages_agree tts synth history (stage_step tts synth SynthTurn s).
Proof.
  intros [Hc [rb [rc [H1 [H2 [H3 [H4 [H5 H6]]]]]]]].
  destruct s as [p ret t]. simpl in *.
  unfold synthesize_turn. destruct ret; [split; [first [exact Hc | reflexivity]|]; now exists rb, rc|].
  rewrite Hc.
  destruct (sentence_queue p) as [|item rest] eqn:Q.
  { split; [first [exact Hc | reflexivity]|]. exists rb, rc. simpl. rewrite Q. now repeat split. }
  assert (Hstream : audio_stream tts synth (rb ++ [item])
                    = audio_stream tts synth rb ++ audio_stream tts synth [item]).
  { rewrite audio_stream_app, <- H2. reflexivity. }
  assert (Hret : existsb closes_sentences (rb ++ [item])
                 = closes_sentences item).
  { rewrite existsb_app, <- H2. simpl. now rewrite orb_false_r. }
  destruct item as [sentence|].
  - destruct (startswith ROUTE_PREFIX sentence) eqn:R.
    + split; [first [exact Hc | reflexivity]|]. exists (rb ++ [Some sentence]), rc. simpl.
      repeat split; try assumption.
      * now rewrite H1, <- app_assoc.
      * rewrite Hret. simpl. now rewrite R.
      * rewrite Hstream, H3. simpl. rewrite R.
        now rewrite <- !app_assoc.
    + split; [first [exact Hc | reflexivity]|]. exists (rb ++ [Some sentence]), rc. simpl.
      repeat split; try assumption.
      * now rewrite H1, <- app_assoc.
      * rewrite Hret. simpl. now rewrite R.
      * rewrite Hstream, H3. simpl. rewrite R, app_nil_r.
        now rewrite <- !app_assoc.
  - split; [first [exact Hc | reflexivity]|]. exists (rb ++ [None]), rc. simpl.
    repeat split; try assumption.
    + now rewrite H1, <- app_assoc.
    + now rewrite Hret.
    + rewrite Hstream, H3. simpl. now rewrite <- !app_assoc.
Qed.

Lemma agree_play (history : list (option str)) (s : stages) :
  stages_agree tts synth history s ->
  stages_agree tts synth history (stage_step tts synth PlayTurn s).
Proof.
  intros [Hc [rb [rc [H1 [H2 [H3 [H4 [H5 H6]]]]]]]].
  destruct s as [p ret [k pl]]. simpl in *.
  unfold play_step. cbn [pc played].
  assert (Open : forall x,
             has_returned k = false ->
             playable (rc ++ [x]) = playable rc ++ playable [x]).
  { intros x Hk. rewrite playable_app, H5, Hk. reflexivity. }
  destruct k as [| |[[d|str0]|]|d|]; rewrite ?Hc; cbn [fst snd].
  - (* AtWhile *)
    split; [first [exact Hc | reflexivity]|]. exists rb, rc. simpl.
    repeat split; try assumption. discriminate.
  - (* AtGet *)
    destruct (audio_queue p) as [|x q] eqn:Q.
    + split; [first [exact Hc | reflexivity]|]. exists rb, rc. simpl. rewrite Q.
      repeat split; try assumption. discriminate.
    + split; [first [exact Hc | reflexivity]|]. exists rb, rc. simpl.
      repeat split; try assumption. discriminate.
  - (* AtChecks, bytes *)
    destruct (str_eqb d SKIP) eqn:K.
    + split; [first [exact Hc | reflexivity]|]. exists rb, (rc ++ [Some (AudioBytes d)]). simpl.
      repeat split; try assumption.
      * rewrite H3. simpl. now rewrite <- app_assoc.
      * rewrite Open by reflexivity. simpl. rewrite K. now rewrite app_nil_r.
      * rewrite existsb_app, H5. reflexivity.
      * discriminate.
    + split; [first [exact Hc | reflexivity]|]. exists rb, rc. simpl.
      repeat split; try assumption.
      intros data E. inversion E; subst. exact K.
  - (* AtChecks, string *)
    destruct (startswith ROUTE_PREFIX str0) eqn:R.
    + split; [first [exact Hc | reflexivity]|]. exists rb, (rc ++ [Some (AudioStr str0)]). simpl.
      repeat split; try assumption.
      * rewrite H3. simpl. now rewrite <- app_assoc.
      * rewrite Open by reflexivity. simpl. rewrite R. now rewrite app_nil_r.
      * rewrite existsb_app. simpl. rewrite R. now rewrite orb_true_r.
      * discriminate.
    + split; [first [exact Hc | reflexivity]|]. exists rb, (rc ++ [Some (AudioStr str0)]). simpl.
      repeat split; try assumption.
      * rewrite H3. simpl. now rewrite <- app_assoc.
      * rewrite Open by reflexivity. simpl. rewrite R. now rewrite app_nil_r.
      * rewrite existsb_app, H5. simpl. now rewrite R.
      * discriminate.
  - (* AtChecks, end of stream *)
    split; [first [exact Hc | reflexivity]|]. exists rb, (rc ++ [None]). simpl.
    repeat split; try assumption.
    + rewrite H3. simpl. now rewrite <- app_assoc.
    + rewrite Open by reflexivity. simpl. now rewrite app_nil_r.
    + rewrite existsb_app. simpl. now rewrite orb_true_r.
    + discriminate.
  - (* AtPlay *)
    split; [first [exact Hc | reflexivity]|]. exists rb, (rc ++ [Some (AudioBytes d)]). simpl.
    repeat split; try assumption.
    + rewrite H3. simpl. now rewrite <- app_assoc.
    + rewrite Open by reflexivity. simpl.
      rewrite (H6 d eq_refl). now rewrite H4.
    + rewrite existsb_app, H5. reflexivity.
    + discriminate.
  - (* Returned *)
    split; [first [exact Hc | reflexivity]|]. exists rb, rc. simpl. now repeat split.
Qed.

Lemma agree_run (schedule : list stage_action) (history : list (option str))
    (s : stages) :
  stages_agree tts synth history s ->
  stages_agree tts synth (history ++ emitted schedule)
    (run_stages tts synth schedule s).
Proof.
  revert history s.
  induction schedule as [|a rest IH]; intros history s H; simpl.
  - now rewrite app_nil_r.
  - destruct a as [item| |].
    + replace (history ++ item :: emitted rest)
        with ((history ++ [item]) ++ emitted rest)
        by now rewrite <- app_assoc.
      apply IH. now apply agree_emit.
    + apply IH. now apply agree_synth.
    + apply IH. now apply agree_play.
Qed.

Lemma agree_prefix (history : list (option str)) (s : stages) :
  stages_agree tts synth history s ->
  (exists rest,
      played (player s) ++ rest = to_be_heard tts synth history)
  /\ (pc (player s) = Returned ->
      played (player s) = to_be_heard tts synth history).
Proof.
  intros [Hc [rb [rc [H1 [H2 [H3 [H4 [H5 H6]]]]]]]].
  rewrite to_be_heard_stream, H1, audio_stream_app, H3, H4.
  rewrite <- !app_assoc, playable_app. split.
  - eexists. reflexivity.
  - intros K. rewrite K in H5. simpl in H5. rewrite H5. now rewrite app_nil_r.
Qed.

End Ordering.

(** In a run that is not interrupted, however the three threads
    interleave, what has been played is always the beginning of what is to
    be heard of the items emitted so far: the audio of the sentences in the
    order of emission, each once, up to the end-of-stream marker or the
    routing sentinel; and when the playback thread has returned, all of it
    has been played. *)
Theorem playback_follows_emission (tts_enabled : bool)
    (_synthesize_one : str -> option str) (schedule : list stage_action) :
  let s := run_stages tts_enabled _synthesize_one schedule stages_start in
  (exists rest,
      played (player s) ++ rest
      = to_be_heard tts_enabled _synthesize_one (emitted schedule))
  /\ (pc (player s) = Returned ->
      played (player s)
      = to_be_heard tts_enabled _synthesize_one (emitted schedule)).
Proof.
  cbv zeta. apply agree_prefix.
  apply (@agree_run tts_enabled _synthesize_one schedule [] stages_start).
  apply agree_start.
Qed.

Section Completion.

Variable tts : bool.
Variable synth : str -> option str.

Local Arguments startswith : simpl never.
Local Arguments str_eqb : simpl never.

Lemma run_stages_app (s1 s2 : list stage_action) (s : stages) :
  run_stages tts synth (s1 ++ s2) s
  = run_stages tts synth s2 (run_stages tts synth s1 s).
Proof. revert s. induction s1 as [|a s1 IH]; intros s; [reflexivity | apply IH]. Qed.

Lemma run_emits (items : list (option str)) (p : StreamingPipeline)
    (ret : bool) (t : play_thread) :
  run_stages tts synth (map Emit items) (mkStages p ret t)
  = mkStages (mkPipeline (cancel p) (sentence_queue p ++ items)
                (audio_queue p) (full_response p)) ret t.
Proof.
  revert p. induction items as [|x items IH]; intros p; simpl.
  - rewrite app_nil_r. now destruct p.
  - rewrite IH. simpl. now rewrite <- app_assoc.
Qed.

Lemma run_synth_returned (n : nat) (p : StreamingPipeline) (t : play_thread) :
  run_stages tts synth (repeat SynthTurn n) (mkStages p true t)
  = mkStages p true t.
Proof. induction n as [|n IH]; [reflexivity | exact IH]. Qed.

(** Enough passes of the synthesis thread on a closed queue. *)
Lemma run_synth (items : list (option str)) (n : nat)
    (audio : list (option audio_item)) (response : str) (t : play_thread) :
  existsb closes_sentences items = true ->
  List.length items <= n ->
  exists left,
    run_stages tts synth (repeat SynthTurn n)
      (mkStages (mkPipeline false items audio response) false t)
    = mkStages (mkPipeline false left (audio ++ audio_stream tts synth items)
                  response) true t.
Proof.
  revert n audio.
  induction items as [|x items IH]; intros n audio Hcl Hn; [discriminate|].
  destruct n as [|n]; [simpl in Hn; lia|].
  simpl in Hn. cbn [repeat run_stages stage_step synthesize_turn pipeline
                    synth_returned player cancel sentence_queue].
  destruct x as [sentence|].
  - destruct (startswith ROUTE_PREFIX sentence) eqn:R.
    + exists items. rewrite run_synth_returned. simpl. rewrite R.
      unfold put_audio. simpl. now rewrite <- app_assoc.
    + simpl in Hcl. rewrite R in Hcl. simpl in Hcl.
      destruct (IH n (audio ++ synthesized tts synth sentence) Hcl) as [left E];
        [lia|].
      exists left. unfold put_audio_all. cbn [cancel sentence_queue audio_queue
                                               full_response].
      rewrite E. simpl. rewrite R. now rewrite <- app_assoc.
  - exists items. rewrite run_synth_returned. reflexivity.
Qed.

Lemma run_play_returned (n : nat) (p : StreamingPipeline) (ret : bool)
    (pl : list str) :
  run_stages tts synth (repeat PlayTurn n) (mkStages p ret (mkPlay Returned pl))
  = mkStages p ret (mkPlay Returned pl).
Proof. induction n as [|n IH]; [reflexivity | exact IH]. Qed.

(** Enough steps of the playback thread on a closed audio queue. *)
Lemma run_play (audio : list (option audio_item)) (n : nat)
    (queue : list (option str)) (response : str) (ret : bool)
    (pl : list str) :
  existsb closes_audio audio = true ->
  4 * List.length audio <= n ->
  exists left,
    run_stages tts synth (repeat PlayTurn n)
      (mkStages (mkPipeline false queue audio response) ret (mkPlay AtWhile pl))
    = mkStages (mkPipeline false queue left response) ret
        (mkPlay Returned (pl ++ playable audio)).
Proof.
  revert n pl.
  induction audio as [|x audio IH]; intros n pl Hcl Hn; [discriminate|].
  cbn [List.length] in Hn.
  destruct n as [|[|[|[|n]]]]; try lia.
  destruct x as [[d|s]|].
  - cbn [repeat run_stages stage_step play_step pipeline synth_returned player
         pc played cancel audio_queue sentence_queue full_response].
    simpl in Hcl. destruct (str_eqb d SKIP) eqn:K.
    + destruct (IH (S n) pl Hcl) as [left E]; [lia|].
      exists left. cbn [repeat run_stages] in E. simpl playable. rewrite K.
      exact E.
    + cbn [run_stages stage_step play_step pipeline synth_returned player
           pc played].
      destruct (IH n (pl ++ [d]) Hcl) as [left E]; [lia|].
      exists left. rewrite E. simpl playable. rewrite K.
      now rewrite <- app_assoc.
  - cbn [repeat run_stages stage_step play_step pipeline synth_returned player
         pc played cancel audio_queue sentence_queue full_response].
    simpl in Hcl. destruct (startswith ROUTE_PREFIX s) eqn:R.
    + cbn [run_stages stage_step play_step pipeline synth_returned player
           pc played].
      exists audio. rewrite run_play_returned. simpl playable. rewrite R.
      now rewrite app_nil_r.
    + simpl in Hcl.
      destruct (IH (S n) pl Hcl) as [left E]; [lia|].
      exists left. cbn [repeat run_stages] in E. simpl playable. rewrite R.
      exact E.
  - cbn [repeat run_stages stage_step play_step pipeline synth_returned player
         pc played cancel audio_queue sentence_queue full_response].
    exists audio. rewrite run_play_returned. simpl. now rewrite app_nil_r.
Qed.

End Completion.

(** Run one after the other on items that end the stream (an
    end-of-stream marker or a routing sentinel among them), the three
    threads come to an end and everything that is to be heard has been
    played: emission of the items, as many passes of the synthesis thread,
    then four steps of the playback thread for each audio item. *)
Theorem sequential_run_plays_everything (tts_enabled : bool)
    (_synthesize_one : str -> option str) (items : list (option str)) :
  existsb closes_sentences items = true ->
  let audio := audio_stream tts_enabled _synthesize_one items in
  let s :=
    run_stages tts_enabled _synthesize_one
      (map Emit items ++ repeat SynthTurn (List.length items)
       ++ repeat PlayTurn (4 * List.length audio))
      stages_start in
  synth_returned s = true
  /\ pc (player s) = Returned
  /\ played (player s) = to_be_heard tts_enabled _synthesize_one items.
Proof.
  intros Hcl. cbv zeta.
  rewrite !run_stages_app. unfold stages_start, fresh.
  rewrite run_emits. cbn [cancel sentence_queue audio_queue full_response app].
  destruct (@run_synth tts_enabled _synthesize_one items (List.length items)
              [] [] (mkPlay AtWhile []) Hcl (le_n _)) as [left E].
  rewrite E. cbn [app].
  destruct (@run_play tts_enabled _synthesize_one
              (audio_stream tts_enabled _synthesize_one items)
              (4 * List.length (audio_stream tts_enabled _synthesize_one items))
              left [] true [])
    as [left' E']; [now rewrite closes_audio_stream | apply le_n |].
  rewrite E'. cbn [synth_returned player pc played app].
  repeat split. symmetry. apply to_be_heard_stream.
Qed.

Lemma sequential_run_plays_everything_witness :
  let synth := fun sentence : str => Some (lit "pcm:" ++ sentence) in
  let items := [Some (lit "Hello there."); Some (lit "How are you?"); None] in
  played
    (player
       (run_stages true synth
          (map Emit items ++ repeat SynthTurn 3 ++ repeat PlayTurn 12)
          stages_start))
  = [lit "pcm:Hello there."; lit "pcm:How are you?"].
Proof.
  cbv zeta.
  refine (proj2 (proj2 (@sequential_run_plays_everything true
                          (fun sentence : str => Some (lit "pcm:" ++ sentence))
                          [Some (lit "Hello there."); Some (lit "How are you?");
                           None] _))).
  reflexivity.
Defined.

(* ================================================================== *)
(** * Voice-activity capture *)
(* ================================================================== *)

Section CaptureFacts.

Variable frame : Type.
Variable read : nat -> frame.
Variable is_speech : frame -> bool.
Variable stopped : nat -> bool.
Variable silence_limit : nat.

Lemma stream_between_snoc (start i : nat) :
  start <= i ->
  stream_between read start i ++ [read i] = stream_between read start (S i).
Proof.
  intros H. unfold stream_between.
  replace (S i - start) with (S (i - start)) by lia.
  rewrite seq_S, map_app. simpl. do 3 f_equal. lia.
Qed.

Lemma capture_loop_result (n i : nat) (frames : list frame)
    (silent_frames : nat) (speech_detected : bool)
    (frames' : list frame) (speech_detected' : bool) :
  capture_invariant read is_speech silence_limit i frames silent_frames
    speech_detected ->
  capture_loop read is_speech stopped silence_limit n i frames silent_frames
    speech_detected
  = Some (frames', speech_detected') ->
  if speech_detected' then utterance read is_speech silence_limit (i + n) frames'
  else frames' = [] /\ silent_between read is_speech 0 (i + n).
Proof.
  revert i frames silent_frames speech_detected.
  induction n as [|n IH]; intros i frames silent sd Inv E.
  - simpl in E. inversion E; subst. rewrite Nat.add_0_r.
    destruct speech_detected'; [|exact Inv].
    destruct Inv as [start [H1 [H2 [H3 [H4 _]]]]].
    exists start, i.
    split; [exact H2|]. split; [lia|]. split; [exact H3|].
    split; [exact H4|]. now left.
  - simpl in E. destruct (stopped i); [discriminate|].
    replace (i + S n) with (S i + n) by lia.
    destruct (is_speech (read i)) eqn:Sp.
    + apply IH in E; [exact E|].
      cbv beta iota delta [capture_invariant].
      assert (Last : is_speech (read (S i - 0 - 1)) = true)
        by now replace (S i - 0 - 1) with i by lia.
      assert (Nil : silent_between read is_speech (S i - 0) (S i))
        by (intros j Hj; lia).
      destruct sd.
      * destruct Inv as [start [H1 [H2 [H3 [H4 _]]]]].
        exists start. rewrite H2, stream_between_snoc by lia.
        split; [lia|]. split; [reflexivity|]. split; [exact H3|].
        split; [exact H4|]. split; [lia|]. split; [exact Nil|].
        split; [exact Last | now left].
      * destruct Inv as [H1 H2]. subst frames.
        exists i.
        split; [lia|]. split.
        { unfold stream_between. replace (S i - i) with 1 by lia. reflexivity. }
        split; [exact Sp|]. split; [exact H2|]. split; [lia|].
        split; [exact Nil|]. split; [exact Last | now left].
    + destruct sd.
      * destruct Inv as [start [H1 [H2 [H3 [H4 [H5 [H6 [H7 H8]]]]]]]].
        assert (Sil : silent_between read is_speech (S i - S silent) (S i)).
        { intros j Hj. destruct (Nat.eq_dec j i) as [->|Hne]; [exact Sp|].
          apply H6. lia. }
        assert (Last : is_speech (read (S i - S silent - 1)) = true)
          by now replace (S i - S silent - 1) with (i - silent - 1) by lia.
        destruct (Nat.leb_spec silence_limit (S silent)) as [Hlim|Hlim].
        -- inversion E; subst.
           assert (K : Nat.max 1 silence_limit = S silent) by lia.
           exists start, (S i). rewrite stream_between_snoc by lia.
           split; [reflexivity|]. split; [lia|]. split; [exact H3|].
           split; [exact H4|]. right. rewrite K.
           split; [lia|]. split; [exact Sil | exact Last].
        -- apply IH in E; [exact E|].
      cbv beta iota delta [capture_invariant].
           exists start. rewrite H2, stream_between_snoc by lia.
           split; [lia|]. split; [reflexivity|]. split; [exact H3|].
           split; [exact H4|]. split; [lia|]. split; [exact Sil|].
           split; [exact Last | now right].
      * apply IH in E; [exact E|].
      cbv beta iota delta [capture_invariant].
        destruct Inv as [H1 H2]. split; [assumption|].
        intros j Hj. destruct (Nat.eq_dec j i) as [->|Hne]; [exact Sp|].
        apply H2. lia.
Qed.

End CaptureFacts.

Lemma captured_utterance (frame : Type) (read : nat -> frame)
    (is_speech : frame -> bool) (stopped : nat -> bool)
    (max_frames silence_limit : nat) (frames : list frame) :
  captured_frames read is_speech stopped max_frames silence_limit = Some frames ->
  utterance read is_speech silence_limit max_frames frames
  /\ 5 <= List.length frames.
Proof.
  unfold captured_frames. intros E.
  destruct (capture_loop read is_speech stopped silence_limit max_frames 0 []
              0 false) as [[fs sd]|] eqn:L; [|discriminate].
  destruct sd; simpl in E; [|discriminate].
  destruct (Nat.ltb_spec (List.length fs) 5) as [H|H]; [discriminate|].
  inversion E; subst. split; [|exact H].
  apply (@capture_loop_result frame read is_speech stopped silence_limit
           max_frames 0 [] 0 false frames true) in L; [exact L|].
  split; [reflexivity|]. intros j Hj. lia.
Qed.

(** What [listen_for_speech] returns is an utterance cut out of the
    microphone stream: at least five consecutive frames that start at the
    first speech frame of the stream and stop within [max_frames], either
    at [max_frames] or right after [max 1 silence_limit] frames of silence
    that follow a speech frame. *)
Theorem captured_frames_are_an_utterance (frame : Type) (read : nat -> frame)
    (is_speech : frame -> bool) (stopped : nat -> bool)
    (max_frames silence_limit : nat) (frames : list frame) :
  captured_frames read is_speech stopped max_frames silence_limit = Some frames ->
  utterance read is_speech silence_limit max_frames frames
  /\ 5 <= List.length frames.
Proof. apply captured_utterance. Qed.

Lemma captured_frames_are_an_utterance_witness :
  let read := fun i : nat => i in
  let is_speech := fun f : nat => (3 <=? f) && (f <=? 6) in
  captured_frames read is_speech (fun _ => false) 100 2 = Some [3; 4; 5; 6; 7; 8]
  /\ 5 <= List.length [3; 4; 5; 6; 7; 8].
Proof.
  cbv zeta. split; [reflexivity|].
  refine (proj2 (@captured_frames_are_an_utterance nat (fun i => i)
                   (fun f => (3 <=? f) && (f <=? 6)) (fun _ => false)
                   100 2 [3; 4; 5; 6; 7; 8] _)).
  reflexivity.
Defined.

(** When no frame read within [max_frames] is speech, [listen_for_speech]
    returns no utterance, whether it is stopped on the way or not. *)
Theorem no_speech_no_utterance (frame : Type) (read : nat -> frame)
    (is_speech : frame -> bool) (stopped : nat -> bool)
    (max_frames silence_limit : nat) :
  silent_between read is_speech 0 max_frames ->
  captured_frames read is_speech stopped max_frames silence_limit = None.
Proof.
  intros Hs.
  destruct (captured_frames read is_speech stopped max_frames silence_limit)
    as [frames|] eqn:E; [|reflexivity].
  apply captured_utterance in E.
  destruct E as [[start [stop [_ [Hlt [Hsp _]]]]] _].
  rewrite Hs in Hsp by lia. discriminate.
Qed.

Lemma no_speech_no_utterance_witness :
  captured_frames (fun i : nat => i) (fun _ : nat => false) (fun _ => false)
    2000 50
  = None.
Proof.
  apply no_speech_no_utterance. intros j Hj. reflexivity.
Defined.

(* ================================================================== *)
(** * What thread 1 puts on the sentences channel *)
(* ================================================================== *)

Section Emission.

Variable W : Z.

Lemma emits_refl (p : StreamingPipeline) : emits p p [] false.
Proof. unfold emits. simpl. rewrite app_nil_r. repeat split. constructor. Qed.

Lemma emits_trans (p p1 p2 : StreamingPipeline) (s1 s2 : list str)
    (closed : bool) :
  emits p p1 s1 false -> emits p1 p2 s2 closed ->
  emits p p2 (s1 ++ s2) closed.
Proof.
  intros [A1 [A2 [A3 A4]]] [B1 [B2 [B3 B4]]]. unfold emits.
  repeat split; try congruence.
  - rewrite B3, A3. simpl. rewrite app_nil_r, map_app. now rewrite <- !app_assoc.
  - apply Forall_app. now split.
Qed.

Lemma strip_nonempty (s : str) : nonempty (str_strip s) = true -> s <> [].
Proof. intros H E. subst. discriminate. Qed.

Lemma emits_emit_all (sents : list str) (p : StreamingPipeline) :
  exists out, emits p (emit_all p sents) out false.
Proof.
  revert p. induction sents as [|sent sents IH]; intros p; simpl.
  - exists []. apply emits_refl.
  - destruct (nonempty (str_strip sent) && negb (cancel p)) eqn:C; [|apply IH].
    apply andb_prop in C. destruct C as [C _].
    destruct (IH (set_full_response (full_response p ++ sent ++ lit " ")
                    (put_sentence (Some sent) p))) as [out E].
    exists ([sent] ++ out). eapply emits_trans; [|exact E].
    unfold emits. simpl. repeat split.
    constructor; [now apply strip_nonempty | constructor].
Qed.

Lemma emits_emit (p : StreamingPipeline) (buf : str) :
  exists out, emits p (fst (_emit_sentences p buf)) out false.
Proof.
  unfold _emit_sentences.
  destruct (1 <? List.length (split_into_sentences (format_for_speech buf))).
  - apply emits_emit_all.
  - exists []. apply emits_refl.
Qed.

Lemma emits_flush (p : StreamingPipeline) (buf : str) :
  exists out, emits p (_flush_buffer p buf) out false.
Proof.
  unfold _flush_buffer.
  destruct (nonempty (str_strip buf) && negb (cancel p));
    [|exists []; apply emits_refl].
  destruct (format_for_speech buf) as [|c cleaned] eqn:F;
    [exists []; apply emits_refl|].
  exists [c :: cleaned]. unfold emits. simpl. repeat split.
  constructor; [discriminate | constructor].
Qed.

Lemma emits_process (p : StreamingPipeline) (buf : str) (rcd : bool) :
  (snd (_process_token_buffer W p buf rcd) = false
   /\ fst (_process_token_buffer W p buf rcd) = p)
  \/ (snd (_process_token_buffer W p buf rcd) = true
      /\ exists sentinel,
           emits p (fst (_process_token_buffer W p buf rcd)) [sentinel] true).
Proof.
  unfold _process_token_buffer.
  destruct rcd; [now left|].
  destruct (len buf >? W + 50)%Z; [now left|].
  destruct (match_route_ws buf) as [[agent_id rest]|]; [|now left].
  right. split; [reflexivity|].
  exists (route_sentinel agent_id (str_strip rest)).
  unfold emits. simpl. rewrite <- app_assoc. repeat split.
  constructor; [discriminate | constructor].
Qed.

Lemma exit_emits_trans (p p1 : StreamingPipeline) (s1 : list str)
    (r : loop_exit) :
  emits p p1 s1 false -> exit_emits p1 r -> exit_emits p r.
Proof.
  intros E [out R]. exists (s1 ++ out).
  destruct r; eapply emits_trans; eassumption.
Qed.

Lemma cancel_of_emits (p p' : StreamingPipeline) (out : list str) (c : bool) :
  emits p p' out c -> cancel p = false -> cancel p' = false.
Proof. intros [E _] H. congruence. Qed.

Lemma emits_ollama_loop (lines : list ollama_line)
    (ending : option httpx_error) (p : StreamingPipeline) (buf : str)
    (rcd : bool) :
  cancel p = false ->
  exit_emits p (ollama_loop W p buf rcd lines ending).
Proof.
  revert p buf rcd.
  induction lines as [|line rest IH]; intros p buf rcd Hc; simpl.
  - destruct ending; exists []; apply emits_refl.
  - rewrite Hc.
    destruct line as [| |token done]; try (now apply IH).
    destruct (nonempty token); simpl negb; cbv iota.
    + destruct (emits_process p (buf ++ token) rcd) as [[Hs Hf]|[Hs [sentinel Hf]]];
        destruct (_process_token_buffer W p (buf ++ token) rcd) as [p1 found];
        simpl in Hs, Hf; subst found.
      * subst p1.
        destruct (emits_emit p (buf ++ token)) as [out E].
        destruct (_emit_sentences p (buf ++ token)) as [p2 buf2].
        simpl in E. destruct done.
        -- exists out. exact E.
        -- eapply exit_emits_trans; [exact E|].
           apply IH. eapply cancel_of_emits; eassumption.
      * exists [sentinel]. exact Hf.
    + destruct done; [exists []; apply emits_refl | now apply IH].
Qed.

Lemma emits_cloud_loop (lines : list cloud_line)
    (ending : option httpx_error) (p : StreamingPipeline) (buf : str)
    (rcd : bool) :
  cancel p = false ->
  exit_emits p (cloud_loop W p buf rcd lines ending).
Proof.
  revert p buf rcd.
  induction lines as [|line rest IH]; intros p buf rcd Hc; simpl.
  - destruct ending; exists []; apply emits_refl.
  - rewrite Hc.
    destruct line as [| | | |token fin]; try (now apply IH);
      try (exists []; apply emits_refl).
    destruct (nonempty token); simpl negb; cbv iota.
    + destruct (emits_process p (buf ++ token) rcd) as [[Hs Hf]|[Hs [sentinel Hf]]];
        destruct (_process_token_buffer W p (buf ++ token) rcd) as [p1 found];
        simpl in Hs, Hf; subst found.
      * subst p1.
        destruct (emits_emit p (buf ++ token)) as [out E].
        destruct (_emit_sentences p (buf ++ token)) as [p2 buf2].
        simpl in E.
        eapply exit_emits_trans; [exact E|].
        apply IH. eapply cancel_of_emits; eassumption.
      * exists [sentinel]. exact Hf.
    + destruct fin; [exists []; apply emits_refl | now apply IH].
Qed.

Lemma emits_finish (p : StreamingPipeline) (r : loop_exit) :
  exit_emits p r ->
  exists out, emits p (fst (finish_stream r)) out (snd (finish_stream r)).
Proof.
  intros [out E]. destruct r as [p'|p' buf|p' e]; simpl.
  - now exists out.
  - destruct (emits_flush p' buf) as [out' F].
    exists ((out ++ out') ++ []).
    eapply emits_trans; [eapply emits_trans; eassumption|].
    unfold emits. simpl. repeat split. constructor.
  - now exists out.
Qed.

(** An attempt returns [True] exactly when it has closed the channel. *)
Lemma emits_try_ollama (p : StreamingPipeline) (resp : response ollama_line) :
  cancel p = false ->
  exists out,
    emits p (fst (_try_ollama_stream W p resp)) out
      (snd (_try_ollama_stream W p resp)).
Proof.
  intros Hc. unfold _try_ollama_stream.
  destruct resp as [e|ok lines ending]; [exists []; apply emits_refl|].
  destruct ok; [|exists []; apply emits_refl].
  apply emits_finish. now apply emits_ollama_loop.
Qed.

Lemma emits_try_cloud (p : StreamingPipeline) (provider : Provider)
    (resp : response cloud_line) :
  cancel p = false ->
  exists out,
    emits p (fst (_try_cloud_stream W p provider resp)) out
      (snd (_try_cloud_stream W p provider resp)).
Proof.
  intros Hc. unfold _try_cloud_stream.
  destruct (str_eqb (compatible provider) (lit "google"));
    [exists []; apply emits_refl|].
  destruct resp as [e|ok lines ending]; [exists []; apply emits_refl|].
  destruct ok; [|exists []; apply emits_refl].
  apply emits_finish. now apply emits_cloud_loop.
Qed.

Lemma emits_fallbacks (cloud : Provider -> response cloud_line)
    (providers : list Provider) (p : StreamingPipeline) :
  cancel p = false ->
  exists out,
    emits p (fst (try_fallbacks W cloud p providers)) out
      (snd (try_fallbacks W cloud p providers)).
Proof.
  revert p. induction providers as [|provider rest IH]; intros p Hc; simpl.
  - exists []. apply emits_refl.
  - rewrite Hc.
    destruct (emits_try_cloud p provider (cloud provider) Hc) as [out E].
    destruct (_try_cloud_stream W p provider (cloud provider)) as [p1 ok].
    simpl in E. destruct ok; [now exists out|].
    destruct (IH p1 (cancel_of_emits E Hc)) as [out' E'].
    exists (out ++ out'). eapply emits_trans; eassumption.
Qed.

Lemma emits_stream (chain : list Provider) (ollama : response ollama_line)
    (cloud : Provider -> response cloud_line) (p : StreamingPipeline) :
  cancel p = false ->
  exists out, emits p (_stream_from_ollama W chain ollama cloud p) out true.
Proof.
  intros Hc. unfold _stream_from_ollama.
  destruct (emits_try_ollama p ollama Hc) as [out E].
  destruct (_try_ollama_stream W p ollama) as [p1 ok]. simpl in E.
  destruct ok; [now exists out|].
  pose proof (cancel_of_emits E Hc) as Hc1.
  assert (F : exists out',
             emits p1
               (fst (if nonempty chain && negb (cancel p1)
                     then try_fallbacks W cloud p1 chain else (p1, false)))
               out'
               (snd (if nonempty chain && negb (cancel p1)
                     then try_fallbacks W cloud p1 chain else (p1, false)))).
  { destruct (nonempty chain && negb (cancel p1));
      [now apply emits_fallbacks | exists []; apply emits_refl]. }
  destruct F as [out' F].
  destruct (if nonempty chain && negb (cancel p1)
            then try_fallbacks W cloud p1 chain else (p1, false)) as [p2 ok2].
  simpl in F. destruct ok2.
  - exists (out ++ out'). eapply emits_trans; eassumption.
  - rewrite (cancel_of_emits F Hc1). simpl negb. cbv iota.
    exists ((out ++ out') ++ [APOLOGY]).
    eapply emits_trans; [eapply emits_trans; eassumption|].
    unfold emits. simpl. rewrite <- app_assoc. repeat split.
    constructor; [discriminate | constructor].
Qed.

End Emission.

(** Thread 1 of a run that is not cancelled closes the sentences channel:
    whatever the providers answer, it emits sentences, none of them empty,
    and then the end-of-stream marker, once and last; it leaves the audio
    queue and the flag alone. *)
Theorem stream_always_ends_the_channel (W : Z) (chain : list Provider)
    (ollama : response ollama_line) (cloud : Provider -> response cloud_line)
    (p : StreamingPipeline) :
  cancel p = false ->
  exists sentences,
    sentence_queue (_stream_from_ollama W chain ollama cloud p)
    = sentence_queue p ++ map Some sentences ++ [None]
    /\ Forall (fun sentence => sentence <> []) sentences
    /\ audio_queue (_stream_from_ollama W chain ollama cloud p) = audio_queue p
    /\ cancel (_stream_from_ollama W chain ollama cloud p) = false.
Proof.
  intros Hc.
  destruct (@emits_stream W chain ollama cloud p Hc) as [out [E1 [E2 [E3 E4]]]].
  exists out. repeat split; try assumption. congruence.
Qed.

Lemma stream_always_ends_the_channel_witness :
  exists sentences,
    sentence_queue
      (_stream_from_ollama 50 [GROQ]
         (Streams true [OMessage LONG_OPENING false] (Some TimeoutException))
         (fun _ => Streams true [CDelta (lit "All right. Done") true] None)
         fresh)
    = sentence_queue fresh ++ map Some sentences ++ [None]
    /\ Forall (fun sentence => sentence <> []) sentences.
Proof.
  destruct (@stream_always_ends_the_channel 50 [GROQ]
              (Streams true [OMessage LONG_OPENING false] (Some TimeoutException))
              (fun _ => Streams true [CDelta (lit "All right. Done") true] None)
              fresh eq_refl) as [sentences [H1 [H2 _]]].
  exists sentences. split; assumption.
Defined.

(** A provider attempt returns [True] exactly when it has put the
    end-of-stream marker: a failed attempt, local or cloud, leaves the
    channel open after the sentences it had emitted, so that the next
    provider, or the apology, follows on the same channel. *)
Theorem attempt_closes_channel_iff_success (W : Z) (p : StreamingPipeline)
    (ollama : response ollama_line) (provider : Provider)
    (cloud : response cloud_line) :
  cancel p = false ->
  (exists sentences,
      sentence_queue (fst (_try_ollama_stream W p ollama))
      = sentence_queue p ++ map Some sentences
        ++ (if snd (_try_ollama_stream W p ollama) then [None] else []))
  /\ (exists sentences,
         sentence_queue (fst (_try_cloud_stream W p provider cloud))
         = sentence_queue p ++ map Some sentences
           ++ (if snd (_try_cloud_stream W p provider cloud) then [None] else [])).
Proof.
  intros Hc. split.
  - destruct (@emits_try_ollama W p ollama Hc) as [out [_ [_ [E _]]]].
    now exists out.
  - destruct (@emits_try_cloud W p provider cloud Hc) as [out [_ [_ [E _]]]].
    now exists out.
Qed.

Lemma attempt_closes_channel_iff_success_witness :
  exists sentences,
    sentence_queue
      (fst (_try_ollama_stream 50 fresh
              (Streams true [OMessage LONG_OPENING false] (Some TimeoutException))))
    = sentence_queue fresh ++ map Some sentences
      ++ (if snd (_try_ollama_stream 50 fresh
                    (Streams true [OMessage LONG_OPENING false]
                       (Some TimeoutException)))
          then [None] else []).
Proof.
  exact (proj1 (@attempt_closes_channel_iff_success 50 fresh
                  (Streams true [OMessage LONG_OPENING false] (Some TimeoutException))
                  GROQ (RequestRaises ConnectError) eq_refl)).
Defined.



(* ================================================================== *)
(** * From the detected route to the routed turn *)
(* ================================================================== *)

Lemma startswith_app (p s : str) : startswith p (p ++ s) = true.
Proof.
  induction p as [|c p IH]; [reflexivity|].
  simpl. now rewrite Ascii.eqb_refl, IH.
Qed.

Lemma take_while_forall (f : ascii -> bool) (s : str) :
  forallb f (take_while f s) = true.
Proof.
  induction s as [|c s IH]; [reflexivity|].
  simpl. destruct (f c) eqn:F; [|reflexivity]. simpl. now rewrite F, IH.
Qed.

Lemma take_drop_until (f : ascii -> bool) (a : str) (c : ascii) (r : str) :
  forallb f a = true -> f c = false ->
  take_while f (a ++ c :: r) = a /\ drop_while f (a ++ c :: r) = c :: r.
Proof.
  intros Ha Hc. induction a as [|x a IH]; simpl.
  - now rewrite Hc.
  - simpl in Ha. apply andb_prop in Ha. destruct Ha as [Hx Ha].
    rewrite Hx. destruct (IH Ha) as [T D]. now rewrite T, D.
Qed.

Lemma lstrip_strip (s : str) : str_lstrip (str_strip s) = str_strip s.
Proof. unfold str_strip. apply lstrip_rstrip, lstrip_idempotent. Qed.

(** The marker written by [_process_token_buffer] is read back by the
    pattern of [_handle_turn] as the same agent and the same query. *)
Lemma marker_round_trip (buf agent_id rest : str) :
  match_route_ws buf = Some (agent_id, rest) ->
  match_route (lit "[ROUTE:" ++ agent_id ++ lit "] " ++ str_strip rest)
  = Some (agent_id, str_strip rest).
Proof.
  unfold match_route_ws. intros M.
  assert (A : agent_id <> [] /\ forallb is_agent_char agent_id = true).
  { unfold match_route in M.
    destruct (startswith (lit "[ROUTE:") (str_lstrip buf)); [|discriminate].
    pose proof (take_while_forall is_agent_char (skipn 7 (str_lstrip buf))) as F.
    destruct (take_while is_agent_char (skipn 7 (str_lstrip buf)))
      as [|a0 agent] eqn:T; [discriminate|].
    destruct (drop_while is_agent_char (skipn 7 (str_lstrip buf)))
      as [|c s2]; [discriminate|].
    destruct (Ascii.eqb c "]"); [|discriminate].
    inversion M; subst. split; [discriminate | exact F]. }
  destruct A as [Hne Hall].
  unfold match_route. rewrite startswith_app.
  change (skipn 7 (lit "[ROUTE:" ++ agent_id ++ lit "] " ++ str_strip rest))
    with (agent_id ++ "]"%char :: " "%char :: str_strip rest).
  destruct (@take_drop_until is_agent_char agent_id "]"%char
              (" "%char :: str_strip rest) Hall eq_refl) as [T D].
  rewrite T, D. destruct agent_id as [|a0 agent]; [contradiction|].
  change (Ascii.eqb "]" "]") with true. cbv iota.
  change (str_lstrip (" "%char :: str_strip rest))
    with (str_lstrip (str_strip rest)).
  now rewrite lstrip_strip.
Qed.

(** When [_process_token_buffer] detects a route, the response it records
    is read back by [_handle_turn] as the agent and the refined query that
    the routing sentinel carries; the query is already stripped. *)
Theorem detected_route_is_read_back (W : Z) (p : StreamingPipeline)
    (buf : str) (rcd : bool) :
  snd (_process_token_buffer W p buf rcd) = true ->
  exists agent_id refined_query,
    match_route (full_response (fst (_process_token_buffer W p buf rcd)))
    = Some (agent_id, refined_query)
    /\ str_strip refined_query = refined_query
    /\ sentence_queue (fst (_process_token_buffer W p buf rcd))
       = sentence_queue p
         ++ [Some (route_sentinel agent_id refined_query); None].
Proof.
  unfold _process_token_buffer.
  destruct rcd; [discriminate|].
  destruct (len buf >? W + 50)%Z; [discriminate|].
  destruct (match_route_ws buf) as [[agent_id rest]|] eqn:M; [|discriminate].
  intros _. exists agent_id, (str_strip rest).
  cbn [fst full_response put_sentence set_full_response sentence_queue].
  split; [now apply marker_round_trip with (buf := buf)|].
  split; [apply strip_idempotent|].
  now rewrite <- app_assoc.
Qed.

Lemma detected_route_is_read_back_witness :
  exists agent_id refined_query,
    match_route
      (full_response
         (fst (_process_token_buffer 50 fresh
                 (lit "  [ROUTE:print-designer]   a vase, 10 cm  ") false)))
    = Some (agent_id, refined_query)
    /\ str_strip refined_query = refined_query
    /\ sentence_queue
         (fst (_process_token_buffer 50 fresh
                 (lit "  [ROUTE:print-designer]   a vase, 10 cm  ") false))
       = sentence_queue fresh
         ++ [Some (route_sentinel agent_id refined_query); None].
Proof.
  apply detected_route_is_read_back. reflexivity.
Defined.

(** Whatever the providers and the specialist agent answer, a turn leaves
    in memory the user's turn and at most one assistant turn after it, and
    that assistant turn is never empty and never an error marker. *)
Theorem turn_never_stores_an_error (W : Z) (chain : list Provider)
    (ollama : response ollama_line) (cloud : Provider -> response cloud_line)
    (send_to_agent : str -> str -> option str)
    (m : ConversationMemory) (p : StreamingPipeline) (text : str) :
  let m' := fst (_handle_turn W chain ollama cloud send_to_agent m p text) in
  m' = add_user text m
  \/ exists reply,
       m' = add_assistant reply (add_user text m)
       /\ reply <> []
       /\ startswith (lit "[error:") reply = false.
Proof.
  cbv zeta. unfold _handle_turn.
  destruct (run W chain ollama cloud p) as [p' response].
  destruct (match_route response) as [[agent_id rest]|].
  - cbn [fst]. unfold _handle_routing.
    destruct (send_to_agent agent_id _) as [agent_response|]; [|now left].
    destruct (nonempty agent_response); [|now left].
    right. eexists. split; [reflexivity|]. split; [discriminate | reflexivity].
  - destruct (nonempty response) eqn:N; [|now left].
    destruct (startswith (lit "[error:") response) eqn:E; [now left|].
    right. exists response. cbn [fst]. repeat split; [|exact E].
    intros Z0. subst. discriminate.
Qed.

(* ================================================================== *)
(** * Further properties of the sentence splitter *)
(* ================================================================== *)

Lemma scan_words_step (word : str) (rest sentences current : list str) :
  scan_words (word :: rest) sentences current
  = if is_boundary word rest
    then scan_words rest (close_sentence sentences (current ++ [word])) []
    else scan_words rest sentences (current ++ [word]).
Proof.
  unfold is_boundary. cbn [scan_words].
  destruct (ends_sentence word); [|reflexivity].
  destruct (in_abbreviations _); [reflexivity|].
  destruct (last_char_is "." word && next_starts_with_digit rest);
    [reflexivity|].
  destruct (last_char_is "." word && str_isdigit _); reflexivity.
Qed.

Lemma is_boundary_next (word next : str) (rest : list str) :
  is_boundary word (next :: rest) = is_boundary word [next].
Proof. reflexivity. Qed.

Lemma quiet_snoc (group : list str) (word next : str) :
  quiet (group ++ [word]) = true -> is_boundary word [next] = false ->
  quiet (group ++ [word; next]) = true.
Proof.
  intros Q B. induction group as [|w group IH].
  - simpl. now rewrite B.
  - destruct group as [|w' group].
    + simpl in *. rewrite B. simpl. now rewrite andb_true_r in *.
    + change ((w :: w' :: group) ++ [word]) with (w :: (w' :: group) ++ [word]) in Q.
      change ((w :: w' :: group) ++ [word; next])
        with (w :: (w' :: group) ++ [word; next]).
      cbn [quiet app] in Q |- *. apply andb_prop in Q. destruct Q as [Q1 Q2].
      rewrite Q1. simpl. apply IH. exact Q2.
Qed.

(** The loop cuts the words into groups as [scan_words_groups] tells; in
    addition no group has a boundary inside, and every group but the last
    ends with a word that ends a sentence. *)
Lemma scan_words_cut (words sentences current : list str) :
  Forall plain_word words -> Forall plain_word current ->
  quiet (current ++ firstn 1 words) = true ->
  exists groups,
    scan_words words sentences current
    = sentences ++ map (str_join (lit " ")) groups
    /\ List.concat groups = current ++ words
    /\ Forall (fun g => g <> [] /\ Forall plain_word g /\ quiet g = true) groups
    /\ Forall (fun g => ends_sentence (last g []) = true) (removelast groups).
Proof.
  revert sentences current.
  induction words as [|word rest IH]; intros sentences current Hws Hcur Q.
  - simpl in Q. rewrite app_nil_r in Q. simpl.
    destruct current as [|w current].
    + exists []. simpl. rewrite app_nil_r. repeat split; constructor.
    + exists [w :: current]. simpl nonempty. cbv iota.
      rewrite close_sentence_words by (assumption || discriminate).
      simpl. rewrite !app_nil_r. repeat split; try constructor.
      * repeat split; [discriminate | assumption | assumption].
      * constructor.
  - inversion Hws as [|? ? Hw Hrest]; subst.
    assert (Hcur' : Forall plain_word (current ++ [word])).
    { apply Forall_app. split; [assumption|]. now constructor. }
    cbn [firstn] in Q.
    rewrite scan_words_step.
    destruct (is_boundary word rest) eqn:B.
    + destruct (IH (close_sentence sentences (current ++ [word])) []
                  Hrest (Forall_nil _)) as [groups [E [C [N L]]]].
      { destruct rest as [|x [|y rest]]; reflexivity. }
      exists ((current ++ [word]) :: groups).
      rewrite E, close_sentence_words
        by (assumption || (destruct current; discriminate)).
      simpl in C. simpl List.concat. rewrite C, <- !app_assoc.
      repeat split.
      * constructor; [|exact N].
        repeat split; [destruct current; discriminate | assumption | assumption].
      * destruct groups as [|g groups]; [constructor|].
        change (removelast ((current ++ [word]) :: g :: groups))
          with ((current ++ [word]) :: removelast (g :: groups)).
        constructor; [|exact L].
        rewrite last_last. unfold is_boundary in B.
        destruct (ends_sentence word); [reflexivity | discriminate].
    + destruct (IH sentences (current ++ [word]) Hrest Hcur')
        as [groups [E [C [N L]]]].
      { destruct rest as [|next rest]; [now rewrite app_nil_r|].
        cbn [firstn]. rewrite <- app_assoc. apply quiet_snoc; [assumption|].
        now rewrite <- (is_boundary_next word next rest). }
      exists groups. rewrite <- app_assoc in C. now repeat split.
Qed.

(** A group without a boundary inside is one sentence. *)
Lemma scan_quiet_group (words sentences current : list str) :
  Forall plain_word words -> Forall plain_word current ->
  quiet (current ++ words) = true -> current ++ words <> [] ->
  scan_words words sentences current
  = sentences ++ [str_join (lit " ") (current ++ words)].
Proof.
  revert sentences current.
  induction words as [|word rest IH]; intros sentences current Hws Hcur Q Hne.
  - rewrite app_nil_r in *. destruct current as [|w current]; [contradiction|].
    simpl nonempty. cbn [scan_words nonempty].
    now apply close_sentence_words.
  - inversion Hws as [|? ? Hw Hrest]; subst.
    assert (Hcur' : Forall plain_word (current ++ [word])).
    { apply Forall_app. split; [assumption|]. now constructor. }
    rewrite scan_words_step.
    replace (current ++ word :: rest) with ((current ++ [word]) ++ rest) in *
      by now rewrite <- app_assoc.
    destruct rest as [|next rest].
    + rewrite app_nil_r in *.
      destruct (is_boundary word []); cbn [scan_words nonempty].
      * now apply close_sentence_words.
      * replace (nonempty (current ++ [word])) with true
          by (destruct current; reflexivity).
        now apply close_sentence_words.
    + assert (B : is_boundary word (next :: rest) = false).
      { rewrite is_boundary_next. clear - Q.
        induction current as [|w current IHc].
        - simpl in Q. apply andb_prop in Q.
          now destruct (is_boundary word [next]).
        - destruct current as [|w' current].
          + simpl in Q. apply andb_prop in Q. destruct Q as [_ Q].
            apply andb_prop in Q. now destruct (is_boundary word [next]).
          + apply IHc. simpl in Q |- *. apply andb_prop in Q. tauto. }
      rewrite B. apply IH; assumption.
Qed.

Lemma split_from_word (w s cur : str) :
  Forall (fun c => isspace c = false) w ->
  split_from cur (w ++ s) = split_from (cur ++ w) s.
Proof.
  revert cur. induction w as [|c w IH]; intros cur Hw.
  - now rewrite app_nil_r.
  - inversion Hw as [|? ? Hc Hw']; subst. simpl. rewrite Hc.
    rewrite IH by assumption. now rewrite <- app_assoc.
Qed.

(** [split] undoes [join]: words joined by single spaces split back into
    the same words. *)
Lemma split_join_words (ws : list str) :
  Forall plain_word ws -> str_split (str_join (lit " ") ws) = ws.
Proof.
  unfold str_split. induction 1 as [|w ws [Hne Hw] Hws IH]; [reflexivity|].
  destruct ws as [|w' ws].
  - simpl. rewrite <- (app_nil_r w) at 1.
    rewrite split_from_word by assumption. simpl.
    destruct w; [contradiction | reflexivity].
  - rewrite join_cons by discriminate.
    rewrite split_from_word by assumption.
    destruct w as [|c0 w0]; [contradiction|].
    change (split_from ([] ++ c0 :: w0)
              (lit " " ++ str_join (lit " ") (w' :: ws)))
      with ((c0 :: w0) :: split_from [] (str_join (lit " ") (w' :: ws))).
    now rewrite IH.
Qed.

Lemma last_char_join (ws : list str) :
  ws <> [] -> Forall plain_word ws ->
  last_char (str_join (lit " ") ws) = last_char (last ws []).
Proof.
  intros Hne Hws. destruct (exists_last Hne) as [ws' [w E]]. subst ws.
  rewrite last_last. apply Forall_app in Hws. destruct Hws as [_ Hw].
  inversion Hw as [|? ? [Hwne _] _]; subst.
  destruct (exists_last Hwne) as [w' [c E]]. subst w.
  destruct ws' as [|w0 ws'].
  - reflexivity.
  - rewrite join_snoc by discriminate.
    unfold last_char. rewrite !app_assoc, !rev_app_distr. reflexivity.
Qed.

Lemma sentences_of_text (text : str) :
  exists groups,
    split_into_sentences text = map (str_join (lit " ")) groups
    /\ List.concat groups = str_split text
    /\ Forall (fun g => g <> [] /\ Forall plain_word g /\ quiet g = true) groups
    /\ Forall (fun g => ends_sentence (last g []) = true) (removelast groups).
Proof.
  unfold split_into_sentences.
  destruct (nonempty (str_strip text)) eqn:Hs; simpl negb; cbv iota.
  - destruct (@scan_words_cut (str_split text) [] [] (split_words text)
                (Forall_nil _)) as [groups [E [C [N L]]]].
    { destruct (str_split text) as [|x [|y rest]]; reflexivity. }
    exists groups. simpl in E, C. now repeat split.
  - exists []. repeat split; try constructor.
    symmetry. apply split_nil_iff, strip_nil_iff.
    destruct (str_strip text); [reflexivity | discriminate].
Qed.

Lemma sentence_stable (text sentence : str) :
  In sentence (split_into_sentences text) ->
  split_into_sentences sentence = [sentence]
  /\ str_strip sentence = sentence
  /\ sentence <> [].
Proof.
  intros Hin. destruct (sentences_of_text text) as [groups [E [_ [N _]]]].
  rewrite E in Hin. apply in_map_iff in Hin. destruct Hin as [g [Eg Hg]].
  rewrite Forall_forall in N. destruct (N g Hg) as [Hne [Hws Q]].
  destruct (strip_join_words Hne Hws) as [S Sne]. subst sentence.
  split; [|split; [exact S | exact Sne]].
  unfold split_into_sentences. rewrite S.
  assert (Nn : nonempty (str_join (lit " ") g) = true)
    by (destruct (str_join (lit " ") g); [contradiction | reflexivity]).
  rewrite Nn. cbn [negb]. rewrite split_join_words by assumption.
  now apply (@scan_quiet_group g [] []).
Qed.

(** Every sentence the splitter returns is one sentence for the splitter:
    split again, it comes back as it is.  It has no whitespace at either
    end, so [strip] leaves it unchanged too. *)
Theorem sentences_are_stable (text sentence : str) :
  In sentence (split_into_sentences text) ->
  split_into_sentences sentence = [sentence]
  /\ str_strip sentence = sentence.
Proof.
  intros Hin. destruct (sentence_stable text sentence Hin) as [A [B _]].
  now split.
Qed.

Lemma sentences_are_stable_witness :
  split_into_sentences (lit "Dr. Smith paid 3.50 dollars on Jan. 3. Bye")
  = [lit "Dr. Smith paid 3.50 dollars on Jan. 3. Bye"].
Proof.
  refine (proj1 (@sentences_are_stable
                   (lit "Hello.   Dr. Smith paid 3.50 dollars on Jan. 3. Bye")
                   _ _)).
  vm_compute. right. left. reflexivity.
Defined.

(** A sentence ends only where a word ends with [.], [!] or [?]: every
    sentence but the last ends with one of these characters. *)
Theorem sentences_end_with_punctuation (text : str) :
  Forall (fun sentence => ends_sentence sentence = true)
    (removelast (split_into_sentences text)).
Proof.
  destruct (sentences_of_text text) as [groups [E [_ [N L]]]].
  rewrite E. clear E.
  induction groups as [|g groups IH]; [constructor|].
  destruct groups as [|g' groups]; [constructor|].
  change (removelast (map (str_join (lit " ")) (g :: g' :: groups)))
    with (str_join (lit " ") g
          :: removelast (map (str_join (lit " ")) (g' :: groups))).
  change (removelast (g :: g' :: groups))
    with (g :: removelast (g' :: groups)) in L.
  inversion N as [|? ? [Hne [Hws _]] N']; subst.
  inversion L as [|? ? Hend L']; subst.
  constructor; [|now apply IH].
  unfold ends_sentence in *. now rewrite last_char_join.
Qed.

(* ================================================================== *)
(** * Sentence emission *)
(* ================================================================== *)

Lemma emit_all_everything (sents : list str) (p : StreamingPipeline) :
  cancel p = false ->
  Forall (fun s => str_strip s = s /\ s <> []) sents ->
  emit_all p sents
  = mkPipeline false (sentence_queue p ++ map Some sents) (audio_queue p)
      (full_response p ++ flat_map (fun s => s ++ lit " ") sents).
Proof.
  revert p. induction sents as [|sent sents IH]; intros p Hc Hs.
  - simpl. rewrite !app_nil_r. destruct p. simpl in Hc. now subst.
  - inversion Hs as [|? ? [S N] Hs']; subst. cbn [emit_all].
    rewrite S, Hc.
    replace (nonempty sent) with true by (destruct sent; [contradiction | reflexivity]).
    cbn [andb negb]. rewrite IH by assumption.
    cbn [sentence_queue audio_queue full_response put_sentence
         set_full_response map flat_map].
    now rewrite <- !app_assoc.
Qed.

Lemma removelast_incl {A : Type} (l : list A) (x : A) :
  In x (removelast l) -> In x l.
Proof.
  induction l as [|a l IH]; [contradiction|].
  destruct l as [|b l]; [contradiction|].
  intros [H|H]; [now left | right; now apply IH].
Qed.

(** When the cleaned buffer holds more than one sentence and the run is not
    cancelled, [_emit_sentences] loses and reorders nothing: the sentences
    it emits followed by the remainder it returns are the sentences of the
    cleaned buffer; the response grows by each emitted sentence and a
    space; and the remainder is itself one sentence. *)
Theorem emit_keeps_every_sentence (p : StreamingPipeline) (buf : str) :
  cancel p = false ->
  (1 < List.length (split_into_sentences (format_for_speech buf)))%nat ->
  let sentences := split_into_sentences (format_for_speech buf) in
  let after := fst (_emit_sentences p buf) in
  let remainder := snd (_emit_sentences p buf) in
  sentence_queue after ++ [Some remainder]
  = sentence_queue p ++ map Some sentences
  /\ full_response after
     = full_response p
       ++ flat_map (fun s => s ++ lit " ") (removelast sentences)
  /\ split_into_sentences remainder = [remainder]
  /\ audio_queue after = audio_queue p.
Proof.
  intros Hc Hlen. cbv zeta. unfold _emit_sentences.
  apply Nat.ltb_lt in Hlen. rewrite Hlen. cbn [fst snd].
  set (S := split_into_sentences (format_for_speech buf)) in *.
  assert (Hne : S <> []) by (apply Nat.ltb_lt in Hlen; destruct S; [simpl in Hlen; lia | discriminate]).
  assert (All : Forall (fun s => str_strip s = s /\ s <> []) (removelast S)).
  { apply Forall_forall. intros s Hs. apply removelast_incl in Hs.
    destruct (sentence_stable _ _ Hs) as [_ [A B]]. now split. }
  rewrite emit_all_everything by assumption.
  cbn [sentence_queue full_response audio_queue].
  repeat split.
  - rewrite <- app_assoc. f_equal.
    change [Some (last S [])] with (map Some [last S []]).
    rewrite <- map_app. f_equal. symmetry. now apply app_removelast_last.
  - destruct (exists_last Hne) as [S' [x E]].
    assert (Hin : In (last S []) S).
    { rewrite E, last_last. apply in_or_app. right. now left. }
    now destruct (sentence_stable _ _ Hin) as [A _].
Qed.

Lemma emit_keeps_every_sentence_witness :
  let p := mkPipeline false [Some (lit "Hi.")] [] (lit "Hi. ") in
  let buf := lit "It is **late**.  Dr. Who left. So" in
  sentence_queue (fst (_emit_sentences p buf))
  ++ [Some (snd (_emit_sentences p buf))]
  = [Some (lit "Hi."); Some (lit "It is late."); Some (lit "Dr. Who left.");
     Some (lit "So")].
Proof.
  cbv zeta.
  refine (proj1 (@emit_keeps_every_sentence
                   (mkPipeline false [Some (lit "Hi.")] [] (lit "Hi. "))
                   (lit "It is **late**.  Dr. Who left. So") _ _)).
  - reflexivity.
  - vm_compute. lia.
Defined.

(* ================================================================== *)
(** * Text cleaned for speech *)
(* ================================================================== *)

Lemma replace_from_absent (x : ascii) (old new : str) (k : nat) (s : str) :
  ~ In x s -> ~ In x new -> ~ In x (replace_from old new k s).
Proof.
  intros Hs Hn. revert k. induction s as [|c s IH]; intros k; simpl; [tauto|].
  assert (Hs' : ~ In x s) by (intros H; apply Hs; now right).
  destruct k as [|k]; [|now apply IH].
  destruct (startswith old (c :: s)).
  - intros H. apply in_app_or in H. destruct H as [H|H]; [tauto|].
    revert H. now apply IH.
  - intros [H|H]; [apply Hs; now left | revert H; now apply IH].
Qed.

Lemma replace_absent (x : ascii) (old new s : str) :
  ~ In x s -> ~ In x new -> ~ In x (str_replace old new s).
Proof.
  intros Hs Hn. unfold str_replace. destruct old as [|o old].
  - intros H. apply in_app_or in H. destruct H as [H|H]; [tauto|].
    apply in_flat_map in H. destruct H as [c [Hc [H|H]]]; [subst; tauto | tauto].
  - now apply replace_from_absent.
Qed.

(** Replacing a character by a text without it removes it. *)
Lemma replace_char_removes (x : ascii) (new s : str) :
  ~ In x new -> ~ In x (str_replace [x] new s).
Proof.
  intros Hn. unfold str_replace.
  induction s as [|c s IH]; simpl; [tauto|].
  destruct (Ascii.eqb_spec x c) as [->|Hne]; simpl.
  - intros H. apply in_app_or in H. tauto.
  - intros [H|H]; [congruence | tauto].
Qed.

Lemma collapse_periods_absent (x : ascii) (s : str) (pending : option str) :
  ~ In x s ->
  match pending with Some ws => ~ In x ws | None => True end ->
  ~ In x (collapse_periods pending s).
Proof.
  revert pending. induction s as [|c s IH]; intros pending Hs Hp; simpl.
  - destruct pending; tauto.
  - assert (Hs' : ~ In x s) by (intros H; apply Hs; now right).
    assert (Hc : x <> c) by (intros ->; apply Hs; now left).
    destruct pending as [ws|].
    + destruct (Ascii.eqb c "."); [apply IH; simpl; tauto|].
      destruct (isspace c).
      * apply IH; [assumption|]. intros H. apply in_app_or in H.
        destruct H as [H|[H|[]]]; [tauto | congruence].
      * intros H. apply in_app_or in H. destruct H as [H|[H|H]];
          [tauto | congruence |]. revert H. now apply IH.
    + destruct (Ascii.eqb c ".");
        (intros [H|H]; [congruence | revert H; apply IH; simpl; tauto]).
Qed.

Lemma squeeze_run_absent (x : ascii) (run : str) :
  x <> " "%char -> ~ In x run -> ~ In x (squeeze_run run).
Proof.
  intros Hx Hr. destruct run as [|a [|b run]]; simpl in *; try tauto.
  intros [H|[]]. congruence.
Qed.

Lemma collapse_spaces_absent (x : ascii) (s run : str) :
  x <> " "%char -> ~ In x s -> ~ In x run -> ~ In x (collapse_spaces run s).
Proof.
  intros Hx. revert run. induction s as [|c s IH]; intros run Hs Hr; simpl.
  - now apply squeeze_run_absent.
  - assert (Hs' : ~ In x s) by (intros H; apply Hs; now right).
    assert (Hc : x <> c) by (intros ->; apply Hs; now left).
    destruct (isspace c).
    + apply IH; [assumption|]. intros H. apply in_app_or in H.
      destruct H as [H|[H|[]]]; [tauto | congruence].
    + intros H. apply in_app_or in H. destruct H as [H|[H|H]].
      * revert H. now apply squeeze_run_absent.
      * congruence.
      * revert H. apply IH; [assumption | tauto].
Qed.

(** [strip] cuts whitespace off both ends. *)
Lemma strip_middle (s : str) :
  exists pre trail, s = pre ++ str_strip s ++ trail.
Proof.
  destruct (lstrip_suffix s) as [pre [E _]].
  destruct (rstrip_prefix (str_lstrip s)) as [trail [E' _]].
  exists pre, trail. unfold str_strip. now rewrite <- E', <- E.
Qed.

Lemma strip_absent (x : ascii) (s : str) : ~ In x s -> ~ In x (str_strip s).
Proof.
  intros Hs H. apply Hs. destruct (strip_middle s) as [pre [trail E]].
  rewrite E. apply in_or_app. right. apply in_or_app. now left.
Qed.

(** The text handed to the speech engine holds no asterisk, no hash sign,
    no backquote and no line feed, whatever the reply contains. *)
Theorem speech_text_has_no_markup (text : str) (c : ascii) :
  In c (format_for_speech text) ->
  c <> "*"%char /\ c <> "#"%char /\ c <> "`"%char /\ c <> "010"%char.
Proof.
  intros Hin.
  assert (K : forall x : ascii,
             x <> " "%char -> x <> "."%char ->
             (x = "*"%char \/ x = "#"%char \/ x = "`"%char \/ x = "010"%char) ->
             ~ In x (format_for_speech text)).
  { intros x Hsp Hdot Hx. unfold format_for_speech.
    destruct (nonempty text); simpl negb; cbv iota; [|tauto].
    assert (Hnew : ~ In x (lit ". ")).
    { simpl. intros [H|[H|[]]]; congruence. }
    set (t1 := str_replace (lit "**") [] text).
    set (t2 := str_replace (lit "*") [] t1).
    set (t3 := str_replace (lit "#") [] t2).
    set (t4 := str_replace (lit "```") [] t3).
    set (t5 := str_replace (lit "`") [] t4).
    set (t6 := str_replace (NL ++ NL) (lit ". ") t5).
    set (t7 := str_replace NL (lit ". ") t6).
    apply strip_absent, collapse_spaces_absent; [assumption | | tauto].
    apply collapse_periods_absent; [|exact I].
    assert (A2 : x = "*"%char -> ~ In x t2)
      by (intros ->; apply replace_char_removes; tauto).
    assert (A3 : x = "*"%char \/ x = "#"%char -> ~ In x t3).
    { intros [E|E].
      - apply replace_absent; [now apply A2 | tauto].
      - subst x. apply replace_char_removes. tauto. }
    assert (A5 : x = "*"%char \/ x = "#"%char \/ x = "`"%char -> ~ In x t5).
    { intros [E|[E|E]].
      - apply replace_absent; [|tauto]. apply replace_absent; [|tauto].
        apply A3. now left.
      - apply replace_absent; [|tauto]. apply replace_absent; [|tauto].
        apply A3. now right.
      - subst x. apply replace_char_removes. tauto. }
    destruct Hx as [E|[E|[E|E]]].
    - apply replace_absent; [|assumption]. apply replace_absent; [|assumption].
      apply A5. tauto.
    - apply replace_absent; [|assumption]. apply replace_absent; [|assumption].
      apply A5. tauto.
    - apply replace_absent; [|assumption]. apply replace_absent; [|assumption].
      apply A5. tauto.
    - subst x. apply (@replace_char_removes "010"%char (lit ". ") t6).
      assumption. }
  repeat split; intros ->; revert Hin; apply K; try discriminate; tauto.
Qed.

Lemma speech_text_has_no_markup_witness :
  "H"%char <> "*"%char /\ "H"%char <> "#"%char /\ "H"%char <> "`"%char
  /\ "H"%char <> "010"%char.
Proof.
  apply (@speech_text_has_no_markup (lit "## **Hi** `there`") "H"%char).
  vm_compute. left. reflexivity.
Defined.

Lemma single_spaced_app (a b : str) :
  single_spaced (a ++ b) = true ->
  single_spaced a = true /\ single_spaced b = true.
Proof.
  induction a as [|x a IH]; intros H; [now split|].
  destruct a as [|y a].
  - split; [reflexivity|]. destruct b as [|z b]; [reflexivity|].
    simpl in H. apply andb_prop in H. tauto.
  - change ((x :: y :: a) ++ b) with (x :: y :: (a ++ b)) in H.
    cbn [single_spaced] in H. apply andb_prop in H. destruct H as [H1 H2].
    destruct (IH H2) as [Ia Ib]. split; [|exact Ib].
    cbn [single_spaced]. now rewrite H1.
Qed.

Lemma single_spaced_cons (w c : ascii) (s : str) :
  isspace c = false -> single_spaced (c :: s) = true ->
  single_spaced (w :: c :: s) = true.
Proof.
  intros Hc H.
  change (negb (isspace w && isspace c) && single_spaced (c :: s) = true).
  rewrite Hc, andb_false_r. exact H.
Qed.

Lemma single_spaced_collapse (s run : str) :
  single_spaced (collapse_spaces run s) = true.
Proof.
  revert run. induction s as [|c s IH]; intros run; simpl.
  - destruct run as [|a [|b run]]; reflexivity.
  - destruct (isspace c) eqn:Hc; [apply IH|].
    assert (T : single_spaced (c :: collapse_spaces [] s) = true).
    { pose proof (IH []) as H.
      destruct (collapse_spaces [] s) as [|d r]; [reflexivity|].
      cbn [single_spaced]. rewrite Hc. exact H. }
    destruct run as [|a [|b run]]; simpl squeeze_run; simpl app.
    + exact T.
    + now apply single_spaced_cons.
    + now apply single_spaced_cons.
Qed.

(** The text handed to the speech engine has no whitespace at either end
    and no two whitespace characters in a row. *)
Theorem speech_text_is_single_spaced (text : str) :
  str_strip (format_for_speech text) = format_for_speech text
  /\ single_spaced (format_for_speech text) = true.
Proof.
  unfold format_for_speech.
  destruct (nonempty text); simpl negb; cbv iota; [|split; reflexivity].
  split; [apply strip_idempotent|].
  match goal with |- single_spaced (str_strip ?t) = true =>
    destruct (strip_middle t) as [pre [trail E]];
    pose proof (single_spaced_collapse
                  (collapse_periods None
                     (str_replace NL (lit ". ")
                        (str_replace (NL ++ NL) (lit ". ")
                           (str_replace (lit "`") []
                              (str_replace (lit "```") []
                                 (str_replace (lit "#") []
                                    (str_replace (lit "*") []
                                       (str_replace (lit "**") [] text))))))))
                  []) as H
  end.
  rewrite E in H. apply single_spaced_app in H. destruct H as [_ H].
  apply single_spaced_app in H. now destruct H.
Qed.

(* ================================================================== *)
(** * The response is what was said *)
(* ================================================================== *)

Section Response.

Variable W : Z.

Lemma says_refl (p : StreamingPipeline) : says p p [].
Proof. unfold says, spoken_text. simpl. now rewrite !app_nil_r. Qed.

Lemma spoken_text_app (a b : list str) :
  spoken_text (a ++ b) = spoken_text a ++ spoken_text b.
Proof. apply flat_map_app. Qed.

Lemma says_trans (p p1 p2 : StreamingPipeline) (s1 s2 : list str) :
  says p p1 s1 -> says p1 p2 s2 -> says p p2 (s1 ++ s2).
Proof.
  intros [A1 [A2 A3]] [B1 [B2 B3]]. unfold says.
  rewrite B1, A1, B2, A2, B3, A3, map_app, spoken_text_app.
  now rewrite <- !app_assoc.
Qed.

Lemma says_routed (p p1 p2 : StreamingPipeline) (s1 : list str) :
  says p p1 s1 -> routed p1 p2 -> routed p p2.
Proof.
  intros [A1 [A2 A3]] [before [agent_id [q [B1 B2]]]].
  exists (s1 ++ before), agent_id, q. split; [|exact B2].
  rewrite B1, A1, map_app. now rewrite <- !app_assoc.
Qed.

Lemma says_finished (p p1 p2 : StreamingPipeline) (s1 out tail : list str) :
  says p p1 s1 -> finished p1 p2 out tail -> finished p p2 (s1 ++ out) tail.
Proof.
  intros [A1 [A2 A3]] [B1 [B2 B3]]. unfold finished.
  rewrite B1, A1, B2, A2, spoken_text_app, !map_app.
  repeat split; [| |exact B3]; now rewrite <- !app_assoc.
Qed.

Lemma says_attempt (p p1 p2 : StreamingPipeline) (s1 : list str) (ok : bool) :
  says p p1 s1 -> attempt_says p1 p2 ok -> attempt_says p p2 ok.
Proof.
  intros S A. destruct ok; simpl in *.
  - destruct A as [R|[out [tail F]]].
    + left. eapply says_routed; eassumption.
    + right. exists (s1 ++ out), tail. eapply says_finished; eassumption.
  - destruct A as [out A]. exists (s1 ++ out). eapply says_trans; eassumption.
Qed.

Lemma says_emit (p : StreamingPipeline) (buf : str) :
  cancel p = false ->
  exists out, says p (fst (_emit_sentences p buf)) out.
Proof.
  intros Hc. unfold _emit_sentences.
  destruct (1 <? List.length (split_into_sentences (format_for_speech buf)));
    [|exists []; apply says_refl].
  exists (removelast (split_into_sentences (format_for_speech buf))).
  cbn [fst]. rewrite emit_all_everything; [now repeat split | assumption |].
  apply Forall_forall. intros s Hs. apply removelast_incl in Hs.
  destruct (sentence_stable _ _ Hs) as [_ [A B]]. now split.
Qed.

Lemma says_process (p : StreamingPipeline) (buf : str) (rcd : bool) :
  (snd (_process_token_buffer W p buf rcd) = false
   /\ fst (_process_token_buffer W p buf rcd) = p)
  \/ (snd (_process_token_buffer W p buf rcd) = true
      /\ routed p (fst (_process_token_buffer W p buf rcd))).
Proof.
  unfold _process_token_buffer.
  destruct rcd; [now left|].
  destruct (len buf >? W + 50)%Z; [now left|].
  destruct (match_route_ws buf) as [[agent_id rest]|]; [|now left].
  right. split; [reflexivity|].
  exists [], agent_id, (str_strip rest). simpl.
  split; [now rewrite <- app_assoc | reflexivity].
Qed.

Lemma cancel_of_says (p p' : StreamingPipeline) (out : list str) :
  says p p' out -> cancel p = false -> cancel p' = false.
Proof. intros [_ [_ E]] H. congruence. Qed.

Lemma exit_says_trans (p p1 : StreamingPipeline) (s1 : list str)
    (r : loop_exit) :
  says p p1 s1 -> exit_says p1 r -> exit_says p r.
Proof.
  intros S R. destruct r as [p'|p' b|p' e]; simpl in *.
  - eapply says_routed; eassumption.
  - destruct R as [out R]. exists (s1 ++ out). eapply says_trans; eassumption.
  - destruct R as [out R]. exists (s1 ++ out). eapply says_trans; eassumption.
Qed.

Lemma says_ollama_loop (lines : list ollama_line)
    (ending : option httpx_error) (p : StreamingPipeline) (buf : str)
    (rcd : bool) :
  cancel p = false ->
  exit_says p (ollama_loop W p buf rcd lines ending).
Proof.
  revert p buf rcd.
  induction lines as [|line rest IH]; intros p buf rcd Hc; simpl.
  - destruct ending; exists []; apply says_refl.
  - rewrite Hc.
    destruct line as [| |token done]; try (now apply IH).
    destruct (nonempty token); simpl negb; cbv iota.
    + destruct (says_process p (buf ++ token) rcd) as [[Hs Hf]|[Hs Hf]];
        destruct (_process_token_buffer W p (buf ++ token) rcd) as [p1 found];
        simpl in Hs, Hf; subst found.
      * subst p1.
        destruct (@says_emit p (buf ++ token) Hc) as [out E].
        destruct (_emit_sentences p (buf ++ token)) as [p2 buf2].
        simpl in E. destruct done.
        -- exists out. exact E.
        -- eapply exit_says_trans; [exact E|].
           apply IH. eapply cancel_of_says; eassumption.
      * exact Hf.
    + destruct done; [exists []; apply says_refl | now apply IH].
Qed.

Lemma says_cloud_loop (lines : list cloud_line)
    (ending : option httpx_error) (p : StreamingPipeline) (buf : str)
    (rcd : bool) :
  cancel p = false ->
  exit_says p (cloud_loop W p buf rcd lines ending).
Proof.
  revert p buf rcd.
  induction lines as [|line rest IH]; intros p buf rcd Hc; simpl.
  - destruct ending; exists []; apply says_refl.
  - rewrite Hc.
    destruct line as [| | | |token fin]; try (now apply IH);
      try (exists []; apply says_refl).
    destruct (nonempty token); simpl negb; cbv iota.
    + destruct (says_process p (buf ++ token) rcd) as [[Hs Hf]|[Hs Hf]];
        destruct (_process_token_buffer W p (buf ++ token) rcd) as [p1 found];
        simpl in Hs, Hf; subst found.
      * subst p1.
        destruct (@says_emit p (buf ++ token) Hc) as [out E].
        destruct (_emit_sentences p (buf ++ token)) as [p2 buf2].
        simpl in E.
        eapply exit_says_trans; [exact E|].
        apply IH. eapply cancel_of_says; eassumption.
      * exact Hf.
    + destruct fin; [exists []; apply says_refl | now apply IH].
Qed.

Lemma finished_flush (p : StreamingPipeline) (buf : str) :
  exists tail, finished p (put_sentence None (_flush_buffer p buf)) [] tail.
Proof.
  unfold _flush_buffer.
  destruct (nonempty (str_strip buf) && negb (cancel p)).
  - destruct (format_for_speech buf) as [|c cleaned].
    + exists []. unfold finished. simpl. rewrite !app_nil_r. repeat split. lia.
    + exists [c :: cleaned]. unfold finished. simpl.
      rewrite app_nil_r, <- app_assoc. repeat split. lia.
  - exists []. unfold finished. simpl. rewrite !app_nil_r. repeat split. lia.
Qed.

Lemma says_finish (p : StreamingPipeline) (r : loop_exit) :
  exit_says p r ->
  attempt_says p (fst (finish_stream r)) (snd (finish_stream r)).
Proof.
  intros E. destruct r as [p'|p' buf|p' e]; simpl in *.
  - now left.
  - right. destruct E as [out E]. destruct (finished_flush p' buf) as [tail F].
    exists (out ++ []), tail. eapply says_finished; eassumption.
  - exact E.
Qed.

Lemma says_try_ollama (p : StreamingPipeline) (resp : response ollama_line) :
  cancel p = false ->
  attempt_says p (fst (_try_ollama_stream W p resp))
    (snd (_try_ollama_stream W p resp)).
Proof.
  intros Hc. unfold _try_ollama_stream.
  destruct resp as [e|ok lines ending]; [exists []; apply says_refl|].
  destruct ok; [|exists []; apply says_refl].
  apply says_finish. now apply says_ollama_loop.
Qed.

Lemma says_try_cloud (p : StreamingPipeline) (provider : Provider)
    (resp : response cloud_line) :
  cancel p = false ->
  attempt_says p (fst (_try_cloud_stream W p provider resp))
    (snd (_try_cloud_stream W p provider resp)).
Proof.
  intros Hc. unfold _try_cloud_stream.
  destruct (str_eqb (compatible provider) (lit "google"));
    [exists []; apply says_refl|].
  destruct resp as [e|ok lines ending]; [exists []; apply says_refl|].
  destruct ok; [|exists []; apply says_refl].
  apply says_finish. now apply says_cloud_loop.
Qed.

Lemma says_fallbacks (cloud : Provider -> response cloud_line)
    (providers : list Provider) (p : StreamingPipeline) :
  cancel p = false ->
  attempt_says p (fst (try_fallbacks W cloud p providers))
    (snd (try_fallbacks W cloud p providers)).
Proof.
  revert p. induction providers as [|provider rest IH]; intros p Hc; simpl.
  - exists []. apply says_refl.
  - rewrite Hc.
    pose proof (says_try_cloud p provider (cloud provider) Hc) as E.
    destruct (_try_cloud_stream W p provider (cloud provider)) as [p1 ok].
    simpl in E. destruct ok; [exact E|].
    destruct E as [out E].
    eapply says_attempt; [exact E|].
    apply IH. eapply cancel_of_says; eassumption.
Qed.

Lemma says_stream (chain : list Provider) (ollama : response ollama_line)
    (cloud : Provider -> response cloud_line) (p : StreamingPipeline) :
  cancel p = false ->
  let p' := _stream_from_ollama W chain ollama cloud p in
  routed p p'
  \/ (exists out tail, finished p p' out tail)
  \/ (exists out,
         sentence_queue p'
         = sentence_queue p ++ map Some out ++ [Some APOLOGY; None]
         /\ full_response p' = ALL_UNREACHABLE).
Proof.
  intros Hc. cbv zeta. unfold _stream_from_ollama.
  pose proof (says_try_ollama p ollama Hc) as E.
  destruct (_try_ollama_stream W p ollama) as [p1 ok]. simpl in E.
  destruct ok; [destruct E as [E|E]; [now left | right; now left]|].
  destruct E as [out E].
  pose proof (cancel_of_says E Hc) as Hc1.
  assert (F : attempt_says p1
               (fst (if nonempty chain && negb (cancel p1)
                     then try_fallbacks W cloud p1 chain else (p1, false)))
               (snd (if nonempty chain && negb (cancel p1)
                     then try_fallbacks W cloud p1 chain else (p1, false)))).
  { destruct (nonempty chain && negb (cancel p1));
      [now apply says_fallbacks | exists []; apply says_refl]. }
  destruct (if nonempty chain && negb (cancel p1)
            then try_fallbacks W cloud p1 chain else (p1, false)) as [p2 ok2].
  simpl in F. pose proof (@says_attempt p p1 p2 out ok2 E F) as G. destruct ok2.
  - destruct G as [G|G]; [now left | right; now left].
  - destruct F as [out' F]. rewrite (cancel_of_says F Hc1).
    simpl negb. cbv iota. right. right.
    destruct G as [out2 [G1 [G2 G3]]].
    exists out2. simpl. rewrite G1. split; [|reflexivity].
    now rewrite <- !app_assoc.
Qed.

End Response.

(** The response of a run that is not interrupted is what was sent to
    speech.  Either a route was detected and the response is the marker
    of the sentinel that closes the channel; or no provider succeeded and
    the response is the error marker, the channel ending with the apology;
    or a stream was read to its end and the response is the emitted
    sentences in order, each followed by a space, and last the text flushed
    from the buffer, if any. *)
Theorem response_is_what_was_said (W : Z) (chain : list Provider)
    (ollama : response ollama_line) (cloud : Provider -> response cloud_line)
    (p : StreamingPipeline) :
  let after := fst (run W chain ollama cloud p) in
  let response := snd (run W chain ollama cloud p) in
  (exists before agent_id refined_query,
      sentence_queue after
      = map Some before ++ [Some (route_sentinel agent_id refined_query); None]
      /\ response = lit "[ROUTE:" ++ agent_id ++ lit "] " ++ refined_query)
  \/ (exists out tail,
         sentence_queue after = map Some (out ++ tail) ++ [None]
         /\ response = spoken_text out ++ List.concat tail
         /\ List.length tail <= 1)
  \/ (exists out,
         sentence_queue after = map Some out ++ [Some APOLOGY; None]
         /\ response = ALL_UNREACHABLE).
Proof.
  cbv zeta. unfold run. cbn [fst snd].
  destruct (@says_stream W chain ollama cloud (mkPipeline false [] [] [])
              eq_refl) as [R|[F|A]].
  - left. exact R.
  - right. left. exact F.
  - right. right. exact A.
Qed.

(* ================================================================== *)
(** * The routed reply *)
(* ================================================================== *)

Lemma split_join_then (ws : list str) (t : str) :
  ws <> [] -> Forall plain_word ws ->
  str_split (str_join (lit " ") ws ++ t)
  = removelast ws ++ split_from (last ws []) t.
Proof.
  unfold str_split. intros Hne Hws.
  induction Hws as [|w ws [Hwne Hw] Hws IH]; [contradiction|].
  destruct ws as [|w' ws].
  - simpl. now rewrite split_from_word by assumption.
  - rewrite join_cons by discriminate. rewrite <- !app_assoc.
    rewrite split_from_word by assumption.
    destruct w as [|c0 w0]; [contradiction|].
    change (split_from ([] ++ c0 :: w0)
              (lit " " ++ str_join (lit " ") (w' :: ws) ++ t))
      with ((c0 :: w0) :: split_from [] (str_join (lit " ") (w' :: ws) ++ t)).
    rewrite IH by discriminate. reflexivity.
Qed.

Lemma firstn_plain (n : nat) (ws : list str) :
  Forall plain_word ws -> Forall plain_word (firstn n ws).
Proof.
  intros H. rewrite <- (firstn_skipn n ws) in H.
  apply Forall_app in H. tauto.
Qed.

Lemma length_removelast {A : Type} (l : list A) :
  l <> [] -> S (List.length (removelast l)) = List.length l.
Proof.
  intros H. destruct (exists_last H) as [l' [x E]]. subst.
  rewrite removelast_last, length_app. simpl. lia.
Qed.

(** When the specialist agent answers, [_handle_routing] stores one
    assistant turn: the tag of the agent and the text that was spoken.
    That text is the cleaned reply when it has at most 150 words;
    otherwise it is cut to 150 words plus the five words of the notice. *)
Theorem routed_reply_is_bounded (send_to_agent : str -> str -> option str)
    (m : ConversationMemory) (agent_id refined_query agent_response : str) :
  send_to_agent agent_id refined_query = Some agent_response ->
  agent_response <> [] ->
  exists spoken,
    _handle_routing send_to_agent m agent_id refined_query
    = add_assistant
        (lit "[Routed to " ++ dict_get AGENT_NAMES agent_id agent_id
         ++ lit "] " ++ spoken) m
    /\ List.length (str_split spoken) <= 155
    /\ (List.length (str_split (format_for_speech agent_response)) <= 150 ->
        spoken = format_for_speech agent_response).
Proof.
  intros Hs Hne. unfold _handle_routing. rewrite Hs.
  replace (nonempty agent_response) with true
    by (destruct agent_response; [contradiction | reflexivity]).
  set (cleaned := format_for_speech agent_response).
  destruct (Nat.ltb_spec 150 (List.length (str_split cleaned))) as [Hlong|Hshort].
  - eexists. split; [reflexivity|]. split; [|lia].
    assert (Hf : List.length (firstn 150 (str_split cleaned)) = 150)
      by (rewrite length_firstn; lia).
    assert (Hn : firstn 150 (str_split cleaned) <> [])
      by (intros E; rewrite E in Hf; discriminate).
    assert (Hp : Forall plain_word (firstn 150 (str_split cleaned)))
      by (apply firstn_plain, split_words).
    rewrite split_join_then by assumption.
    assert (Hl : plain_word (last (firstn 150 (str_split cleaned)) [])).
    { destruct (exists_last Hn) as [l' [x E]]. rewrite E in Hp |- *.
      rewrite last_last. apply Forall_app in Hp. destruct Hp as [_ Hp].
      now inversion Hp. }
    destruct (last (firstn 150 (str_split cleaned)) []) as [|c0 w0];
      [now destruct Hl|].
    rewrite length_app.
    pose proof (length_removelast Hn) as Hr. rewrite Hf in Hr.
    change (List.length
              (split_from (c0 :: w0) (lit ". Full response sent to Telegram.")))
      with 6.
    lia.
  - exists cleaned. split; [reflexivity|]. split; [lia | reflexivity].
Qed.

Lemma routed_reply_is_bounded_witness :
  exists spoken,
    _handle_routing (fun _ _ => Some (lit "**Three** listings found."))
      (mkMemory 20 [user_turn (lit "find me a laundromat")])
      (lit "deal-scanner") (lit "find me a laundromat")
    = add_assistant
        (lit "[Routed to " ++ dict_get AGENT_NAMES (lit "deal-scanner")
                                (lit "deal-scanner")
         ++ lit "] " ++ spoken)
        (mkMemory 20 [user_turn (lit "find me a laundromat")])
    /\ List.length (str_split spoken) <= 155.
Proof.
  destruct (@routed_reply_is_bounded
              (fun _ _ => Some (lit "**Three** listings found."))
              (mkMemory 20 [user_turn (lit "find me a laundromat")])
              (lit "deal-scanner") (lit "find me a laundromat")
              (lit "**Three** listings found.") eq_refl)
    as [spoken [H1 [H2 _]]]; [discriminate|].
  exists spoken. now split.
Defined.

(* ================================================================== *)
(** * Push-to-talk *)
(* ================================================================== *)

(** Pressing the hotkey twice does what pressing it once does, in every
    state; the handler never changes the state itself, touches the
    pipeline only while speaking, and is ignored while recording or
    processing. *)
Theorem ptt_press_is_idempotent (j : JarvisVoice) :
  _on_ptt_pressed (_on_ptt_pressed j) = _on_ptt_pressed j
  /\ state (_on_ptt_pressed j) = state j
  /\ (if match state j with SPEAKING => true | _ => false end
      then voice_pipeline (_on_ptt_pressed j) = interrupt (voice_pipeline j)
           /\ _ptt_event (_on_ptt_pressed j) = true
      else voice_pipeline (_on_ptt_pressed j) = voice_pipeline j)
  /\ (if match state j with RECORDING | PROCESSING => true | _ => false end
      then _on_ptt_pressed j = j
      else _ptt_event (_on_ptt_pressed j) = true).
Proof.
  destruct j as [st ev p]. unfold _on_ptt_pressed. cbn [state].
  destruct st; cbn [state _ptt_event voice_pipeline]; repeat split.
  now rewrite !interrupt_state.
Qed.
